(** * RAJA: hybrid index sets and OpenMP reducers

    A shallow embedding of
    - [sources/HybridISet.cxx]: the segmented index set and its builder
      [buildHybridISet], and
    - [include/RAJA/policy/openmp/reduce.hpp]: the tree-merge ([omp_reduce])
      and slot-pool ([omp_reduce_ordered]) reducers,
    together with the properties proved about them.

    The C++ objects live in an explicit store: [new] takes a fresh address,
    [delete] removes it, and a method receives the address of [this].
    Behaviour that C++ leaves undefined (a null or dangling dereference, a
    read past the end of the index array) is the failure of the monad [M]. *)

From stdpp Require Import gmap strings list fin_maps.
From Stdlib Require Import ZArith Lia.

Local Open Scope Z_scope.

(** ** Data model *)

(** Modelled from the spec: the typedef [Index_type] is in a header that is
    not part of the sources; the spec has a "sequence<Integer>" of indices.
    Index values are integers, and the arithmetic of the builder
    ([scanVal+1], [dobegin+sliceCount]) is the integers': signed overflow is
    undefined in C++. *)
Definition Index_type : Type := Z.

(** Addresses of heap and stack objects. *)
Definition loc : Type := positive.

(** The segment tags named in [HybridISet.cxx]; [_Unknown_] stands for every
    other value a tag may hold.  [_RangeStride_] is named by the source, but
    all of its cases are compiled out ([#if 0]). *)
Inductive SegmentType : Type :=
  | _Range_
  | _RangeStride_
  | _Unstructured_
  | _Unknown_.

(** Modelled from the spec: the class [RangeISet] is declared in a header
    that is not part of the sources.  "for Range: (begin, end)". *)
Record RangeISet : Type := mkRange { r_begin : Index_type; r_end : Index_type }.

(** Modelled from the spec: the class [UnstructuredISet] is declared in a
    header that is not part of the sources.  "for List: an owned,
    exclusively-held copy of an index array and its length". *)
Record UnstructuredISet : Type :=
  mkUnstructured { u_indx : list Index_type; u_len : Index_type }.

(** [Segment], as [HybridISet.cxx] uses it: a tag [m_type] and an untyped
    pointer [m_segment] ([const void*]); [None] is the null pointer. *)
Record Segment : Type := mkSegment { m_type : SegmentType; m_segment : option loc }.

(** The members of [HybridISet]: the cached length and the vector of
    segments. *)
Record HybridISet : Type :=
  mkHybrid { m_len : Index_type; m_segments : list Segment }.

(** What an address of the store holds. *)
Inductive Obj : Type :=
  | ORange (r : RangeISet)
  | OUnstructured (u : UnstructuredISet)
  | OHybrid (h : HybridISet).

(** What is written to an output stream.  The [print] methods of the two
    payload classes are not part of the sources: a call is recorded as one
    item. *)
Inductive OutItem : Type :=
  | Str (s : string)
  | Num (z : Z)
  | Endl
  | PrintRange (r : RangeISet)
  | PrintUnstructured (u : UnstructuredISet).

Record World : Type := mkWorld { heap : gmap loc Obj; cout : list OutItem }.

Definition empty_world : World := mkWorld ∅ [].

(** ** The state-and-failure monad *)

Definition St (S A : Type) : Type := S -> option (A * S).

Definition ret {S A : Type} (a : A) : St S A := fun w => Some (a, w).

Definition bind {S A B : Type} (m : St S A) (k : A -> St S B) : St S B :=
  fun w => match m w with
           | Some (a, w') => k a w'
           | None => None
           end.

(** Undefined behaviour. *)
Definition undefined {S A : Type} : St S A := fun _ => None.

Notation "'let*' x ':=' c 'in' k" := (bind c (fun x => k))
  (at level 10, x name, c at level 100, k at level 200).
Notation "c '>>' k" := (bind c (fun _ => k))
  (at level 100, k at level 200, right associativity).

Definition M (A : Type) : Type := St World A.

(** [new T(...)]: the object is placed at an address not in use. *)
Definition new (o : Obj) : M loc :=
  fun w => let p := fresh (dom (heap w)) in
           Some (p, mkWorld (<[p := o]> (heap w)) (cout w)).

Definition load (p : loc) : M Obj :=
  fun w => match heap w !! p with
           | Some o => Some (o, w)
           | None => None
           end.

Definition store (p : loc) (o : Obj) : M unit :=
  fun w => match heap w !! p with
           | Some _ => Some (tt, mkWorld (<[p := o]> (heap w)) (cout w))
           | None => None
           end.

(** Releasing the storage of an object. *)
Definition free (p : loc) : M unit :=
  fun w => match heap w !! p with
           | Some _ => Some (tt, mkWorld (delete p (heap w)) (cout w))
           | None => None
           end.

(** [std::cout << ...] *)
Definition print_cout (items : list OutItem) : M unit :=
  fun w => Some (tt, mkWorld (heap w) (cout w ++ items)).

(** [static_cast<const RangeISet*>(p)] followed by a dereference. *)
Definition load_Range (p : loc) : M RangeISet :=
  let* o := load p in
  match o with ORange r => ret r | _ => undefined end.

Definition load_Unstructured (p : loc) : M UnstructuredISet :=
  let* o := load p in
  match o with OUnstructured u => ret u | _ => undefined end.

Definition load_Hybrid (p : loc) : M HybridISet :=
  let* o := load p in
  match o with OHybrid h => ret h | _ => undefined end.

(** [delete is] after the cast of the pointer to [RangeISet*]. *)
Definition delete_Range (p : loc) : M unit := load_Range p >> free p.

Definition delete_Unstructured (p : loc) : M unit := load_Unstructured p >> free p.

(** ** Payload classes *)

(** Modelled from the spec: [RangeISet::getLength()], the index count of
    the range (begin, end). *)
Definition RangeISet_getLength (r : RangeISet) : Index_type := r_end r - r_begin r.

(** Modelled from the spec: [UnstructuredISet::getLength()], the length
    the segment holds. *)
Definition UnstructuredISet_getLength (u : UnstructuredISet) : Index_type := u_len u.

(** Modelled from the spec: [UnstructuredISet(indx, len)] takes "an owned,
    exclusively-held copy of an index array and its length": it copies [len]
    indices starting at [indx].  The array behind the pointer is the list
    [indx]; fewer than [len] indices behind the pointer is a read past the
    end. *)
Definition UnstructuredISet_ctor (indx : list Index_type) (len : Index_type)
  : M UnstructuredISet :=
  if decide (0 <= len <= Z.of_nat (length indx))
  then ret (mkUnstructured (take (Z.to_nat len) indx) len)
  else undefined.

(** ** [HybridISet] *)

(** [HybridISet::HybridISet()], for an object placed at a fresh address. *)
Definition HybridISet_ctor : M loc := new (OHybrid (mkHybrid 0 [])).

Definition getLength (this : loc) : M Index_type :=
  let* h := load_Hybrid this in ret (m_len h).

Definition getNumSegments (this : loc) : M Z :=
  let* h := load_Hybrid this in ret (Z.of_nat (length (m_segments h))).

(** [m_segments.push_back(seg); m_len += n]. *)
Definition push_segment (this : loc) (seg : Segment) (n : Index_type) : M unit :=
  let* h := load_Hybrid this in
  store this (OHybrid (mkHybrid (m_len h + n) (m_segments h ++ [seg]))).

(** [template <> void HybridISet::addISet(const RangeISet& index_set)] *)
Definition addISet_Range (this : loc) (index_set : loc) : M unit :=
  let* r := load_Range index_set in
  let* new_is := new (ORange r) in
  push_segment this (mkSegment _Range_ (Some new_is)) (RangeISet_getLength r).

(** [template <> void HybridISet::addISet(const UnstructuredISet& index_set)] *)
Definition addISet_Unstructured (this : loc) (index_set : loc) : M unit :=
  let* u := load_Unstructured index_set in
  let* new_is := new (OUnstructured u) in
  push_segment this (mkSegment _Unstructured_ (Some new_is))
               (UnstructuredISet_getLength u).

Definition addRangeIndices (this : loc) (begin end_ : Index_type) : M unit :=
  let r := mkRange begin end_ in
  let* new_is := new (ORange r) in
  push_segment this (mkSegment _Range_ (Some new_is)) (RangeISet_getLength r).

Definition addUnstructuredIndices (this : loc) (indx : list Index_type)
  (len : Index_type) : M unit :=
  let* u := UnstructuredISet_ctor indx len in
  let* new_is := new (OUnstructured u) in
  push_segment this (mkSegment _Unstructured_ (Some new_is))
               (UnstructuredISet_getLength u).

(** The body of the loop of [HybridISet::copy], for one segment of [other]. *)
Definition copy_segment (this : loc) (seg : Segment) : M unit :=
  match m_type seg with
  | _Range_ =>
      match m_segment seg with
      | Some p => addISet_Range this p
      | None => undefined
      end
  | _Unstructured_ =>
      match m_segment seg with
      | Some p => addISet_Unstructured this p
      | None => undefined
      end
  | _ => print_cout [Str "\t HybridISet copySegments: case not implemented!!\n"]
  end.

Fixpoint for_segments (body : Segment -> M unit) (segs : list Segment) : M unit :=
  match segs with
  | [] => ret tt
  | seg :: rest => body seg >> for_segments body rest
  end.

(** [void HybridISet::copy(const HybridISet& other)] *)
Definition copy (this other : loc) : M unit :=
  let* o := load_Hybrid other in
  for_segments (copy_segment this) (m_segments o).

(** [HybridISet::HybridISet(const HybridISet& other)] *)
Definition HybridISet_copy_ctor (other : loc) : M loc :=
  let* this := new (OHybrid (mkHybrid 0 [])) in
  copy this other >> ret this.

(** The body of the loop of [HybridISet::~HybridISet], for one segment. *)
Definition dtor_segment (seg : Segment) : M unit :=
  match m_type seg with
  | _Range_ =>
      match m_segment seg with
      | Some p => delete_Range p
      | None => ret tt
      end
  | _Unstructured_ =>
      match m_segment seg with
      | Some p => delete_Unstructured p
      | None => ret tt
      end
  | _ => print_cout [Str "\t HybridISet dtor: case not implemented!!\n"]
  end.

(** [HybridISet::~HybridISet()] *)
Definition HybridISet_dtor (this : loc) : M unit :=
  let* h := load_Hybrid this in
  for_segments dtor_segment (m_segments h).

(** The end of the lifetime of an object: destructor, then its storage. *)
Definition destroy (this : loc) : M unit := HybridISet_dtor this >> free this.

(** [swap(m_len, other.m_len)] and [swap(m_segments, other.m_segments)] *)
Definition swap_m_len (this other : loc) : M unit :=
  let* a := load_Hybrid this in
  let* b := load_Hybrid other in
  store this (OHybrid (mkHybrid (m_len b) (m_segments a))) >>
  let* b' := load_Hybrid other in
  store other (OHybrid (mkHybrid (m_len a) (m_segments b'))).

Definition swap_m_segments (this other : loc) : M unit :=
  let* a := load_Hybrid this in
  let* b := load_Hybrid other in
  store this (OHybrid (mkHybrid (m_len a) (m_segments b))) >>
  let* b' := load_Hybrid other in
  store other (OHybrid (mkHybrid (m_len b') (m_segments a))).

(** [void HybridISet::swap(HybridISet& other)] *)
Definition swap (this other : loc) : M unit :=
  swap_m_len this other >> swap_m_segments this other.

(** [HybridISet& HybridISet::operator=(const HybridISet& rhs)]; the local
    [copy] is destroyed when its block ends. *)
Definition operator_assign (this rhs : loc) : M loc :=
  if decide (rhs <> this) then
    let* copy := HybridISet_copy_ctor rhs in
    swap this copy >>
    destroy copy >>
    ret this
  else ret this.

(** The body of the loop of [HybridISet::print], for one segment: what it
    writes to [os]. *)
Definition print_segment (seg : Segment) : M (list OutItem) :=
  match m_type seg with
  | _Range_ =>
      match m_segment seg with
      | Some p => let* r := load_Range p in ret [PrintRange r]
      | None => ret [Str "_Range_ is null"; Endl]
      end
  | _Unstructured_ =>
      match m_segment seg with
      | Some p => let* u := load_Unstructured p in ret [PrintUnstructured u]
      | None => ret [Str "_Unstructured_ is null"; Endl]
      end
  | _ => ret [Str "HybridISet print: case not implemented!!\n"]
  end.

Fixpoint print_segments (segs : list Segment) : M (list OutItem) :=
  match segs with
  | [] => ret []
  | seg :: rest =>
      let* o := print_segment seg in
      let* os := print_segments rest in
      ret (o ++ os)
  end.

(** [void HybridISet::print(std::ostream& os) const]: the items written to
    [os]. *)
Definition print (this : loc) : M (list OutItem) :=
  let* len := getLength this in
  let* nsegs := getNumSegments this in
  let* h := load_Hybrid this in
  let* os := print_segments (m_segments h) in
  ret ([Str "HYBRID INDEX SET : "; Num len; Str " length..."; Endl;
        Num nsegs; Str " segments..."; Endl] ++ os).

(** ** Iterating an index set *)

(** The indices of a segment, in order: a Range segment is [begin, begin+1,
    ..., end-1], a List segment its stored indices. *)
Definition segment_indices (seg : Segment) : M (list Index_type) :=
  match m_type seg, m_segment seg with
  | _Range_, Some p =>
      let* r := load_Range p in ret (seqZ (r_begin r) (r_end r - r_begin r))
  | _Unstructured_, Some p =>
      let* u := load_Unstructured p in ret (take (Z.to_nat (u_len u)) (u_indx u))
  | _, _ => undefined
  end.

Fixpoint segments_indices (segs : list Segment) : M (list Index_type) :=
  match segs with
  | [] => ret []
  | seg :: rest =>
      let* l := segment_indices seg in
      let* ls := segments_indices rest in
      ret (l ++ ls)
  end.

(** The sequence of indices an index set enumerates: its segments in
    container order. *)
Definition enumerate (this : loc) : M (list Index_type) :=
  let* h := load_Hybrid this in segments_indices (m_segments h).

(** ** The builder *)

(** [indices_in[ii]]; a read outside the array is undefined. *)
Definition index (indices_in : list Index_type) (ii : Index_type) : option Index_type :=
  if decide (0 <= ii) then indices_in !! Z.to_nat ii else None.

Definition index_M (indices_in : list Index_type) (ii : Index_type) : M Index_type :=
  fun w => match index indices_in ii with
           | Some v => Some (v, w)
           | None => None
           end.

(** [&indices_in[i]]: the array that starts at position [i]. *)
Definition address_of (indices_in : list Index_type) (i : Index_type)
  : M (list Index_type) :=
  if decide (0 <= i <= Z.of_nat (length indices_in))
  then ret (drop (Z.to_nat i) indices_in)
  else undefined.

(** The local variables of the statistics pass and of the build pass. *)
Record StatState : Type :=
  mkStat { s_docount : Index_type; s_inrange : Index_type;
           s_scanVal : Index_type; s_sliceCount : Index_type }.

Record BuildState : Type :=
  mkBuild { b_dobegin : Index_type; b_inrange : Index_type;
            b_scanVal : Index_type; b_sliceCount : Index_type }.

Section Builder.

(** Compile-time constants of a configuration header that is not part of
    the sources. *)
Variables RANGE_ALIGN RANGE_MIN_LENGTH : Index_type.

(** [(scanVal % RANGE_ALIGN) == 0], with the truncating remainder of C. *)
Definition aligned (scanVal : Index_type) : bool :=
  Z.rem scanVal RANGE_ALIGN =? 0.

(** One iteration of the loop that gathers statistics. *)
Definition stats_body (indices_in : list Index_type) (ii : Index_type)
  (s : StatState) : option StatState :=
  match index indices_in ii with
  | None => None
  | Some lookAhead =>
      let '(mkStat docount inrange scanVal sliceCount) := s in
      let inrange :=
        if inrange =? -1 then
          if (lookAhead =? scanVal + 1) && aligned scanVal then 1 else 0
        else inrange in
      let '(docount, inrange, sliceCount) :=
        if lookAhead =? scanVal + 1 then
          let '(docount, inrange, sliceCount) :=
            if (inrange =? 0) && aligned scanVal then
              let docount :=
                if negb (sliceCount =? 0) then docount + (1 + sliceCount)
                else docount in
              (docount, 1, 0)
            else (docount, inrange, sliceCount) in
          (docount, inrange, sliceCount + 1)
        else
          if inrange =? 1 then (docount + 2, 0, 0)
          else (docount, inrange, sliceCount + 1) in
      Some (mkStat docount inrange lookAhead sliceCount)
  end.

(** [for (Index_type ii = 1; ii < length; ++ii)], with [n] iterations
    left. *)
Fixpoint stats_loop (n : nat) (indices_in : list Index_type)
  (ii : Index_type) (s : StatState) : option StatState :=
  match n with
  | O => Some s
  | S n' =>
      match stats_body indices_in ii s with
      | None => None
      | Some s' => stats_loop n' indices_in (ii + 1) s'
      end
  end.

(** The statistics pass: the value of [docount] at the cutoff test. *)
Definition stats_pass (indices_in : list Index_type) (length : Index_type)
  : option Index_type :=
  match index indices_in 0 with
  | None => None
  | Some scanVal =>
      match stats_loop (Z.to_nat (length - 1)) indices_in 1
                       (mkStat 0 (-1) scanVal 0) with
      | None => None
      | Some (mkStat docount inrange scanVal sliceCount) =>
          let docount :=
            if negb (inrange =? -1) then
              if negb (inrange =? 0) then docount + 2
              else docount + (1 + (sliceCount + 1))
            else if negb (scanVal =? -1) then docount + 2
            else docount in
          Some (docount + 1)
      end
  end.

(** One iteration of the loop that builds the segments: its first
    statement, [if (inrange == -1) { ... }], *)
Definition build_enter (ii lookAhead : Index_type) (s : BuildState) : BuildState :=
  let '(mkBuild dobegin inrange scanVal sliceCount) := s in
  if inrange =? -1 then
    if (lookAhead =? scanVal + 1) && aligned scanVal
    then mkBuild dobegin 1 scanVal sliceCount
    else mkBuild (ii - 1) 0 scanVal sliceCount
  else s.

(** its second statement, [if (lookAhead == scanVal+1) { ... } else { ... }], *)
Definition build_scan (hindex : loc) (indices_in : list Index_type)
  (ii lookAhead : Index_type) (s : BuildState) : M BuildState :=
  let '(mkBuild dobegin inrange scanVal sliceCount) := s in
  if lookAhead =? scanVal + 1 then
    let* s' :=
      if (inrange =? 0) && aligned scanVal then
        (if negb (sliceCount =? 0) then
           let* indx := address_of indices_in dobegin in
           addUnstructuredIndices hindex indx sliceCount
         else ret tt) >>
        ret (mkBuild scanVal 1 scanVal 0)
      else ret s in
    ret (mkBuild (b_dobegin s') (b_inrange s') scanVal (b_sliceCount s' + 1))
  else
    if inrange =? 1 then
      let sliceCount := sliceCount + 1 in
      addRangeIndices hindex dobegin (dobegin + sliceCount) >>
      ret (mkBuild ii 0 scanVal 0)
    else ret (mkBuild dobegin inrange scanVal (sliceCount + 1)).

(** and the whole body, which ends with [scanVal = lookAhead]. *)
Definition build_body (hindex : loc) (indices_in : list Index_type)
  (ii : Index_type) (s : BuildState) : M BuildState :=
  let* lookAhead := index_M indices_in ii in
  let* s' := build_scan hindex indices_in ii lookAhead
                        (build_enter ii lookAhead s) in
  ret (mkBuild (b_dobegin s') (b_inrange s') lookAhead (b_sliceCount s')).

Fixpoint build_loop (n : nat) (hindex : loc) (indices_in : list Index_type)
  (ii : Index_type) (s : BuildState) : M BuildState :=
  match n with
  | O => ret s
  | S n' =>
      let* s' := build_body hindex indices_in ii s in
      build_loop n' hindex indices_in (ii + 1) s'
  end.

(** The build pass: the loop and the segment emitted after it. *)
Definition build_pass (hindex : loc) (indices_in : list Index_type)
  (length : Index_type) : M unit :=
  let* scanVal := index_M indices_in 0 in
  let* s := build_loop (Z.to_nat (length - 1)) hindex indices_in 1
                       (mkBuild scanVal (-1) scanVal 0) in
  let '(mkBuild dobegin inrange scanVal sliceCount) := s in
  if negb (inrange =? -1) then
    if negb (inrange =? 0) then
      let sliceCount := sliceCount + 1 in
      addRangeIndices hindex dobegin (dobegin + sliceCount)
    else
      let sliceCount := sliceCount + 1 in
      let* indx := address_of indices_in dobegin in
      addUnstructuredIndices hindex indx sliceCount
  else if negb (scanVal =? -1) then
    addUnstructuredIndices hindex [scanVal] 1
  else ret tt.

(** [HybridISet* buildHybridISet(const Index_type* const indices_in,
    Index_type length)] *)
Definition buildHybridISet (indices_in : list Index_type) (length : Index_type)
  : M loc :=
  let* hindex := HybridISet_ctor in
  (if decide (length > RANGE_MIN_LENGTH) then
     let* docount :=
       (fun w => match stats_pass indices_in length with
                 | Some d => Some (d, w)
                 | None => None
                 end) in
     if decide (docount < Z.quot (length * (RANGE_ALIGN - 1)) RANGE_ALIGN) then
       build_pass hindex indices_in length
     else
       addUnstructuredIndices hindex indices_in length
   else
     addUnstructuredIndices hindex indices_in length) >>
  ret hindex.

End Builder.

(** ** The index-set container of the unit tests *)

Module StaticIndexSet.

(** Modelled from the spec: the container [RAJA::StaticIndexSet] used by
    [test/unit/cpu/test-indexsets.cpp] and its segment classes are declared
    in headers that are not part of the sources.  "[segments]: ordered
    sequence of Segment"; "[kind]: tag, one of {Range, List}"; operations
    [pushBack], [size] (segment count), [getLength] (total index count). *)
Inductive Seg : Type :=
  | RangeSegment (begin end_ : Index_type)
  | ListSegment (indices : list Index_type).

Definition IndexSet : Type := list Seg.



Definition seg_indices (seg : Seg) : list Index_type :=
  match seg with
  | RangeSegment b e => seqZ b (e - b)
  | ListSegment l => l
  end.

Definition seg_length (seg : Seg) : Z := Z.of_nat (length (seg_indices seg)).

Definition getLength (is_ : IndexSet) : Z :=
  foldr (fun seg n => seg_length seg + n) 0 is_.

(** The enumerated index sequence: segment order, then the order within
    each segment. *)
Definition enumerate (is_ : IndexSet) : list Index_type :=
  concat (map seg_indices is_).




End StaticIndexSet.

(** ** Reducers *)

(** The value type [T] of the reducer templates, instantiated at an integer
    type. *)
Definition T : Type := Z.

Inductive ReduceKind : Type := RMin | RMinLoc | RMax | RSum | RMaxLoc.

Definition sumZ (l : list Z) : Z := foldr Z.add 0 l.

(** Modelled from the spec: the functors [RAJA::reduce::min], [minloc],
    [max], [sum] and [maxloc] of [RAJA/pattern/reduce.hpp], which is not part
    of the sources; [Reduce()(val, loc, v, l)] updates [val] (and [loc]) in
    place.  "[current_value = min(current_value, value)], updating
    [current_location] only when the combine rule indicates the new value
    won (ties keep the existing location)". *)
Definition Reduce (k : ReduceKind) (val : T) (loc_ : Index_type) (v : T)
  (l : Index_type) : T * Index_type :=
  match k with
  | RMin => (if v <? val then v else val, loc_)
  | RMinLoc => if v <? val then (v, l) else (val, loc_)
  | RMax => (if val <? v then v else val, loc_)
  | RMaxLoc => if val <? v then (v, l) else (val, loc_)
  | RSum => (val + v, loc_)
  end.

(** *** Tree-merge flavor: [Reduce*<omp_reduce, T>] *)

Module OmpReduce.

(** The members of the five classes: [m_idx] belongs to the two [Loc]
    classes, [m_custom_init] to [ReduceSum]. *)
Record Reducer : Type :=
  mkReducer { m_parent : option loc; m_val : T; m_idx : Index_type;
              m_custom_init : T }.

Definition Store : Type := gmap loc Reducer.

Definition new (r : Reducer) : St (gmap loc Reducer) loc :=
  fun h => let p := fresh (dom h) in Some (p, <[p := r]> h).

Definition load (p : loc) : St (gmap loc Reducer) Reducer :=
  fun h => match h !! p with Some r => Some (r, h) | None => None end.

Definition store (p : loc) (r : Reducer) : St (gmap loc Reducer) unit :=
  fun h => match h !! p with Some _ => Some (tt, <[p := r]> h) | None => None end.

Definition free (p : loc) : St (gmap loc Reducer) unit :=
  fun h => match h !! p with Some _ => Some (tt, delete p h) | None => None end.

(** [explicit ReduceMin(T init_val)], [ReduceMinLoc(T init_val, Index_type
    init_idx)], ..., [ReduceSum(T init_val, T initializer = T())]. *)
Definition ctor (init_val : T) (init_idx : Index_type) (initializer : T)
  : St (gmap loc Reducer) loc :=
  new (mkReducer None init_val init_idx initializer).

(** The copy constructors: "keep parent the same if non-null or set to
    current".  [ReduceSum] starts the copy at [other.m_custom_init], the
    other four at [other.m_val]. *)
Definition copy_ctor (k : ReduceKind) (other : loc) : St (gmap loc Reducer) loc :=
  let* o := load other in
  new (mkReducer (match m_parent o with Some p => Some p | None => Some other end)
                 (match k with RSum => m_custom_init o | _ => m_val o end)
                 (m_idx o)
                 (m_custom_init o)).

(** The destructors: "folds value into parent object"; then the storage
    of the object ends. *)
Definition dtor (k : ReduceKind) (this : loc) : St (gmap loc Reducer) unit :=
  let* r := load this in
  match m_parent r with
  | Some parent =>
      let* p := load parent in
      let '(val, idx) := Reduce k (m_val p) (m_idx p) (m_val r) (m_idx r) in
      store parent (mkReducer (m_parent p) val idx (m_custom_init p))
  | None => ret tt
  end >>
  free this.

(** [operator T()] and [get()]. *)
Definition get (this : loc) : St (gmap loc Reducer) T :=
  let* r := load this in ret (m_val r).

Definition getLoc (this : loc) : St (gmap loc Reducer) Index_type :=
  let* r := load this in ret (m_idx r).

(** [min(rhs)], [minloc(rhs, idx)], [max(rhs)], [operator+=(rhs)],
    [maxloc(rhs, idx)]. *)
Definition update (k : ReduceKind) (this : loc) (rhs : T) (idx : Index_type)
  : St (gmap loc Reducer) unit :=
  let* r := load this in
  let '(val, i) := Reduce k (m_val r) (m_idx r) rhs idx in
  store this (mkReducer (m_parent r) val i (m_custom_init r)).

(** What a region does with the reducers it holds. *)
Inductive Op : Type :=
  | Copy (src : loc)
  | Update (target : loc) (rhs : T) (idx : Index_type)
  | Destroy (target : loc).

Definition step (k : ReduceKind) (op : Op) : St (gmap loc Reducer) unit :=
  match op with
  | Copy src => copy_ctor k src >> ret tt
  | Update target rhs idx => update k target rhs idx
  | Destroy target => dtor k target
  end.

Fixpoint exec (k : ReduceKind) (ops : list Op) : St (gmap loc Reducer) unit :=
  match ops with
  | [] => ret tt
  | op :: rest => step k op >> exec k rest
  end.

(** The values given to [+=] by a list of operations, and the number of
    copies it makes. *)
Definition updates (ops : list Op) : list T :=
  omap (fun op => match op with Update _ v _ => Some v | _ => None end) ops.

Definition copies (ops : list Op) : Z :=
  foldr (fun op n => match op with Copy _ => 1 + n | _ => n end) 0 ops.

Definition is_destroy_of (root : loc) (op : Op) : bool :=
  match op with Destroy p => bool_decide (p = root) | _ => false end.

End OmpReduce.

(** *** Slot-pool flavor: [Reduce*<omp_reduce_ordered, T>] *)

Module OmpReduceOrdered.

Record Reducer : Type :=
  mkReducer { m_myID : Z; m_blockdata : loc; m_idxdata : loc;
              m_init_val : T; m_reduced_val : T; m_reduced_idx : Index_type;
              m_is_copy : bool }.

(** The shared blocks of per-thread slots, by the address of the block;
    slot [i] of a block is [asT(i)] (or [asIndex(i)]).  [this] is the
    instance whose method runs. *)
Record State : Type := mkState { blocks : gmap loc (list Z); this : Reducer }.

(** [*asT(i)], [*asIndex(i)]: a read. *)
Definition read_slot (block : loc) (i : nat) : St State Z :=
  fun st => match blocks st !! block with
            | Some b => match b !! i with
                        | Some v => Some (v, st)
                        | None => None
                        end
            | None => None
            end.

(** [*asT(i) = v]: a write. *)
Definition write_slot (block : loc) (i : nat) (v : Z) : St State unit :=
  fun st => match blocks st !! block with
            | Some b => if decide (i < length b)%nat
                        then Some (tt, mkState (<[block := <[i := v]> b]> (blocks st)) (this st))
                        else None
            | None => None
            end.

Definition get_this : St State Reducer := fun st => Some (this st, st).

Definition set_reduced (val : T) (idx : Index_type) : St State unit :=
  fun st =>
    let r := this st in
    Some (tt, mkState (blocks st)
                (mkReducer (m_myID r) (m_blockdata r) (m_idxdata r)
                   (m_init_val r) val idx (m_is_copy r))).

(** [for (int i = 0; i < nthreads; ++i) Reduce()(m_reduced_val,
    m_reduced_idx, *asT(i), *asIndex(i));] with [n] iterations left.  The
    classes without a location have no [m_idxdata]. *)
Fixpoint fold_slots (k : ReduceKind) (n : nat) (i : nat) : St State unit :=
  match n with
  | O => ret tt
  | S n' =>
      let* r := get_this in
      let* v := read_slot (m_blockdata r) i in
      let* l := match k with
                | RMinLoc | RMaxLoc => read_slot (m_idxdata r) i
                | _ => ret (m_reduced_idx r)
                end in
      let '(val, idx) := Reduce k (m_reduced_val r) (m_reduced_idx r) v l in
      set_reduced val idx >>
      fold_slots k n' (S i)
  end.

(** [tmp_reduced_val += static_cast<T>(m_blockdata[i * s_block_offset])] *)
Fixpoint sum_slots (n : nat) (i : nat) (tmp_reduced_val : T) : St State T :=
  match n with
  | O => ret tmp_reduced_val
  | S n' =>
      let* r := get_this in
      let* v := read_slot (m_blockdata r) i in
      sum_slots n' (S i) (tmp_reduced_val + v)
  end.

(** [operator T()] and [get()]; [nthreads] is [omp_get_max_threads()]. *)
Definition get (k : ReduceKind) (nthreads : nat) : St State T :=
  match k with
  | RSum =>
      let* tmp_reduced_val := sum_slots nthreads 0 0 in
      let* r := get_this in
      set_reduced (m_init_val r + tmp_reduced_val) (m_reduced_idx r) >>
      let* r := get_this in
      ret (m_reduced_val r)
  | _ =>
      fold_slots k nthreads 0 >>
      let* r := get_this in
      ret (m_reduced_val r)
  end.

(** [getLoc()] of the two [Loc] classes. *)
Definition getLoc (k : ReduceKind) (nthreads : nat) : St State Index_type :=
  fold_slots k nthreads 0 >>
  let* r := get_this in
  ret (m_reduced_idx r).

(** [min(val)], [minloc(val, idx)], ..., [operator+=(val)] by the thread
    [tid = omp_get_thread_num()]. *)
Definition update (k : ReduceKind) (tid : nat) (val : T) (idx : Index_type)
  : St State unit :=
  let* r := get_this in
  let* v := read_slot (m_blockdata r) tid in
  match k with
  | RMinLoc | RMaxLoc =>
      let* l := read_slot (m_idxdata r) tid in
      let '(v', l') := Reduce k v l val idx in
      write_slot (m_blockdata r) tid v' >>
      write_slot (m_idxdata r) tid l'
  | _ =>
      let '(v', _) := Reduce k v 0 val idx in
      write_slot (m_blockdata r) tid v'
  end.

(** The state a constructor leaves: every slot of the block holds
    [init_val] ([0] for [ReduceSum]), every slot of the index block
    [init_loc].  The allocator of the blocks ([getCPUReductionId],
    [getCPUReductionMemBlock], [getCPUReductionLocBlock]) is not part of the
    sources: what it returns are the parameters [id], [blockdata] and
    [idxdata]. *)
Definition ctor (k : ReduceKind) (nthreads : nat) (id : Z)
  (blockdata idxdata : loc) (init_val : T) (init_loc : Index_type) : State :=
  mkState (<[idxdata := replicate nthreads init_loc]>
             (<[blockdata := replicate nthreads
                               (match k with RSum => 0 | _ => init_val end)]> ∅))
          (mkReducer id blockdata idxdata init_val
                     (match k with RSum => 0 | _ => init_val end)
                     init_loc false).

(** Updates by the threads of a region: [(tid, val, idx)]. *)
Fixpoint updates (k : ReduceKind) (us : list (nat * T * Index_type)) : St State unit :=
  match us with
  | [] => ret tt
  | (tid, val, idx) :: rest => update k tid val idx >> updates k rest
  end.

(** The copy constructors: the copy shares the blocks and the id of the
    original and is marked as a copy.  ([m_init_val] belongs to [ReduceSum],
    [m_idxdata] and [m_reduced_idx] to the two [Loc] classes.) *)
Definition copy_ctor (other : Reducer) : Reducer :=
  mkReducer (m_myID other) (m_blockdata other) (m_idxdata other)
            (m_init_val other) (m_reduced_val other) (m_reduced_idx other) true.

(** A region: its body holds a copy of the reducer, the threads update
    through the copy, and the copy is destroyed at the end (the destructor
    of a copy returns at once); the original is the current object again. *)
Definition parallel_region (k : ReduceKind) (us : list (nat * T * Index_type))
  : St State unit :=
  fun st =>
    let original := this st in
    match updates k us (mkState (blocks st) (copy_ctor original)) with
    | Some (_, st') => Some (tt, mkState (blocks st') original)
    | None => None
    end.

End OmpReduceOrdered.

(** * Specification-level definitions *)

(** What a segment of an index set denotes, read through the heap. *)
Inductive ISeg : Type :=
  | IRange (r : RangeISet)
  | IList (u : UnstructuredISet).

Definition seg_view (hp : gmap loc Obj) (seg : Segment) : option ISeg :=
  match m_type seg, m_segment seg with
  | _Range_, Some p =>
      match hp !! p with Some (ORange r) => Some (IRange r) | _ => None end
  | _Unstructured_, Some p =>
      match hp !! p with Some (OUnstructured u) => Some (IList u) | _ => None end
  | _, _ => None
  end.

Definition seg_is (hp : gmap loc Obj) (seg : Segment) (i : ISeg) : Prop :=
  seg_view hp seg = Some i.

(** [this] is an index set of cached length [len] whose segments, all of a
    known kind and with a live payload, denote [isegs]. *)
Definition represents (hp : gmap loc Obj) (this : loc) (len : Index_type)
  (isegs : list ISeg) : Prop :=
  exists h, hp !! this = Some (OHybrid h) /\ m_len h = len /\
            Forall2 (seg_is hp) (m_segments h) isegs.

Definition iseg_indices (i : ISeg) : list Index_type :=
  match i with
  | IRange r => seqZ (r_begin r) (r_end r - r_begin r)
  | IList u => take (Z.to_nat (u_len u)) (u_indx u)
  end.

Definition iseg_length (i : ISeg) : Index_type :=
  match i with
  | IRange r => RangeISet_getLength r
  | IList u => UnstructuredISet_getLength u
  end.

Definition isegs_indices (isegs : list ISeg) : list Index_type :=
  concat (map iseg_indices isegs).

(** The part of the array [a] of [k] elements from position [p]. *)
Definition slice (a : list Index_type) (p k : Z) : list Index_type :=
  take (Z.to_nat k) (drop (Z.to_nat p) a).

(** A Range segment stands for a run [v, v+1, ...] of the input whose first
    value is a multiple of the alignment. *)
Definition range_ok (RANGE_ALIGN : Index_type) (a : list Index_type) (i : ISeg) : Prop :=
  match i with
  | IRange r =>
      (RANGE_ALIGN | r_begin r) /\ r_begin r < r_end r /\
      exists p, 0 <= p /\
        slice a p (r_end r - r_begin r) = seqZ (r_begin r) (r_end r - r_begin r)
  | IList _ => True
  end.

(** The invariant of the loop of the build pass, at the head of iteration
    [ii]: the segments emitted so far lay out the first [p] elements of the
    array, and the segment being scanned starts at position [p]. *)
Definition build_inv (RANGE_ALIGN : Index_type) (a : list Index_type)
  (ii : Index_type) (s : BuildState) (len : Index_type) (isegs : list ISeg) : Prop :=
  exists p : Z,
    0 <= p <= ii - 1 /\ ii <= Z.of_nat (length a) /\
    index a (ii - 1) = Some (b_scanVal s) /\
    b_sliceCount s = ii - 1 - p /\
    len = p /\
    isegs_indices isegs = take (Z.to_nat p) a /\
    Forall (range_ok RANGE_ALIGN a) isegs /\
    ((b_inrange s = -1 /\ ii = 1 /\ b_dobegin s = b_scanVal s)
     \/ (b_inrange s = 0 /\ b_dobegin s = p)
     \/ (b_inrange s = 1 /\ aligned RANGE_ALIGN (b_dobegin s) = true /\
         slice a p (ii - p) = seqZ (b_dobegin s) (ii - p))).

(** The pointers an index set owns. *)
Definition seg_ptrs (segs : list Segment) : list loc := omap m_segment segs.

Definition is_payload (o : Obj) : Prop :=
  match o with OHybrid _ => False | _ => True end.

(** Every payload object of [hp] is still there, unchanged, in [hp']. *)
Definition payloads_kept (hp hp' : gmap loc Obj) : Prop :=
  forall p o, hp !! p = Some o -> is_payload o -> hp' !! p = Some o.

(** The total of the lengths of the segments. *)
Definition total_length (isegs : list ISeg) : Index_type :=
  foldr (fun i n => iseg_length i + n) 0 isegs.

Definition payload_of (i : ISeg) : Obj :=
  match i with IRange r => ORange r | IList u => OUnstructured u end.

(** A valid index set at [this], with segments [segs] that denote [isegs]:
    the cached length is the total of the segment lengths, every segment is
    of a known kind with a live payload, and no payload is owned twice. *)
Definition valid (hp : gmap loc Obj) (this : loc) (segs : list Segment)
  (isegs : list ISeg) : Prop :=
  hp !! this = Some (OHybrid (mkHybrid (total_length isegs) segs)) /\
  Forall2 (seg_is hp) segs isegs /\
  NoDup (seg_ptrs segs).

(** Every object of [hp] other than the one at [c] is unchanged in [hp']. *)
Definition kept_except (c : loc) (hp hp' : gmap loc Obj) : Prop :=
  forall q o, q <> c -> hp !! q = Some o -> hp' !! q = Some o.

(** The reducers of a region form a flat tree: the root has no parent, and
    the parent of every other reducer is the root. *)
Definition flat (root : loc) (h : gmap loc OmpReduce.Reducer) : Prop :=
  (exists r, h !! root = Some r /\ OmpReduce.m_parent r = None) /\
  (forall p r, h !! p = Some r -> p <> root -> OmpReduce.m_parent r = Some root).

(** The sum of the values the reducers of a store hold. *)
Definition total (h : gmap loc OmpReduce.Reducer) : Z :=
  map_fold (fun _ r acc => OmpReduce.m_val r + acc) 0 h.

(** The root is not destroyed by the operations of the region. *)
Definition root_outlives (root : loc) (ops : list OmpReduce.Op) : bool :=
  forallb (fun op => negb (OmpReduce.is_destroy_of root op)) ops.

(** [a] is at least as good as [b] for the reduction [k]. *)
Definition better (k : ReduceKind) (a b : T) : Prop :=
  match k with
  | RMin | RMinLoc => a <= b
  | RMax | RMaxLoc => b <= a
  | RSum => False
  end.

(** The state of a slot-pool reducer with [m_reduced_val] and
    [m_reduced_idx] set. *)
Definition with_reduced (st : OmpReduceOrdered.State) (val : T) (idx : Index_type)
  : OmpReduceOrdered.State :=
  OmpReduceOrdered.mkState (OmpReduceOrdered.blocks st)
    (OmpReduceOrdered.mkReducer
       (OmpReduceOrdered.m_myID (OmpReduceOrdered.this st))
       (OmpReduceOrdered.m_blockdata (OmpReduceOrdered.this st))
       (OmpReduceOrdered.m_idxdata (OmpReduceOrdered.this st))
       (OmpReduceOrdered.m_init_val (OmpReduceOrdered.this st))
       val idx
       (OmpReduceOrdered.m_is_copy (OmpReduceOrdered.this st))).

(** The block of the reducer (and its index block, for the two [Loc]
    classes) holds a slot for each of the [nthreads] threads. *)
Definition slots_ok (k : ReduceKind) (nthreads : nat) (st : OmpReduceOrdered.State)
  : Prop :=
  (exists b, OmpReduceOrdered.blocks st
               !! OmpReduceOrdered.m_blockdata (OmpReduceOrdered.this st) = Some b /\
             (nthreads <= length b)%nat) /\
  match k with
  | RMinLoc | RMaxLoc =>
      exists bi, OmpReduceOrdered.blocks st
                   !! OmpReduceOrdered.m_idxdata (OmpReduceOrdered.this st) = Some bi /\
                 (nthreads <= length bi)%nat
  | _ => True
  end.

(** What [print] writes for a segment with a live payload. *)
Definition iseg_item (i : ISeg) : OutItem :=
  match i with IRange r => PrintRange r | IList u => PrintUnstructured u end.

(** The computation [m], when it is defined, keeps the property [P] of the
    world. *)
Definition keeps {A : Type} (P : World -> Prop) (m : M A) : Prop :=
  forall w a w', P w -> m w = Some (a, w') -> P w'.

(** [this] is a valid index set of the world. *)
Definition is_valid (this : loc) (w : World) : Prop :=
  exists segs isegs, valid (heap w) this segs isegs.

(** The cost the statistics pass of the builder counts for a segment: "length
    + begin" for a Range segment, "length + singletons" for a List segment. *)
Definition cost (isegs : list ISeg) : Index_type :=
  foldr (fun i c => match i with IRange _ => 2 | IList u => 1 + u_len u end + c) 0 isegs.

(** No two neighbours of the array are consecutive integers. *)
Definition no_adjacent (a : list Index_type) : Prop :=
  forall i v v', a !! i = Some v -> a !! S i = Some v' -> v' <> v + 1.

(** The pairs of a value and a location given to [minloc] or [maxloc] by a
    list of operations. *)
Definition update_pairs (ops : list OmpReduce.Op) : list (T * Index_type) :=
  omap (fun op => match op with
                  | OmpReduce.Update _ v i => Some (v, i)
                  | _ => None
                  end) ops.

(** The values a region has seen are [vals]: every live reducer holds one of
    them, and each of them is no better than what some live reducer holds. *)
Definition extremum_inv (k : ReduceKind) (vals : list T)
  (h : gmap loc OmpReduce.Reducer) : Prop :=
  (forall p r, h !! p = Some r -> OmpReduce.m_val r ∈ vals) /\
  (forall v, v ∈ vals ->
     exists p r, h !! p = Some r /\ better k (OmpReduce.m_val r) v).

(** Every live reducer holds one of the pairs [pairs]. *)
Definition pairs_inv (pairs : list (T * Index_type))
  (h : gmap loc OmpReduce.Reducer) : Prop :=
  forall p r, h !! p = Some r -> (OmpReduce.m_val r, OmpReduce.m_idx r) ∈ pairs.

(** The values, and the pairs of a value and a location, that the threads
    of a region give to a slot-pool reducer; every thread number is below
    [n]. *)
Definition update_values (us : list (nat * T * Index_type)) : list T :=
  map (fun u => snd (fst u)) us.

Definition update_locs (us : list (nat * T * Index_type)) : list (T * Index_type) :=
  map (fun u => (snd (fst u), snd u)) us.

Definition tids_below (n : nat) (us : list (nat * T * Index_type)) : bool :=
  forallb (fun u => (fst (fst u) <? n)%nat) us.

Definition is_loc (k : ReduceKind) : bool :=
  match k with RMinLoc | RMaxLoc => true | _ => false end.

(** The block of the reducer holds [b] and its index block, a different
    block, holds [bi]. *)
Definition pool (st : OmpReduceOrdered.State) (b bi : list Z) : Prop :=
  OmpReduceOrdered.m_blockdata (OmpReduceOrdered.this st)
    <> OmpReduceOrdered.m_idxdata (OmpReduceOrdered.this st) /\
  OmpReduceOrdered.blocks st
    !! OmpReduceOrdered.m_blockdata (OmpReduceOrdered.this st) = Some b /\
  OmpReduceOrdered.blocks st
    !! OmpReduceOrdered.m_idxdata (OmpReduceOrdered.this st) = Some bi.

(** The slots [b] (with the locations [bi]) after updates with the values
    [vals]: every slot holds the initial value or one of [vals], each of
    [vals] is no better than some slot, and for the classes with a location
    every slot holds one of [pairs]. *)
Definition slots_inv (k : ReduceKind) (v0 : T) (vals : list T)
  (pairs : list (T * Index_type)) (b bi : list Z) : Prop :=
  (forall j (s : Z), b !! j = Some s -> s ∈ v0 :: vals) /\
  (forall v, v ∈ vals -> exists j (s : Z), b !! j = Some s /\ better k s v) /\
  (is_loc k = true ->
   forall j (s l : Z), b !! j = Some s -> bi !! j = Some l -> (s, l) ∈ pairs).

(** A region that uses its reducers as a region does: every operation is
    on a reducer that is alive, the root is not destroyed, and at the end
    every copy has been destroyed.  [live] is the set of the addresses of
    the live reducers; a copy gets the address [new] gives it. *)
Fixpoint region_ok (root : loc) (live : gset loc) (ops : list OmpReduce.Op) : bool :=
  match ops with
  | [] => bool_decide (live = {[root]})
  | OmpReduce.Copy src :: rest =>
      bool_decide (src ∈ live) && region_ok root ({[fresh live]} ∪ live) rest
  | OmpReduce.Update target _ _ :: rest =>
      bool_decide (target ∈ live) && region_ok root live rest
  | OmpReduce.Destroy target :: rest =>
      bool_decide (target ∈ live) && negb (bool_decide (target = root))
      && region_ok root (live ∖ {[target]}) rest
  end.

(** * Sample inputs *)

(** An index set with a segment of unknown kind between a Range segment and
    a Range segment without payload. *)
Definition unknown_world : World :=
  mkWorld (<[1%positive := OHybrid (mkHybrid 4 [mkSegment _Range_ (Some 2%positive);
                                                mkSegment _Unknown_ (Some 9%positive);
                                                mkSegment _Range_ None])]>
             (<[2%positive := ORange (mkRange 0 4)]> ∅)) [].

(** A Range index set at address 1 and a List index set at address 3. *)
Definition two_sets : World :=
  mkWorld (<[1%positive := OHybrid (mkHybrid 4 [mkSegment _Range_ (Some 2%positive)])]>
             (<[2%positive := ORange (mkRange 0 4)]>
                (<[3%positive := OHybrid (mkHybrid 2 [mkSegment _Unstructured_ (Some 4%positive)])]>
                   (<[4%positive := OUnstructured (mkUnstructured [7; 9] 2)]> ∅)))) [].

(** A region of a tree-merge reducer whose root is at address 1: copies,
    updates and destructors. *)
Definition region : list OmpReduce.Op :=
  [OmpReduce.Copy 1%positive;
   OmpReduce.Copy 2%positive;
   OmpReduce.Update 2%positive 5 0;
   OmpReduce.Update 3%positive 7 0;
   OmpReduce.Update 2%positive 1 0;
   OmpReduce.Destroy 3%positive;
   OmpReduce.Copy 2%positive;
   OmpReduce.Update 3%positive (-4) 0;
   OmpReduce.Destroy 2%positive;
   OmpReduce.Destroy 3%positive].

(** The store after the first seven operations of [region], for the sum
    reducer with initial value 10. *)
Definition region_h2 : gmap loc OmpReduce.Reducer :=
  <[1%positive := OmpReduce.mkReducer None 17 0 0]>
    (<[2%positive := OmpReduce.mkReducer (Some 1%positive) 6 0 0]>
       (<[3%positive := OmpReduce.mkReducer (Some 1%positive) 0 0 0]> ∅)).

(** A slot-pool min-loc reducer for four threads, as constructed. *)
Definition pool_state : OmpReduceOrdered.State :=
  OmpReduceOrdered.ctor RMinLoc 4 0 1%positive 2%positive 100 (-1).

(** An index set without segments, at address 1. *)
Definition empty_set : World :=
  mkWorld (<[1%positive := OHybrid (mkHybrid 0 [])]> ∅) [].

(** A region of a min-loc reducer whose root is at address 1: the copy and
    the root are both given the value 3, at different locations. *)
Definition loc_region : list OmpReduce.Op :=
  [OmpReduce.Copy 1%positive;
   OmpReduce.Update 2%positive 5 11;
   OmpReduce.Update 2%positive 3 12;
   OmpReduce.Update 1%positive 3 13;
   OmpReduce.Destroy 2%positive].

(** Updates of a slot-pool reducer by the threads 0 and 3. *)
Definition pool_updates : list (nat * T * Index_type) :=
  [(0%nat, 5, 10); (3%nat, 7, 11); (0%nat, 1, 12)].

(** An index set at address 1 with a segment of unknown kind, whose
    pointer is dangling, between a Range segment and a List segment; an
    empty index set at address 5. *)
Definition unknown_between : World :=
  mkWorld (<[1%positive := OHybrid (mkHybrid 6 [mkSegment _Range_ (Some 2%positive);
                                                mkSegment _Unknown_ (Some 9%positive);
                                                mkSegment _Unstructured_ (Some 4%positive)])]>
             (<[2%positive := ORange (mkRange 0 4)]>
                (<[4%positive := OUnstructured (mkUnstructured [7; 9] 2)]>
                   (<[5%positive := OHybrid (mkHybrid 0 [])]> ∅)))) [].

(** * Properties *)

(** ** The monad *)

Lemma bind_Some {S A B : Type} (m : St S A) (k : A -> St S B) w a w' :
  m w = Some (a, w') -> bind m k w = k a w'.
Proof. intros H. unfold bind. now rewrite H. Qed.

Lemma bind_None {S A B : Type} (m : St S A) (k : A -> St S B) w :
  m w = None -> bind m k w = None.
Proof. intros H. unfold bind. now rewrite H. Qed.

Lemma bind_inv {S A B : Type} (m : St S A) (k : A -> St S B) w r :
  bind m k w = Some r -> exists a w', m w = Some (a, w') /\ k a w' = Some r.
Proof.
  unfold bind. destruct (m w) as [[a w']|]; [|discriminate].
  intros H. now exists a, w'.
Qed.

Lemma bind_assoc {S A B C : Type} (m : St S A) (k : A -> St S B) (k' : B -> St S C) w :
  bind (bind m k) k' w = bind m (fun a => bind (k a) k') w.
Proof. unfold bind. destruct (m w) as [[a w']|]; reflexivity. Qed.

Lemma bind_cong {S A B : Type} (m : St S A) (k1 k2 : A -> St S B) w :
  (forall a w', k1 a w' = k2 a w') -> bind m k1 w = bind m k2 w.
Proof. intros H. unfold bind. destruct (m w) as [[a w']|]; [apply H|reflexivity]. Qed.

Lemma bind_cong_l {S A B : Type} (m1 m2 : St S A) (k : A -> St S B) w :
  m1 w = m2 w -> bind m1 k w = bind m2 k w.
Proof. intros H. unfold bind. now rewrite H. Qed.

(** ** Equality of index sets *)

Module StaticIndexSetFacts.
Import StaticIndexSet.




End StaticIndexSetFacts.

(** ** The store *)

Lemma payloads_kept_refl hp : payloads_kept hp hp.
Proof. intros p o H _. exact H. Qed.

Lemma payloads_kept_trans hp1 hp2 hp3 :
  payloads_kept hp1 hp2 -> payloads_kept hp2 hp3 -> payloads_kept hp1 hp3.
Proof. intros H12 H23 p o H Hp. apply H23; [apply H12|]; assumption. Qed.

Lemma fresh_lookup_None (hp : gmap loc Obj) : hp !! fresh (dom hp) = None.
Proof. apply not_elem_of_dom, is_fresh. Qed.

Lemma payloads_kept_insert_fresh (hp : gmap loc Obj) p o :
  hp !! p = None -> payloads_kept hp (<[p := o]> hp).
Proof.
  intros Hp q o' Hq _. rewrite lookup_insert_ne; [exact Hq|].
  intros ->. congruence.
Qed.

Lemma payloads_kept_insert_hybrid (hp : gmap loc Obj) p h h' :
  hp !! p = Some (OHybrid h) -> payloads_kept hp (<[p := OHybrid h']> hp).
Proof.
  intros Hp q o' Hq Hpay. rewrite lookup_insert_ne; [exact Hq|].
  intros ->. rewrite Hp in Hq. injection Hq as <-. destruct Hpay.
Qed.

Lemma seg_is_kept hp hp' seg i :
  payloads_kept hp hp' -> seg_is hp seg i -> seg_is hp' seg i.
Proof.
  intros Hk. unfold seg_is, seg_view.
  destruct (m_type seg), (m_segment seg) as [p|]; try discriminate.
  - destruct (hp !! p) as [[r| |]|] eqn:E; try discriminate.
    intros H. now rewrite (Hk _ _ E I).
  - destruct (hp !! p) as [[|u|]|] eqn:E; try discriminate.
    intros H. now rewrite (Hk _ _ E I).
Qed.

Lemma segs_are_kept hp hp' segs isegs :
  payloads_kept hp hp' ->
  Forall2 (seg_is hp) segs isegs -> Forall2 (seg_is hp') segs isegs.
Proof.
  intros Hk H. eapply Forall2_impl; [exact H|].
  intros seg i. now apply seg_is_kept.
Qed.

Lemma load_Hybrid_Some w p h :
  heap w !! p = Some (OHybrid h) -> load_Hybrid p w = Some (h, w).
Proof. intros H. unfold load_Hybrid, bind, load. now rewrite H. Qed.

Lemma load_Hybrid_inv w p h w' :
  load_Hybrid p w = Some (h, w') -> w' = w /\ heap w !! p = Some (OHybrid h).
Proof.
  unfold load_Hybrid, bind, load.
  destruct (heap w !! p) as [[| |h0]|]; try discriminate.
  unfold ret. intros H. now injection H as -> ->.
Qed.

Lemma load_Range_Some w p r :
  heap w !! p = Some (ORange r) -> load_Range p w = Some (r, w).
Proof. intros H. unfold load_Range, bind, load. now rewrite H. Qed.

Lemma load_Unstructured_Some w p u :
  heap w !! p = Some (OUnstructured u) -> load_Unstructured p w = Some (u, w).
Proof. intros H. unfold load_Unstructured, bind, load. now rewrite H. Qed.

(** [push_segment] after the allocation of the payload [o] of the segment. *)
Lemma new_push_segment w this h o ty n :
  heap w !! this = Some (OHybrid h) ->
  bind (new o) (fun new_is => push_segment this (mkSegment ty (Some new_is)) n) w =
  Some (tt, mkWorld
              (<[this := OHybrid (mkHybrid (m_len h + n)
                            (m_segments h ++ [mkSegment ty (Some (fresh (dom (heap w))))]))]>
                 (<[fresh (dom (heap w)) := o]> (heap w)))
              (cout w)).
Proof.
  intros Hthis.
  assert (Hne : fresh (dom (heap w)) <> this).
  { intros E. pose proof (fresh_lookup_None (heap w)) as F.
    rewrite E in F. congruence. }
  unfold bind, new, push_segment, bind, load_Hybrid, bind, load, store. simpl.
  rewrite lookup_insert_ne by exact Hne. rewrite Hthis. simpl.
  rewrite lookup_insert_ne by exact Hne. rewrite Hthis. reflexivity.
Qed.

Lemma represents_push hp this len isegs h o ty i n :
  hp !! this = Some (OHybrid h) -> m_len h = len ->
  Forall2 (seg_is hp) (m_segments h) isegs ->
  is_payload o ->
  (forall hp' p, hp' !! p = Some o -> seg_is hp' (mkSegment ty (Some p)) i) ->
  represents
    (<[this := OHybrid (mkHybrid (m_len h + n)
                  (m_segments h ++ [mkSegment ty (Some (fresh (dom hp)))]))]>
       (<[fresh (dom hp) := o]> hp))
    this (len + n) (isegs ++ [i]).
Proof.
  intros Hthis Hlen Hsegs Hpay Hi.
  assert (Hne : fresh (dom hp) <> this).
  { intros E. pose proof (fresh_lookup_None hp) as F. rewrite E in F. congruence. }
  eexists. split; [apply lookup_insert_eq|]. simpl. split; [now subst|].
  apply Forall2_app.
  - eapply segs_are_kept; [|exact Hsegs].
    eapply payloads_kept_trans.
    + apply payloads_kept_insert_fresh, fresh_lookup_None.
    + eapply payloads_kept_insert_hybrid. rewrite lookup_insert_ne by exact Hne.
      exact Hthis.
  - constructor; [|constructor]. apply Hi.
    rewrite lookup_insert_ne by (intros E; now apply Hne).
    apply lookup_insert_eq.
Qed.

Lemma addRangeIndices_spec this b e w len isegs :
  represents (heap w) this len isegs ->
  exists w', addRangeIndices this b e w = Some (tt, w') /\
             represents (heap w') this (len + (e - b)) (isegs ++ [IRange (mkRange b e)]) /\
             cout w' = cout w /\ payloads_kept (heap w) (heap w').
Proof.
  intros (h & Hthis & Hlen & Hsegs).
  eexists. split; [|split; [|split]].
  - unfold addRangeIndices. apply (new_push_segment w this h). exact Hthis.
  - simpl. apply (represents_push (heap w) this len isegs h); auto.
    + exact I.
    + intros hp' p Hp. unfold seg_is, seg_view. simpl. now rewrite Hp.
  - reflexivity.
  - simpl. eapply payloads_kept_trans.
    + apply payloads_kept_insert_fresh, fresh_lookup_None.
    + eapply payloads_kept_insert_hybrid. rewrite lookup_insert_ne; [exact Hthis|].
      intros E. pose proof (fresh_lookup_None (heap w)) as F. rewrite E in F. congruence.
Qed.

Lemma addUnstructuredIndices_spec this indx n w len isegs :
  represents (heap w) this len isegs ->
  0 <= n <= Z.of_nat (length indx) ->
  exists w', addUnstructuredIndices this indx n w = Some (tt, w') /\
             represents (heap w') this (len + n)
               (isegs ++ [IList (mkUnstructured (take (Z.to_nat n) indx) n)]) /\
             cout w' = cout w /\ payloads_kept (heap w) (heap w').
Proof.
  intros (h & Hthis & Hlen & Hsegs) Hn.
  eexists. split; [|split; [|split]].
  - unfold addUnstructuredIndices, UnstructuredISet_ctor.
    rewrite decide_True by exact Hn.
    unfold bind at 1. unfold ret at 1.
    apply (new_push_segment w this h). exact Hthis.
  - simpl. apply (represents_push (heap w) this len isegs h); auto.
    + exact I.
    + intros hp' p Hp. unfold seg_is, seg_view. simpl. now rewrite Hp.
  - reflexivity.
  - simpl. eapply payloads_kept_trans.
    + apply payloads_kept_insert_fresh, fresh_lookup_None.
    + eapply payloads_kept_insert_hybrid. rewrite lookup_insert_ne; [exact Hthis|].
      intros E. pose proof (fresh_lookup_None (heap w)) as F. rewrite E in F. congruence.
Qed.

Lemma getLength_spec w this len isegs :
  represents (heap w) this len isegs -> getLength this w = Some (len, w).
Proof.
  intros (h & Hthis & Hlen & _). unfold getLength.
  rewrite (bind_Some _ _ _ _ _ (load_Hybrid_Some _ _ _ Hthis)).
  now subst.
Qed.

Lemma getNumSegments_spec w this len isegs :
  represents (heap w) this len isegs ->
  getNumSegments this w = Some (Z.of_nat (length isegs), w).
Proof.
  intros (h & Hthis & _ & Hsegs). unfold getNumSegments.
  rewrite (bind_Some _ _ _ _ _ (load_Hybrid_Some _ _ _ Hthis)).
  now rewrite (Forall2_length _ _ _ Hsegs).
Qed.

Lemma segment_indices_spec w seg i :
  seg_is (heap w) seg i -> segment_indices seg w = Some (iseg_indices i, w).
Proof.
  unfold seg_is, seg_view, segment_indices.
  destruct (m_type seg), (m_segment seg) as [p|]; try discriminate.
  - destruct (heap w !! p) as [[r| |]|] eqn:E; try discriminate.
    intros [= <-]. now rewrite (bind_Some _ _ _ _ _ (load_Range_Some _ _ _ E)).
  - destruct (heap w !! p) as [[|u|]|] eqn:E; try discriminate.
    intros [= <-]. now rewrite (bind_Some _ _ _ _ _ (load_Unstructured_Some _ _ _ E)).
Qed.

Lemma segments_indices_spec w segs isegs :
  Forall2 (seg_is (heap w)) segs isegs ->
  segments_indices segs w = Some (isegs_indices isegs, w).
Proof.
  induction 1 as [|seg i segs isegs Hi _ IH]; [reflexivity|].
  simpl. rewrite (bind_Some _ _ _ _ _ (segment_indices_spec _ _ _ Hi)).
  now rewrite (bind_Some _ _ _ _ _ IH).
Qed.

Lemma enumerate_spec w this len isegs :
  represents (heap w) this len isegs ->
  enumerate this w = Some (isegs_indices isegs, w).
Proof.
  intros (h & Hthis & _ & Hsegs). unfold enumerate.
  rewrite (bind_Some _ _ _ _ _ (load_Hybrid_Some _ _ _ Hthis)).
  now apply segments_indices_spec.
Qed.

Lemma isegs_indices_app l1 l2 :
  isegs_indices (l1 ++ l2) = isegs_indices l1 ++ isegs_indices l2.
Proof. unfold isegs_indices. now rewrite map_app, concat_app. Qed.

Lemma isegs_indices_snoc l i :
  isegs_indices (l ++ [i]) = isegs_indices l ++ iseg_indices i.
Proof. rewrite isegs_indices_app. unfold isegs_indices. simpl. now rewrite app_nil_r. Qed.

(** ** Arrays *)

Lemma index_Some a i v : index a i = Some v <-> 0 <= i /\ a !! Z.to_nat i = Some v.
Proof.
  unfold index. destruct (decide (0 <= i)); split.
  - now intros H.
  - now intros [_ H].
  - discriminate.
  - intros [H _]. contradiction.
Qed.

Lemma index_in_range (a : list Index_type) i :
  0 <= i < Z.of_nat (length a) -> exists v, index a i = Some v.
Proof.
  intros H. destruct (lookup_lt_is_Some_2 a (Z.to_nat i)) as [v Hv]; [lia|].
  exists v. apply index_Some. split; [lia|exact Hv].
Qed.

Lemma index_M_Some a i v w : index a i = Some v -> index_M a i w = Some (v, w).
Proof. intros H. unfold index_M. now rewrite H. Qed.

Lemma slice_snoc a p k v :
  0 <= p -> 0 <= k -> index a (p + k) = Some v ->
  slice a p (k + 1) = slice a p k ++ [v].
Proof.
  intros Hp Hk Hv. unfold slice.
  replace (Z.to_nat (k + 1)) with (S (Z.to_nat k)) by lia.
  apply take_S_r. rewrite lookup_drop.
  apply index_Some in Hv as [_ Hv].
  now replace (Z.to_nat p + Z.to_nat k)%nat with (Z.to_nat (p + k)) by lia.
Qed.

Lemma seqZ_snoc b k : 0 <= k -> seqZ b (k + 1) = seqZ b k ++ [b + k].
Proof.
  intros Hk. pose proof (seqZ_S b (Z.to_nat k)) as H.
  rewrite Nat2Z.inj_succ, Z2Nat.id in H by lia. exact H.
Qed.

Lemma take_slice a p k :
  0 <= p -> 0 <= k ->
  take (Z.to_nat p) a ++ slice a p k = take (Z.to_nat (p + k)) a.
Proof.
  intros Hp Hk. unfold slice. rewrite take_take_drop.
  f_equal. lia.
Qed.

Lemma slice_one a p v : 0 <= p -> index a p = Some v -> slice a p 1 = [v].
Proof.
  intros Hp Hv. change 1 with (0 + 1).
  rewrite (slice_snoc a p 0 v); [reflexivity|lia|lia|].
  now rewrite Z.add_0_r.
Qed.

(** The last value of a run. *)
Lemma run_last a p k b v :
  0 <= p -> 0 < k -> slice a p k = seqZ b k ->
  index a (p + k - 1) = Some v -> v = b + (k - 1).
Proof.
  intros Hp Hk Hrun Hv. apply index_Some in Hv as [_ Hv].
  assert (H : slice a p k !! Z.to_nat (k - 1) = Some v).
  { unfold slice. rewrite lookup_take_lt by lia. rewrite lookup_drop.
    now replace (Z.to_nat p + Z.to_nat (k - 1))%nat with (Z.to_nat (p + k - 1)) by lia. }
  rewrite Hrun in H. apply lookup_seqZ in H as [-> _]. lia.
Qed.

Lemma address_of_Some a i w :
  0 <= i <= Z.of_nat (length a) ->
  address_of a i w = Some (drop (Z.to_nat i) a, w).
Proof. intros H. unfold address_of. now rewrite decide_True by exact H. Qed.

(** ** The builder *)

Section BuilderFacts.
Variables RANGE_ALIGN RANGE_MIN_LENGTH : Index_type.

Lemma aligned_divide v : aligned RANGE_ALIGN v = true -> (RANGE_ALIGN | v).
Proof.
  unfold aligned. intros H. apply Z.eqb_eq in H.
  destruct (decide (RANGE_ALIGN = 0)) as [->|Hne].
  - assert (E : Z.rem v 0 = v) by (destruct v; reflexivity).
    rewrite E in H. subst. apply Z.divide_0_r.
  - now apply Z.rem_divide.
Qed.

(** The first statement of the loop body leaves the scan in one of its two
    modes. *)
Lemma build_enter_spec a ii la s len isegs :
  build_inv RANGE_ALIGN a ii s len isegs ->
  build_inv RANGE_ALIGN a ii (build_enter RANGE_ALIGN ii la s) len isegs /\
  b_inrange (build_enter RANGE_ALIGN ii la s) <> -1.
Proof.
  intros (p & Hp & Hii & Hscan & Hslice & Hlen & Hidx & Hok & Hmode).
  destruct s as [dobegin inrange scanVal sliceCount]. simpl in *.
  destruct Hmode as [(-> & -> & ->)|Hmode].
  - simpl. assert (p = 0) as -> by lia.
    destruct ((la =? scanVal + 1) && aligned RANGE_ALIGN scanVal) eqn:E;
      (split; [|simpl; lia]); exists 0; simpl; repeat (split; [assumption || lia|]).
    + right. right. apply andb_true_iff in E as [_ E].
      repeat split; [assumption|]. now apply slice_one.
    + right. left. split; reflexivity.
  - assert (Hne : inrange <> -1) by (destruct Hmode as [[-> _]|[-> _]]; lia).
    apply Z.eqb_neq in Hne. rewrite Hne. split; [|simpl; now apply Z.eqb_neq].
    exists p. simpl. repeat (split; [assumption|]). now right.
Qed.

Lemma build_scan_spec hindex a ii la s w len isegs :
  represents (heap w) hindex len isegs ->
  build_inv RANGE_ALIGN a ii s len isegs ->
  b_inrange s <> -1 ->
  index a ii = Some la ->
  exists s' w' len' isegs',
    build_scan RANGE_ALIGN hindex a ii la s w = Some (s', w') /\
    represents (heap w') hindex len' isegs' /\
    build_inv RANGE_ALIGN a (ii + 1)
      (mkBuild (b_dobegin s') (b_inrange s') la (b_sliceCount s')) len' isegs' /\
    cout w' = cout w /\ payloads_kept (heap w) (heap w').
Proof.
  intros Hrep (p & Hp & Hii & Hscan & Hslice & Hlen & Hidx & Hok & Hmode) Hne Hla.
  destruct s as [dobegin inrange scanVal sliceCount]. simpl in *.
  assert (Hlt : ii < Z.of_nat (length a)).
  { apply index_Some in Hla as [? Hla]. apply lookup_lt_Some in Hla. lia. }
  assert (Hla' : index a (ii + 1 - 1) = Some la)
    by now replace (ii + 1 - 1) with ii by lia.
  destruct Hmode as [[-> _]|[(-> & ->)|(-> & Hal & Hrun)]]; [lia| |].
  - (* scanning a list *)
    destruct (la =? scanVal + 1) eqn:Ela; simpl.
    + destruct (aligned RANGE_ALIGN scanVal) eqn:Eal; simpl.
      * (* a range starts at scanVal *)
        apply Z.eqb_eq in Ela.
        assert (Hrun2 : slice a (ii - 1) (ii + 1 - (ii - 1)) = seqZ scanVal (ii + 1 - (ii - 1))).
        { replace (ii + 1 - (ii - 1)) with (1 + 1) by lia.
          rewrite (slice_snoc a (ii - 1) 1 la); [|lia|lia|now replace (ii - 1 + 1) with ii by lia].
          rewrite (slice_one a (ii - 1) scanVal); [|lia|assumption].
          unfold seqZ. simpl. repeat f_equal; lia. }
        destruct (sliceCount =? 0) eqn:Esc; simpl.
        -- apply Z.eqb_eq in Esc. assert (p = ii - 1) as -> by lia.
           eexists; exists w, len, isegs.
           split; [reflexivity|]. simpl. split; [assumption|].
           split; [|split; [reflexivity|apply payloads_kept_refl]].
           exists (ii - 1). simpl. repeat (split; [assumption || lia|]).
           right. right. repeat split; assumption.
        -- destruct (addUnstructuredIndices_spec hindex (drop (Z.to_nat p) a)
                       sliceCount w len isegs Hrep) as (w' & Hadd & Hrep' & Hc & Hk).
           { rewrite length_drop. lia. }
           eexists; exists w'; do 2 eexists.
           split.
           { rewrite !bind_assoc.
             rewrite (bind_Some _ _ _ _ _ (address_of_Some a p w ltac:(lia))).
             rewrite (bind_Some _ _ _ _ _ Hadd). reflexivity. }
           split; [exact Hrep'|]. simpl.
           split; [|split; assumption].
           exists (ii - 1). simpl. repeat (split; [assumption || lia|]).
           split.
           { rewrite isegs_indices_snoc, Hidx. simpl. rewrite take_idemp.
             fold (slice a p sliceCount). rewrite take_slice by lia.
             f_equal. lia. }
           split.
           { apply Forall_app. split; [assumption|]. now repeat constructor. }
           right. right. repeat split; assumption.
      * eexists; exists w, len, isegs.
        split; [reflexivity|]. simpl. split; [assumption|].
        split; [|split; [reflexivity|apply payloads_kept_refl]].
        exists p. simpl. repeat (split; [assumption || lia|]).
        right. left. split; reflexivity.
    + exists (mkBuild p 0 scanVal (sliceCount + 1)), w, len, isegs. simpl.
      split; [reflexivity|]. simpl. split; [assumption|].
      split; [|split; [reflexivity|apply payloads_kept_refl]].
      exists p. simpl. repeat (split; [assumption || lia|]).
      right. left. split; reflexivity.
  - (* scanning a range *)
    assert (HscanVal : scanVal = dobegin + (ii - p - 1)).
    { apply (run_last a p (ii - p) dobegin scanVal); [lia|lia|assumption|].
      now replace (p + (ii - p) - 1) with (ii - 1) by lia. }
    destruct (la =? scanVal + 1) eqn:Ela; simpl.
    + apply Z.eqb_eq in Ela.
      eexists; exists w, len, isegs.
      split; [reflexivity|]. simpl. split; [assumption|].
      split; [|split; [reflexivity|apply payloads_kept_refl]].
      exists p. simpl. repeat (split; [assumption || lia|]).
      right. right. repeat split; [assumption|].
      replace (ii + 1 - p) with (ii - p + 1) by lia.
      rewrite (slice_snoc a p (ii - p) la); [|lia|lia|now replace (p + (ii - p)) with ii by lia].
      rewrite seqZ_snoc by lia. rewrite Hrun. f_equal. f_equal. lia.
    + destruct (addRangeIndices_spec hindex dobegin (dobegin + (sliceCount + 1))
                  w len isegs Hrep) as (w' & Hadd & Hrep' & Hc & Hk).
      eexists; exists w'; do 2 eexists.
      split; [now rewrite (bind_Some _ _ _ _ _ Hadd)|].
      split; [exact Hrep'|]. simpl.
      split; [|split; assumption].
      exists ii. simpl. repeat (split; [assumption || lia|]).
      replace (dobegin + (sliceCount + 1) - dobegin) with (ii - p) by lia.
      split.
      { rewrite isegs_indices_snoc, Hidx. simpl.
        replace (dobegin + (sliceCount + 1) - dobegin) with (ii - p) by lia.
        rewrite <- Hrun, take_slice by lia. f_equal. lia. }
      split.
      { apply Forall_app. split; [assumption|]. constructor; [|constructor].
        simpl. split; [now apply aligned_divide|]. split; [lia|].
        exists p. split; [lia|].
        now replace (dobegin + (sliceCount + 1) - dobegin) with (ii - p) by lia. }
      right. left. split; reflexivity.
Qed.

Lemma build_body_spec hindex a ii s w len isegs :
  represents (heap w) hindex len isegs ->
  build_inv RANGE_ALIGN a ii s len isegs ->
  ii < Z.of_nat (length a) ->
  exists s' w' len' isegs',
    build_body RANGE_ALIGN hindex a ii s w = Some (s', w') /\
    represents (heap w') hindex len' isegs' /\
    build_inv RANGE_ALIGN a (ii + 1) s' len' isegs' /\
    cout w' = cout w /\ payloads_kept (heap w) (heap w').
Proof.
  intros Hrep Hinv Hlt.
  assert (Hii : 0 <= ii) by (destruct Hinv as (p & ? & _); lia).
  destruct (index_in_range a ii) as [la Hla]; [lia|].
  destruct (build_enter_spec a ii la s len isegs Hinv) as [Hinv1 Hne].
  destruct (build_scan_spec hindex a ii la _ w len isegs Hrep Hinv1 Hne Hla)
    as (s' & w' & len' & isegs' & Hscan & Hrep' & Hinv' & Hc & Hk).
  eexists; exists w', len', isegs'. split; [|repeat split; eassumption].
  unfold build_body.
  rewrite (bind_Some _ _ _ _ _ (index_M_Some _ _ _ w Hla)).
  now rewrite (bind_Some _ _ _ _ _ Hscan).
Qed.

Lemma build_loop_spec hindex a n : forall ii s w len isegs,
  represents (heap w) hindex len isegs ->
  build_inv RANGE_ALIGN a ii s len isegs ->
  ii + Z.of_nat n = Z.of_nat (length a) ->
  exists s' w' len' isegs',
    build_loop RANGE_ALIGN n hindex a ii s w = Some (s', w') /\
    represents (heap w') hindex len' isegs' /\
    build_inv RANGE_ALIGN a (Z.of_nat (length a)) s' len' isegs' /\
    cout w' = cout w /\ payloads_kept (heap w) (heap w').
Proof.
  induction n as [|n IH]; intros ii s w len isegs Hrep Hinv Hn.
  - exists s, w, len, isegs. replace (Z.of_nat (length a)) with ii by lia.
    repeat split; try assumption. apply payloads_kept_refl.
  - destruct (build_body_spec hindex a ii s w len isegs Hrep Hinv)
      as (s1 & w1 & len1 & isegs1 & Hbody & Hrep1 & Hinv1 & Hc1 & Hk1); [lia|].
    destruct (IH (ii + 1) s1 w1 len1 isegs1 Hrep1 Hinv1)
      as (s2 & w2 & len2 & isegs2 & Hloop & Hrep2 & Hinv2 & Hc2 & Hk2); [lia|].
    exists s2, w2, len2, isegs2. simpl.
    rewrite (bind_Some _ _ _ _ _ Hbody).
    repeat split; try assumption; [congruence|].
    eapply payloads_kept_trans; eassumption.
Qed.

(** The build pass, on an array of two elements or more, lays out the
    whole array. *)
Lemma build_pass_spec hindex a w :
  (2 <= length a)%nat ->
  represents (heap w) hindex 0 [] ->
  exists w' isegs,
    build_pass RANGE_ALIGN hindex a (Z.of_nat (length a)) w = Some (tt, w') /\
    represents (heap w') hindex (Z.of_nat (length a)) isegs /\
    isegs_indices isegs = a /\
    Forall (range_ok RANGE_ALIGN a) isegs /\
    cout w' = cout w /\ payloads_kept (heap w) (heap w').
Proof.
  intros Hlen Hrep.
  destruct (index_in_range a 0) as [v0 Hv0]; [lia|].
  assert (Hinv0 : build_inv RANGE_ALIGN a 1 (mkBuild v0 (-1) v0 0) 0 []).
  { exists 0. simpl. repeat (split; [assumption || lia || reflexivity || constructor|]).
    left. repeat split. }
  destruct (build_loop_spec hindex a (Z.to_nat (Z.of_nat (length a) - 1)) 1 _ w 0 []
              Hrep Hinv0) as (s & w1 & len1 & isegs1 & Hloop & Hrep1 & Hinv1 & Hc1 & Hk1);
    [lia|].
  unfold build_pass.
  rewrite (bind_Some _ _ _ _ _ (index_M_Some _ _ _ w Hv0)).
  rewrite (bind_Some _ _ _ _ _ Hloop).
  destruct Hinv1 as (p & Hp & _ & Hscan & Hslice & Hlen1 & Hidx & Hok & Hmode).
  destruct s as [dobegin inrange scanVal sliceCount]. simpl in *.
  set (n := Z.of_nat (length a)) in *.
  destruct Hmode as [(_ & Hn & _)|[(-> & ->)|(-> & Hal & Hrun)]]; [lia| |]; simpl.
  - destruct (addUnstructuredIndices_spec hindex (drop (Z.to_nat p) a)
                (sliceCount + 1) w1 len1 isegs1 Hrep1) as (w' & Hadd & Hrep' & Hc & Hk).
    { rewrite length_drop. lia. }
    exists w'. eexists.
    split.
    { rewrite (bind_Some _ _ _ _ _ (address_of_Some a p w1 ltac:(lia))). exact Hadd. }
    split; [replace n with (len1 + (sliceCount + 1)) by lia; exact Hrep'|].
    split.
    { rewrite isegs_indices_snoc, Hidx. simpl. rewrite take_idemp.
      fold (slice a p (sliceCount + 1)). rewrite take_slice by lia.
      apply take_ge. lia. }
    split; [apply Forall_app; split; [assumption|now repeat constructor]|].
    split; [congruence|eapply payloads_kept_trans; eassumption].
  - destruct (addRangeIndices_spec hindex dobegin (dobegin + (sliceCount + 1))
                w1 len1 isegs1 Hrep1) as (w' & Hadd & Hrep' & Hc & Hk).
    exists w'. eexists.
    split; [exact Hadd|].
    replace (dobegin + (sliceCount + 1) - dobegin) with (n - p) in Hrep' by lia.
    split; [replace n with (len1 + (n - p)) by lia; exact Hrep'|].
    split.
    { rewrite isegs_indices_snoc, Hidx. simpl.
      replace (dobegin + (sliceCount + 1) - dobegin) with (n - p) by lia.
      rewrite <- Hrun, take_slice by lia. apply take_ge. lia. }
    split.
    { apply Forall_app. split; [assumption|]. constructor; [|constructor].
      simpl. split; [now apply aligned_divide|]. split; [lia|].
      exists p. split; [lia|].
      now replace (dobegin + (sliceCount + 1) - dobegin) with (n - p) by lia. }
    split; [congruence|eapply payloads_kept_trans; eassumption].
Qed.

(** The statistics pass reads inside the array and counts at least the
    terminator. *)
Lemma stats_body_spec a ii s la :
  index a ii = Some la ->
  0 <= s_docount s -> 0 <= s_sliceCount s ->
  exists s', stats_body RANGE_ALIGN a ii s = Some s' /\
             0 <= s_docount s' /\ 0 <= s_sliceCount s'.
Proof.
  intros Hla Hd Hs. unfold stats_body. rewrite Hla.
  destruct s as [docount inrange scanVal sliceCount]. simpl in *.
  repeat match goal with
         | |- context [if ?b then _ else _] => destruct b
         end; eexists; (split; [reflexivity|]); simpl; lia.
Qed.

Lemma stats_loop_spec a n : forall ii s,
  0 <= ii -> ii + Z.of_nat n = Z.of_nat (length a) ->
  0 <= s_docount s -> 0 <= s_sliceCount s ->
  exists s', stats_loop RANGE_ALIGN n a ii s = Some s' /\
             0 <= s_docount s' /\ 0 <= s_sliceCount s'.
Proof.
  induction n as [|n IH]; intros ii s Hii Hn Hd Hs.
  - exists s. now repeat split.
  - destruct (index_in_range a ii) as [la Hla]; [lia|].
    destruct (stats_body_spec a ii s la Hla Hd Hs) as (s1 & Hbody & Hd1 & Hs1).
    simpl. rewrite Hbody. apply IH; lia.
Qed.

Lemma stats_pass_spec a :
  a <> [] ->
  exists docount, stats_pass RANGE_ALIGN a (Z.of_nat (length a)) = Some docount /\
                  1 <= docount.
Proof.
  intros Ha. assert (1 <= length a)%nat by (destruct a; [congruence|simpl; lia]).
  destruct (index_in_range a 0) as [v0 Hv0]; [lia|].
  destruct (stats_loop_spec a (Z.to_nat (Z.of_nat (length a) - 1)) 1 (mkStat 0 (-1) v0 0))
    as ([docount inrange scanVal sliceCount] & Hloop & Hd & Hs); simpl; try lia.
  unfold stats_pass. rewrite Hv0, Hloop. simpl in *.
  eexists. split; [reflexivity|].
  repeat match goal with
         | |- context [if ?b then _ else _] => destruct b
         end; lia.
Qed.

Lemma HybridISet_ctor_spec w :
  exists hindex w',
    HybridISet_ctor w = Some (hindex, w') /\
    represents (heap w') hindex 0 [] /\
    cout w' = cout w /\ payloads_kept (heap w) (heap w').
Proof.
  do 2 eexists. split; [reflexivity|]. simpl. split; [|split].
  - eexists. split; [apply lookup_insert_eq|]. split; [reflexivity|constructor].
  - reflexivity.
  - apply payloads_kept_insert_fresh, fresh_lookup_None.
Qed.

(** The path that emits the whole array as one List segment. *)
Lemma single_list_spec hindex a n w :
  represents (heap w) hindex 0 [] ->
  0 <= n <= Z.of_nat (length a) ->
  exists w',
    addUnstructuredIndices hindex a n w = Some (tt, w') /\
    represents (heap w') hindex n [IList (mkUnstructured (take (Z.to_nat n) a) n)] /\
    cout w' = cout w /\ payloads_kept (heap w) (heap w').
Proof.
  intros Hrep Hn.
  destruct (addUnstructuredIndices_spec hindex a n w 0 [] Hrep Hn)
    as (w' & Hadd & Hrep' & Hc & Hk).
  exists w'. repeat split; assumption.
Qed.

Hypothesis RANGE_ALIGN_pos : 0 < RANGE_ALIGN.

(** What [buildHybridISet] returns for an array and its length: an index
    set whose segments lay out the array, with every Range segment an
    aligned run of the input. *)
Lemma buildHybridISet_spec a w :
  a <> [] \/ 0 <= RANGE_MIN_LENGTH ->
  exists hindex w' isegs,
    buildHybridISet RANGE_ALIGN RANGE_MIN_LENGTH a (Z.of_nat (length a)) w
      = Some (hindex, w') /\
    represents (heap w') hindex (Z.of_nat (length a)) isegs /\
    isegs_indices isegs = a /\
    Forall (range_ok RANGE_ALIGN a) isegs /\
    cout w' = cout w.
Proof.
  intros Ha.
  destruct (HybridISet_ctor_spec w) as (hindex & w0 & Hctor & Hrep0 & Hc0 & _).
  assert (Hlist : exists w' isegs,
             addUnstructuredIndices hindex a (Z.of_nat (length a)) w0 = Some (tt, w') /\
             represents (heap w') hindex (Z.of_nat (length a)) isegs /\
             isegs_indices isegs = a /\
             Forall (range_ok RANGE_ALIGN a) isegs /\ cout w' = cout w).
  { destruct (single_list_spec hindex a (Z.of_nat (length a)) w0 Hrep0)
      as (w' & Hadd & Hrep' & Hc & _); [lia|].
    exists w'. eexists. split; [exact Hadd|]. split; [exact Hrep'|].
    split; [|split; [now repeat constructor|congruence]].
    unfold isegs_indices. simpl. rewrite app_nil_r, take_idemp.
    apply take_ge. lia. }
  unfold buildHybridISet. rewrite (bind_Some _ _ _ _ _ Hctor).
  destruct (decide (Z.of_nat (length a) > RANGE_MIN_LENGTH)) as [Hlong|Hshort].
  - assert (Hne : a <> []).
    { destruct Ha as [Ha|Ha]; [exact Ha|]. intros ->. simpl in Hlong. lia. }
    destruct (stats_pass_spec a Hne) as (docount & Hstats & Hd).
    rewrite bind_assoc. unfold bind at 1. rewrite Hstats.
    destruct (decide (docount < Z.quot (Z.of_nat (length a) * (RANGE_ALIGN - 1)) RANGE_ALIGN))
      as [Hcut|Hcut].
    + assert (Hlen : (2 <= length a)%nat).
      { destruct a as [|x [|y a']]; [congruence| |simpl; lia].
        simpl in Hcut. rewrite Z.quot_small in Hcut by lia. lia. }
      destruct (build_pass_spec hindex a w0 Hlen Hrep0)
        as (w' & isegs & Hpass & Hrep' & Hidx & Hok & Hc & _).
      exists hindex, w', isegs. rewrite (bind_Some _ _ _ _ _ Hpass).
      repeat split; try assumption. congruence.
    + destruct Hlist as (w' & isegs & Hadd & Hrest).
      exists hindex, w', isegs. now rewrite (bind_Some _ _ _ _ _ Hadd).
  - destruct Hlist as (w' & isegs & Hadd & Hrest).
    exists hindex, w', isegs. now rewrite (bind_Some _ _ _ _ _ Hadd).
Qed.

(** C1: for a non-empty index array, iterating the index set that
    [buildHybridISet] returns (segments in container order, a Range segment
    as begin, ..., end-1, a List segment as its stored indices) yields
    exactly the array, whichever segments were chosen. *)
Theorem C1_enumeration_is_input (a : list Index_type) (w : World) :
  a <> [] ->
  exists hindex w',
    buildHybridISet RANGE_ALIGN RANGE_MIN_LENGTH a (Z.of_nat (length a)) w
      = Some (hindex, w') /\
    enumerate hindex w' = Some (a, w').
Proof.
  intros Ha.
  destruct (buildHybridISet_spec a w (or_introl Ha))
    as (hindex & w' & isegs & Hbuild & Hrep & Hidx & _).
  exists hindex, w'. split; [exact Hbuild|].
  rewrite (enumerate_spec _ _ _ _ Hrep). now rewrite Hidx.
Qed.

(** C3: the index set that [buildHybridISet] returns for an array of
    length n has [getLength()] equal to n, on the compressed path and on
    the single List segment path alike. *)
Theorem C3_length_preserved (a : list Index_type) (w : World) :
  0 <= RANGE_MIN_LENGTH ->
  exists hindex w',
    buildHybridISet RANGE_ALIGN RANGE_MIN_LENGTH a (Z.of_nat (length a)) w
      = Some (hindex, w') /\
    getLength hindex w' = Some (Z.of_nat (length a), w').
Proof.
  intros Hmin.
  destruct (buildHybridISet_spec a w (or_intror Hmin))
    as (hindex & w' & isegs & Hbuild & Hrep & _).
  exists hindex, w'. split; [exact Hbuild|].
  exact (getLength_spec _ _ _ _ Hrep).
Qed.

(** C7: every Range segment that [buildHybridISet] emits stands for a run
    v, v+1, v+2, ... of the input whose first value v is a multiple of
    [RANGE_ALIGN]. *)
Theorem C7_ranges_are_aligned_runs (a : list Index_type) (w : World) :
  0 <= RANGE_MIN_LENGTH ->
  exists hindex w' isegs,
    buildHybridISet RANGE_ALIGN RANGE_MIN_LENGTH a (Z.of_nat (length a)) w
      = Some (hindex, w') /\
    represents (heap w') hindex (Z.of_nat (length a)) isegs /\
    Forall (range_ok RANGE_ALIGN a) isegs.
Proof.
  intros Hmin.
  destruct (buildHybridISet_spec a w (or_intror Hmin))
    as (hindex & w' & isegs & Hbuild & Hrep & _ & Hok & _).
  now exists hindex, w', isegs.
Qed.

End BuilderFacts.

Section EmptyInput.
Variables RANGE_ALIGN RANGE_MIN_LENGTH : Index_type.

(** C6, amended: for an input of length 0 [buildHybridISet] returns an
    index set with [getLength()] 0 that holds exactly one segment, a List
    segment without indices. *)
Theorem C6_empty_input_one_empty_segment (indices_in : list Index_type) (w : World) :
  0 <= RANGE_MIN_LENGTH ->
  exists hindex w',
    buildHybridISet RANGE_ALIGN RANGE_MIN_LENGTH indices_in 0 w = Some (hindex, w') /\
    getLength hindex w' = Some (0, w') /\
    getNumSegments hindex w' = Some (1, w') /\
    represents (heap w') hindex 0 [IList (mkUnstructured [] 0)] /\
    enumerate hindex w' = Some ([], w').
Proof.
  intros Hmin.
  destruct (HybridISet_ctor_spec w) as (hindex & w0 & Hctor & Hrep0 & _).
  destruct (single_list_spec hindex indices_in 0 w0 Hrep0)
    as (w' & Hadd & Hrep' & _); [lia|].
  exists hindex, w'. simpl in Hrep'. rewrite take_0 in Hrep'.
  split; [|split; [|split; [|split]]].
  - unfold buildHybridISet. rewrite (bind_Some _ _ _ _ _ Hctor).
    rewrite decide_False by lia. now rewrite (bind_Some _ _ _ _ _ Hadd).
  - exact (getLength_spec _ _ _ _ Hrep').
  - exact (getNumSegments_spec _ _ _ _ Hrep').
  - exact Hrep'.
  - exact (enumerate_spec _ _ _ _ Hrep').
Qed.
End EmptyInput.

(** C6, as stated, fails: the index set built from the empty array holds one
    segment, not none. *)
Lemma C6_empty_input_has_a_segment :
  fst <$> (let* hindex := buildHybridISet 4 32 [] 0 in
           let* len := getLength hindex in
           let* nsegs := getNumSegments hindex in
           ret (len, nsegs)) empty_world
  = Some (0, 1).
Proof. vm_compute. reflexivity. Qed.

Lemma C1_enumeration_is_input_witness :
  exists hindex w',
    buildHybridISet 4 32 (seqZ 0 40 ++ [7; 5] ++ seqZ 64 8) 50 empty_world = Some (hindex, w') /\
    enumerate hindex w' = Some (seqZ 0 40 ++ [7; 5] ++ seqZ 64 8, w').
Proof.
  apply (C1_enumeration_is_input 4 32 ltac:(lia) (seqZ 0 40 ++ [7; 5] ++ seqZ 64 8) empty_world).
  discriminate.
Defined.


(** ** Segments of an unknown kind *)

Lemma for_segments_app body l1 l2 w :
  for_segments body (l1 ++ l2) w =
  (for_segments body l1 >> for_segments body l2) w.
Proof.
  revert w. induction l1 as [|seg l1 IH]; intros w; [reflexivity|].
  simpl. rewrite bind_assoc. apply bind_cong. intros _ w'. apply IH.
Qed.

Lemma print_segments_app l1 l2 w :
  print_segments (l1 ++ l2) w =
  (let* a := print_segments l1 in
   let* b := print_segments l2 in
   ret (a ++ b)) w.
Proof.
  revert w. induction l1 as [|seg l1 IH]; intros w.
  - simpl. unfold bind, ret.
    destruct (print_segments l2 w) as [[b w1]|]; reflexivity.
  - simpl. rewrite !bind_assoc. apply bind_cong. intros o w1.
    rewrite (bind_cong_l _ _ _ _ (IH w1)). rewrite !bind_assoc.
    apply bind_cong. intros a w2. unfold bind, ret.
    destruct (print_segments l2 w2) as [[b w3]|]; [|reflexivity].
    now rewrite app_assoc.
Qed.

Lemma dtor_segment_unknown seg :
  m_type seg <> _Range_ -> m_type seg <> _Unstructured_ ->
  dtor_segment seg = print_cout [Str "\t HybridISet dtor: case not implemented!!\n"].
Proof. unfold dtor_segment. now destruct (m_type seg). Qed.

Lemma copy_segment_unknown this seg :
  m_type seg <> _Range_ -> m_type seg <> _Unstructured_ ->
  copy_segment this seg =
  print_cout [Str "\t HybridISet copySegments: case not implemented!!\n"].
Proof. unfold copy_segment. now destruct (m_type seg). Qed.

Lemma print_segment_unknown seg :
  m_type seg <> _Range_ -> m_type seg <> _Unstructured_ ->
  print_segment seg = ret [Str "HybridISet print: case not implemented!!\n"].
Proof. unfold print_segment. now destruct (m_type seg). Qed.

(** The three loops at a segment whose tag is neither Range nor
    Unstructured: the loop on the segments before it, the message, the loop
    on the segments after it. *)
Lemma unknown_segment_loops (this other : loc) (len : Index_type)
  (pre post : list Segment) (seg : Segment) (w : World) :
  m_type seg <> _Range_ -> m_type seg <> _Unstructured_ ->
  heap w !! other = Some (OHybrid (mkHybrid len (pre ++ seg :: post))) ->
  HybridISet_dtor other w =
    (for_segments dtor_segment pre >>
     print_cout [Str "\t HybridISet dtor: case not implemented!!\n"] >>
     for_segments dtor_segment post) w
  /\ copy this other w =
    (for_segments (copy_segment this) pre >>
     print_cout [Str "\t HybridISet copySegments: case not implemented!!\n"] >>
     for_segments (copy_segment this) post) w
  /\ print other w =
    (let* a := print_segments pre in
     let* b := print_segments post in
     ret ([Str "HYBRID INDEX SET : "; Num len; Str " length..."; Endl;
           Num (Z.of_nat (length (pre ++ seg :: post))); Str " segments..."; Endl]
          ++ a ++ [Str "HybridISet print: case not implemented!!\n"] ++ b)) w.
Proof.
  intros HR HU Hother.
  pose proof (load_Hybrid_Some _ _ _ Hother) as Hload.
  split; [|split].
  - unfold HybridISet_dtor. rewrite (bind_Some _ _ _ _ _ Hload). simpl.
    rewrite for_segments_app. simpl.
    now rewrite (dtor_segment_unknown seg HR HU).
  - unfold copy. rewrite (bind_Some _ _ _ _ _ Hload). simpl.
    rewrite for_segments_app. simpl.
    now rewrite (copy_segment_unknown this seg HR HU).
  - unfold print, getLength, getNumSegments. rewrite !bind_assoc.
    rewrite (bind_Some _ _ _ _ _ Hload). simpl. unfold ret at 1. unfold bind at 1.
    rewrite !bind_assoc. rewrite (bind_Some _ _ _ _ _ Hload). simpl.
    unfold ret at 1. unfold bind at 1.
    rewrite (bind_Some _ _ _ _ _ Hload). simpl.
    rewrite (bind_cong_l _ _ _ _ (print_segments_app pre (seg :: post) w)).
    rewrite !bind_assoc. apply bind_cong. intros a w1.
    simpl. rewrite (print_segment_unknown seg HR HU).
    unfold bind, ret.
    destruct (print_segments post w1) as [[b w2]|]; reflexivity.
Qed.

(** ** Copy and assignment *)

Lemma seg_is_ptr hp seg i :
  seg_is hp seg i ->
  exists p, m_segment seg = Some p /\ hp !! p = Some (payload_of i) /\
            m_type seg = match i with IRange _ => _Range_ | IList _ => _Unstructured_ end.
Proof.
  unfold seg_is, seg_view.
  destruct (m_type seg), (m_segment seg) as [p|]; try discriminate.
  - destruct (hp !! p) as [[r| |]|] eqn:E; try discriminate.
    intros [= <-]. now exists p.
  - destruct (hp !! p) as [[|u|]|] eqn:E; try discriminate.
    intros [= <-]. now exists p.
Qed.

Lemma seg_is_of_ptr hp p i :
  hp !! p = Some (payload_of i) ->
  seg_is hp (mkSegment (match i with IRange _ => _Range_ | IList _ => _Unstructured_ end)
                       (Some p)) i.
Proof. intros H. unfold seg_is, seg_view. destruct i; simpl in *; now rewrite H. Qed.

Lemma kept_except_refl c hp : kept_except c hp hp.
Proof. intros q o _ H. exact H. Qed.

Lemma kept_except_trans c hp1 hp2 hp3 :
  kept_except c hp1 hp2 -> kept_except c hp2 hp3 -> kept_except c hp1 hp3.
Proof. intros H12 H23 q o Hq H. apply H23; [|apply H12]; assumption. Qed.

Lemma kept_except_payloads c h hp hp' :
  hp !! c = Some (OHybrid h) -> kept_except c hp hp' -> payloads_kept hp hp'.
Proof.
  intros Hc Hk q o Hq Hpay. apply Hk; [|exact Hq].
  intros ->. rewrite Hc in Hq. injection Hq as <-. destruct Hpay.
Qed.

(** One segment copied into the set at [c]. *)
Lemma copy_segment_spec c len_c segs_c seg i w :
  heap w !! c = Some (OHybrid (mkHybrid len_c segs_c)) ->
  seg_is (heap w) seg i ->
  copy_segment c seg w =
  Some (tt, mkWorld
              (<[c := OHybrid (mkHybrid (len_c + iseg_length i)
                          (segs_c ++ [mkSegment (m_type seg) (Some (fresh (dom (heap w))))]))]>
                 (<[fresh (dom (heap w)) := payload_of i]> (heap w)))
              (cout w)).
Proof.
  intros Hc Hseg. destruct (seg_is_ptr _ _ _ Hseg) as (p & Hp & Hobj & Hty).
  unfold copy_segment. rewrite Hty, Hp.
  destruct i as [r|u]; simpl in *.
  - unfold addISet_Range. rewrite (bind_Some _ _ _ _ _ (load_Range_Some _ _ _ Hobj)).
    apply (new_push_segment w c _ _ _ _ Hc).
  - unfold addISet_Unstructured.
    rewrite (bind_Some _ _ _ _ _ (load_Unstructured_Some _ _ _ Hobj)).
    apply (new_push_segment w c _ _ _ _ Hc).
Qed.

Lemma fresh_ne (hp : gmap loc Obj) q o : hp !! q = Some o -> fresh (dom hp) <> q.
Proof. intros Hq E. pose proof (fresh_lookup_None hp) as F. rewrite E in F. congruence. Qed.

(** The loop of [copy]: every segment is copied to a payload at an address
    that was not in use. *)
Lemma copy_loop_spec c segs : forall isegs w len_c segs_c,
  heap w !! c = Some (OHybrid (mkHybrid len_c segs_c)) ->
  Forall2 (seg_is (heap w)) segs isegs ->
  exists w' new_segs,
    for_segments (copy_segment c) segs w = Some (tt, w') /\
    heap w' !! c = Some (OHybrid (mkHybrid (len_c + total_length isegs)
                                           (segs_c ++ new_segs))) /\
    Forall2 (seg_is (heap w')) new_segs isegs /\
    kept_except c (heap w) (heap w') /\
    Forall (fun p => heap w !! p = None) (seg_ptrs new_segs) /\
    NoDup (seg_ptrs new_segs) /\
    cout w' = cout w.
Proof.
  induction segs as [|seg segs IH]; intros isegs w len_c segs_c Hc Hsegs.
  - apply Forall2_nil_inv_l in Hsegs as ->.
    exists w, []. simpl. rewrite Z.add_0_r, app_nil_r.
    repeat split; try assumption; try constructor. apply kept_except_refl.
  - apply Forall2_cons_inv_l in Hsegs as (i & isegs' & Hseg & Hsegs & ->).
    pose proof (copy_segment_spec c len_c segs_c seg i w Hc Hseg) as Hcopy.
    set (p := fresh (dom (heap w))) in *.
    set (w1 := mkWorld _ _) in Hcopy.
    assert (Hpc : p <> c) by (apply (fresh_ne _ _ _ Hc)).
    assert (Hk1 : kept_except c (heap w) (heap w1)).
    { intros q o Hq Hlook. simpl. rewrite lookup_insert_ne by congruence.
      rewrite lookup_insert_ne; [exact Hlook|]. apply (fresh_ne _ _ _ Hlook). }
    assert (Hc1 : heap w1 !! c = Some (OHybrid (mkHybrid (len_c + iseg_length i)
                     (segs_c ++ [mkSegment (m_type seg) (Some p)]))))
      by apply lookup_insert_eq.
    assert (Hp1 : heap w1 !! p = Some (payload_of i)).
    { simpl. rewrite lookup_insert_ne by congruence. apply lookup_insert_eq. }
    destruct (IH isegs' w1 _ _ Hc1) as (w' & new_segs & Hloop & Hc' & Hnew & Hk & Hfresh & Hnd & Hcout).
    { eapply segs_are_kept; [|exact Hsegs].
      eapply kept_except_payloads; eassumption. }
    exists w', (mkSegment (m_type seg) (Some p) :: new_segs).
    split; [simpl; now rewrite (bind_Some _ _ _ _ _ Hcopy)|].
    split.
    { rewrite Hc'. simpl. rewrite <- app_assoc. simpl. do 3 f_equal. lia. }
    split.
    { constructor; [|exact Hnew].
      destruct (seg_is_ptr _ _ _ Hseg) as (_ & _ & _ & ->).
      apply seg_is_of_ptr. apply Hk; assumption. }
    split; [eapply kept_except_trans; eassumption|].
    split.
    { simpl. constructor; [apply fresh_lookup_None|].
      eapply Forall_impl; [exact Hfresh|]. intros q Hq. cbv beta in Hq |- *.
      destruct (heap w !! q) as [o|] eqn:E; [|reflexivity].
      rewrite (Hk1 q o) in Hq; [discriminate| |exact E].
      intros ->. rewrite Hc1 in Hq. discriminate. }
    split; [|simpl in Hcout; exact Hcout].
    simpl. constructor; [|exact Hnd].
    intros Hin. rewrite Forall_forall in Hfresh. specialize (Hfresh p Hin).
    congruence.
Qed.

Lemma seg_ptrs_elem hp segs isegs p :
  Forall2 (seg_is hp) segs isegs -> p ∈ seg_ptrs segs ->
  exists i, hp !! p = Some (payload_of i).
Proof.
  induction 1 as [|seg i segs isegs Hseg _ IH]; simpl.
  - intros H. now apply elem_of_nil in H.
  - destruct (seg_is_ptr _ _ _ Hseg) as (q & Hq & Hobj & _).
    unfold seg_ptrs. simpl. rewrite Hq. intros H.
    apply elem_of_cons in H as [->|H]; [now exists i|now apply IH].
Qed.

Lemma payload_of_not_hybrid i h : payload_of i <> OHybrid h.
Proof. now destruct i. Qed.

(** The segments denote the same in a heap that agrees on their payloads. *)
Lemma segs_are_ext hp hp' segs isegs :
  Forall2 (seg_is hp) segs isegs ->
  (forall p, p ∈ seg_ptrs segs -> hp' !! p = hp !! p) ->
  Forall2 (seg_is hp') segs isegs.
Proof.
  induction 1 as [|seg i segs isegs Hseg _ IH]; intros Hext; constructor.
  - destruct (seg_is_ptr _ _ _ Hseg) as (q & Hq & Hobj & Hty).
    destruct seg as [ty ptr]. simpl in *. subst ty ptr.
    apply seg_is_of_ptr. rewrite Hext; [exact Hobj|].
    unfold seg_ptrs. simpl. apply elem_of_cons. now left.
  - apply IH. intros p Hp. apply Hext.
    unfold seg_ptrs in *. simpl. destruct (m_segment seg); [|exact Hp].
    apply elem_of_cons. now right.
Qed.

Lemma HybridISet_copy_ctor_spec rhs segs_r isegs w :
  valid (heap w) rhs segs_r isegs ->
  exists c w1 new_segs,
    HybridISet_copy_ctor rhs w = Some (c, w1) /\
    heap w !! c = None /\
    heap w1 !! c = Some (OHybrid (mkHybrid (total_length isegs) new_segs)) /\
    Forall2 (seg_is (heap w1)) new_segs isegs /\
    (forall q o, heap w !! q = Some o -> heap w1 !! q = Some o) /\
    Forall (fun p => heap w !! p = None) (seg_ptrs new_segs) /\
    NoDup (seg_ptrs new_segs) /\
    cout w1 = cout w.
Proof.
  intros (Hrhs & Hsegs & _).
  set (c := fresh (dom (heap w))).
  set (w0 := mkWorld (<[c := OHybrid (mkHybrid 0 [])]> (heap w)) (cout w)).
  assert (Hfresh : heap w !! c = None) by apply fresh_lookup_None.
  assert (Hk0 : forall q o, heap w !! q = Some o -> heap w0 !! q = Some o).
  { intros q o Hq. simpl. rewrite lookup_insert_ne; [exact Hq|]. congruence. }
  assert (Hc0 : heap w0 !! c = Some (OHybrid (mkHybrid 0 []))) by apply lookup_insert_eq.
  destruct (copy_loop_spec c segs_r isegs w0 0 [] Hc0)
    as (w1 & new_segs & Hloop & Hc1 & Hnew & Hk & Hfr & Hnd & Hcout).
  { eapply segs_are_ext; [exact Hsegs|]. intros p Hp.
    destruct (seg_ptrs_elem _ _ _ _ Hsegs Hp) as [i Hi].
    rewrite Hi. now apply Hk0. }
  exists c, w1, new_segs.
  split.
  { unfold HybridISet_copy_ctor, bind at 1, new. fold c. fold w0.
    unfold copy. rewrite bind_assoc.
    rewrite (bind_Some _ _ _ _ _ (load_Hybrid_Some w0 rhs _ (Hk0 _ _ Hrhs))).
    simpl. now rewrite (bind_Some _ _ _ _ _ Hloop). }
  split; [exact Hfresh|].
  split; [now rewrite Z.add_0_l in Hc1|].
  split; [exact Hnew|].
  split.
  { intros q o Hq. apply Hk; [congruence|now apply Hk0]. }
  split.
  { eapply Forall_impl; [exact Hfr|]. intros p Hp. cbv beta in *.
    destruct (heap w !! p) as [o|] eqn:E; [|reflexivity].
    rewrite (Hk0 _ _ E) in Hp. discriminate. }
  split; [exact Hnd|exact Hcout].
Qed.

Lemma store_Some w p o o' :
  heap w !! p = Some o' ->
  store p o w = Some (tt, mkWorld (<[p := o]> (heap w)) (cout w)).
Proof. intros H. unfold store. now rewrite H. Qed.

Lemma swap_m_len_spec a b ha hb w :
  heap w !! a = Some (OHybrid ha) -> heap w !! b = Some (OHybrid hb) -> a <> b ->
  swap_m_len a b w =
  Some (tt, mkWorld (<[b := OHybrid (mkHybrid (m_len ha) (m_segments hb))]>
                       (<[a := OHybrid (mkHybrid (m_len hb) (m_segments ha))]> (heap w)))
                    (cout w)).
Proof.
  intros Ha Hb Hab. unfold swap_m_len.
  rewrite (bind_Some _ _ _ _ _ (load_Hybrid_Some _ _ _ Ha)).
  rewrite (bind_Some _ _ _ _ _ (load_Hybrid_Some _ _ _ Hb)).
  rewrite (bind_Some _ _ _ _ _ (store_Some w a _ _ Ha)).
  set (w1 := mkWorld _ _).
  assert (Hb1 : heap w1 !! b = Some (OHybrid hb))
    by (simpl; now rewrite lookup_insert_ne).
  rewrite (bind_Some _ _ _ _ _ (load_Hybrid_Some _ _ _ Hb1)).
  now rewrite (store_Some w1 b _ _ Hb1).
Qed.

Lemma swap_m_segments_spec a b ha hb w :
  heap w !! a = Some (OHybrid ha) -> heap w !! b = Some (OHybrid hb) -> a <> b ->
  swap_m_segments a b w =
  Some (tt, mkWorld (<[b := OHybrid (mkHybrid (m_len hb) (m_segments ha))]>
                       (<[a := OHybrid (mkHybrid (m_len ha) (m_segments hb))]> (heap w)))
                    (cout w)).
Proof.
  intros Ha Hb Hab. unfold swap_m_segments.
  rewrite (bind_Some _ _ _ _ _ (load_Hybrid_Some _ _ _ Ha)).
  rewrite (bind_Some _ _ _ _ _ (load_Hybrid_Some _ _ _ Hb)).
  rewrite (bind_Some _ _ _ _ _ (store_Some w a _ _ Ha)).
  set (w1 := mkWorld _ _).
  assert (Hb1 : heap w1 !! b = Some (OHybrid hb))
    by (simpl; now rewrite lookup_insert_ne).
  rewrite (bind_Some _ _ _ _ _ (load_Hybrid_Some _ _ _ Hb1)).
  now rewrite (store_Some w1 b _ _ Hb1).
Qed.

(** [swap] exchanges the two index sets, and touches nothing else. *)
Lemma swap_spec a b ha hb w :
  heap w !! a = Some (OHybrid ha) -> heap w !! b = Some (OHybrid hb) -> a <> b ->
  swap a b w =
  Some (tt, mkWorld (<[b := OHybrid ha]> (<[a := OHybrid hb]> (heap w))) (cout w)).
Proof.
  intros Ha Hb Hab. unfold swap.
  rewrite (bind_Some _ _ _ _ _ (swap_m_len_spec a b ha hb w Ha Hb Hab)).
  set (w1 := mkWorld _ _).
  assert (Ha1 : heap w1 !! a = Some (OHybrid (mkHybrid (m_len hb) (m_segments ha)))).
  { simpl. rewrite lookup_insert_ne by congruence. apply lookup_insert_eq. }
  assert (Hb1 : heap w1 !! b = Some (OHybrid (mkHybrid (m_len ha) (m_segments hb))))
    by apply lookup_insert_eq.
  rewrite (swap_m_segments_spec a b _ _ w1 Ha1 Hb1 Hab). simpl.
  destruct ha as [la sa], hb as [lb sb]. simpl.
  do 3 f_equal. apply map_eq. intros q.
  destruct (decide (q = b)) as [->|Hqb]; [|destruct (decide (q = a)) as [->|Hqa]];
    repeat first [rewrite lookup_insert_eq | rewrite lookup_insert_ne by congruence];
    reflexivity.
Qed.

(** The loop of the destructor releases every payload, and nothing else. *)
Lemma dtor_loop_spec segs : forall isegs w,
  Forall2 (seg_is (heap w)) segs isegs ->
  NoDup (seg_ptrs segs) ->
  exists w',
    for_segments dtor_segment segs w = Some (tt, w') /\
    (forall q, q ∉ seg_ptrs segs -> heap w' !! q = heap w !! q) /\
    Forall (fun p => heap w' !! p = None) (seg_ptrs segs) /\
    cout w' = cout w.
Proof.
  induction segs as [|seg segs IH]; intros isegs w Hsegs Hnd.
  - exists w. repeat split. constructor.
  - apply Forall2_cons_inv_l in Hsegs as (i & isegs' & Hseg & Hsegs & ->).
    destruct (seg_is_ptr _ _ _ Hseg) as (p & Hp & Hobj & Hty).
    unfold seg_ptrs in Hnd |- *. simpl in Hnd |- *. rewrite Hp in Hnd |- *.
    fold (seg_ptrs segs) in Hnd |- *.
    apply NoDup_cons in Hnd as [Hnotin Hnd].
    set (w1 := mkWorld (delete p (heap w)) (cout w)).
    assert (Hd : dtor_segment seg w = Some (tt, w1)).
    { unfold dtor_segment. rewrite Hty, Hp.
      destruct i as [r|u]; simpl in Hobj.
      - unfold delete_Range. rewrite (bind_Some _ _ _ _ _ (load_Range_Some _ _ _ Hobj)).
        unfold free. now rewrite Hobj.
      - unfold delete_Unstructured.
        rewrite (bind_Some _ _ _ _ _ (load_Unstructured_Some _ _ _ Hobj)).
        unfold free. now rewrite Hobj. }
    destruct (IH isegs' w1) as (w' & Hloop & Hout & Hin & Hcout); [|exact Hnd|].
    { eapply segs_are_ext; [exact Hsegs|]. intros q Hq. simpl.
      apply lookup_delete_ne. intros E. apply Hnotin. now rewrite E. }
    exists w'. split; [now rewrite (bind_Some _ _ _ _ _ Hd)|].
    split.
    { intros q Hq. apply not_elem_of_cons in Hq as [Hqp Hq].
      rewrite (Hout q Hq). simpl. now apply lookup_delete_ne. }
    split; [|exact Hcout].
    constructor; [|exact Hin].
    rewrite (Hout p Hnotin). simpl. apply lookup_delete_eq.
Qed.

(** C10: assigning an index set to itself changes nothing; for two
    distinct valid index sets that share no payload, assignment leaves the
    right-hand side as it is and makes the left-hand side a deep copy of it:
    the same segment kinds, bounds and indices, the same length, in payloads
    at addresses that were not in use before. *)
Theorem C10_assignment (this rhs : loc) (w : World)
  (segs_t segs_r : list Segment) (isegs_t isegs_r : list ISeg) :
  operator_assign this this w = Some (this, w) /\
  (this <> rhs ->
   valid (heap w) this segs_t isegs_t ->
   valid (heap w) rhs segs_r isegs_r ->
   Forall (fun p => p ∉ seg_ptrs segs_r) (seg_ptrs segs_t) ->
   exists w' new_segs,
     operator_assign this rhs w = Some (this, w') /\
     valid (heap w') rhs segs_r isegs_r /\
     valid (heap w') this new_segs isegs_r /\
     Forall (fun p => heap w !! p = None) (seg_ptrs new_segs) /\
     Forall (fun p => p ∉ seg_ptrs segs_r) (seg_ptrs new_segs) /\
     Forall (fun p => heap w' !! p = None) (seg_ptrs segs_t) /\
     cout w' = cout w).
Proof.
  split.
  { unfold operator_assign. rewrite decide_False; [reflexivity|].
    intros H. now apply H. }
  intros Hne (Ht & Htsegs & Htnd) Hvr Hdisj.
  destruct (HybridISet_copy_ctor_spec rhs segs_r isegs_r w Hvr)
    as (c & w1 & new_segs & Hcc & Hcfresh & Hc1 & Hnew & Hk1 & Hfr & Hnd & Hcout1).
  destruct Hvr as (Hr & Hrsegs & Hrnd).
  assert (Hct : c <> this) by congruence.
  assert (Hcr : c <> rhs) by congruence.
  (* pointers of the two sets point to payloads of the old heap *)
  assert (Hpt : forall p, p ∈ seg_ptrs segs_t ->
                          p <> c /\ p <> this /\ (heap w1 !! p = heap w !! p)).
  { intros p Hp. destruct (seg_ptrs_elem _ _ _ _ Htsegs Hp) as [i Hi].
    repeat split; try congruence.
    - intros ->. rewrite Ht in Hi. injection Hi as Hi.
      symmetry in Hi. now apply payload_of_not_hybrid in Hi.
    - rewrite Hi. now apply Hk1. }
  assert (Hpr : forall p, p ∈ seg_ptrs segs_r ->
                          p <> c /\ p <> this /\ (p ∉ seg_ptrs segs_t) /\
                          (heap w1 !! p = heap w !! p)).
  { intros p Hp. destruct (seg_ptrs_elem _ _ _ _ Hrsegs Hp) as [i Hi].
    repeat split; try congruence.
    - intros ->. rewrite Ht in Hi. injection Hi as Hi.
      symmetry in Hi. now apply payload_of_not_hybrid in Hi.
    - intros Hin. rewrite Forall_forall in Hdisj. now apply (Hdisj p Hin).
    - rewrite Hi. now apply Hk1. }
  assert (Hpn : forall p, p ∈ seg_ptrs new_segs ->
                          p <> c /\ p <> this /\ (p ∉ seg_ptrs segs_t) /\
                          p ∉ seg_ptrs segs_r).
  { intros p Hp. destruct (seg_ptrs_elem _ _ _ _ Hnew Hp) as [i Hi].
    rewrite Forall_forall in Hfr. specialize (Hfr p Hp). cbv beta in Hfr.
    repeat split.
    - intros ->. rewrite Hc1 in Hi. injection Hi as Hi.
      symmetry in Hi. now apply payload_of_not_hybrid in Hi.
    - congruence.
    - intros Hin. destruct (seg_ptrs_elem _ _ _ _ Htsegs Hin). congruence.
    - intros Hin. destruct (seg_ptrs_elem _ _ _ _ Hrsegs Hin). congruence. }
  (* swap *)
  pose proof (swap_spec this c _ _ w1 (Hk1 _ _ Ht) Hc1 ltac:(congruence)) as Hswap.
  set (w2 := mkWorld _ _) in Hswap.
  assert (Hc2 : heap w2 !! c = Some (OHybrid (mkHybrid (total_length isegs_t) segs_t)))
    by apply lookup_insert_eq.
  assert (Hk2 : forall q, q <> c -> q <> this -> heap w2 !! q = heap w1 !! q).
  { intros q Hqc Hqt. simpl. now rewrite !lookup_insert_ne by congruence. }
  assert (Ht2 : heap w2 !! this = Some (OHybrid (mkHybrid (total_length isegs_r) new_segs))).
  { simpl. rewrite lookup_insert_ne by congruence. apply lookup_insert_eq. }
  (* the destructor of the local copy *)
  destruct (dtor_loop_spec segs_t isegs_t w2) as (w3 & Hloop & Hout & Hin & Hcout3);
    [|exact Htnd|].
  { eapply segs_are_ext; [exact Htsegs|]. intros p Hp.
    destruct (Hpt p Hp) as (? & ? & <-). now apply Hk2. }
  assert (Hc3 : heap w3 !! c = Some (OHybrid (mkHybrid (total_length isegs_t) segs_t))).
  { rewrite Hout; [exact Hc2|]. intros Hp. now destruct (Hpt c Hp). }
  set (w4 := mkWorld (delete c (heap w3)) (cout w3)).
  assert (Hdestroy : destroy c w2 = Some (tt, w4)).
  { unfold destroy, HybridISet_dtor. rewrite bind_assoc.
    rewrite (bind_Some _ _ _ _ _ (load_Hybrid_Some _ _ _ Hc2)). simpl.
    rewrite (bind_Some _ _ _ _ _ Hloop). unfold free. now rewrite Hc3. }
  assert (Hk4 : forall q, q <> c -> q ∉ seg_ptrs segs_t -> heap w4 !! q = heap w2 !! q).
  { intros q Hqc Hq. simpl. rewrite lookup_delete_ne by congruence. now apply Hout. }
  exists w4, new_segs.
  split.
  { unfold operator_assign. rewrite decide_True by congruence.
    rewrite (bind_Some _ _ _ _ _ Hcc). rewrite (bind_Some _ _ _ _ _ Hswap).
    now rewrite (bind_Some _ _ _ _ _ Hdestroy). }
  split.
  { split; [|split; [|exact Hrnd]].
    - rewrite Hk4; [rewrite Hk2 by congruence; now apply Hk1|congruence|].
      intros Hp. destruct (seg_ptrs_elem _ _ _ _ Htsegs Hp) as [i Hi].
      rewrite Hr in Hi. injection Hi as Hi.
      symmetry in Hi. now apply payload_of_not_hybrid in Hi.
    - eapply segs_are_ext; [exact Hrsegs|]. intros p Hp.
      destruct (Hpr p Hp) as (? & ? & ? & <-).
      rewrite Hk4 by assumption. now apply Hk2. }
  split.
  { split; [|split; [|exact Hnd]].
    - rewrite Hk4; [exact Ht2|now apply not_eq_sym|].
      intros Hp. now destruct (Hpt this Hp) as (_ & ? & _).
    - eapply segs_are_ext; [exact Hnew|]. intros p Hp.
      destruct (Hpn p Hp) as (? & ? & ? & _).
      rewrite Hk4 by assumption. now apply Hk2. }
  split; [exact Hfr|].
  split.
  { apply Forall_forall. intros p Hp. now destruct (Hpn p Hp) as (_ & _ & _ & ?). }
  split; [|simpl; rewrite Hcout3; simpl; exact Hcout1].
  eapply Forall_impl; [exact Hin|]. intros p Hp. cbv beta in *. simpl.
  destruct (decide (p = c)) as [->|Hpc]; [apply lookup_delete_eq|].
  now rewrite lookup_delete_ne by congruence.
Qed.

(** Two index sets built from two arrays, and an assignment. *)
Example assign_example :
  fst <$> (let* a := buildHybridISet 4 2 (seqZ 0 16 ++ [100; 50]) 18 in
           let* b := buildHybridISet 4 2 [9; 4; 5; 6; 7; 8; 9; 3; 1] 9 in
           let* _ := operator_assign a b in
           let* ea := enumerate a in
           let* eb := enumerate b in
           let* la := getLength a in
           ret (ea, eb, la)) empty_world
  = Some ([9; 4; 5; 6; 7; 8; 9; 3; 1], [9; 4; 5; 6; 7; 8; 9; 3; 1], 9).
Proof. vm_compute. reflexivity. Qed.

(** ** Tree-merge reducers *)

Module OmpReduceFacts.
Import OmpReduce.

Lemma load_Some (h : gmap loc Reducer) p r : h !! p = Some r -> load p h = Some (r, h).
Proof. intros H. unfold load. now rewrite H. Qed.

Lemma load_inv (h h' : gmap loc Reducer) p r :
  load p h = Some (r, h') -> h' = h /\ h !! p = Some r.
Proof. unfold load. destruct (h !! p) eqn:E; [|discriminate]. now intros [= -> ->]. Qed.

Lemma store_reducer_Some (h : gmap loc Reducer) p r r' :
  h !! p = Some r' -> store p r h = Some (tt, <[p := r]> h).
Proof. intros H. unfold store. now rewrite H. Qed.

Lemma free_Some (h : gmap loc Reducer) p r :
  h !! p = Some r -> free p h = Some (tt, delete p h).
Proof. intros H. unfold free. now rewrite H. Qed.

Lemma fresh_None (h : gmap loc Reducer) : h !! fresh (dom h) = None.
Proof. apply not_elem_of_dom, is_fresh. Qed.

(** The copy constructor: the parent of the copy is the parent of the
    original when it has one, and the original otherwise. *)
Lemma copy_ctor_spec k other (h : gmap loc Reducer) o :
  h !! other = Some o ->
  copy_ctor k other h =
  Some (fresh (dom h),
        <[fresh (dom h) :=
            mkReducer (match m_parent o with Some p => Some p | None => Some other end)
                      (match k with RSum => m_custom_init o | _ => m_val o end)
                      (m_idx o) (m_custom_init o)]> h).
Proof.
  intros H. unfold copy_ctor. now rewrite (bind_Some _ _ _ _ _ (load_Some _ _ _ H)).
Qed.

Lemma update_spec k this rhs idx (h : gmap loc Reducer) r :
  h !! this = Some r ->
  update k this rhs idx h =
  Some (tt, <[this := mkReducer (m_parent r)
                        (fst (Reduce k (m_val r) (m_idx r) rhs idx))
                        (snd (Reduce k (m_val r) (m_idx r) rhs idx))
                        (m_custom_init r)]> h).
Proof.
  intros H. unfold update. rewrite (bind_Some _ _ _ _ _ (load_Some _ _ _ H)).
  destruct (Reduce k (m_val r) (m_idx r) rhs idx) as [val i]. simpl.
  now apply store_reducer_Some with r.
Qed.

(** The destructor of a reducer whose parent is [parent]: one fold, into
    the parent. *)
Lemma dtor_spec k this parent (h : gmap loc Reducer) r p :
  h !! this = Some r -> m_parent r = Some parent -> h !! parent = Some p ->
  this <> parent ->
  dtor k this h =
  Some (tt, delete this
              (<[parent := mkReducer (m_parent p)
                             (fst (Reduce k (m_val p) (m_idx p) (m_val r) (m_idx r)))
                             (snd (Reduce k (m_val p) (m_idx p) (m_val r) (m_idx r)))
                             (m_custom_init p)]> h)).
Proof.
  intros Hthis Hpar Hparent Hne. unfold dtor.
  rewrite (bind_Some _ _ _ _ _ (load_Some _ _ _ Hthis)). rewrite Hpar.
  rewrite bind_assoc. rewrite (bind_Some _ _ _ _ _ (load_Some _ _ _ Hparent)).
  destruct (Reduce k (m_val p) (m_idx p) (m_val r) (m_idx r)) as [val i]. simpl.
  rewrite (bind_Some _ _ _ _ _ (store_reducer_Some h parent _ _ Hparent)).
  apply free_Some with r. now rewrite lookup_insert_ne by congruence.
Qed.

Lemma ctor_spec init_val init_idx initializer (h : gmap loc Reducer) :
  ctor init_val init_idx initializer h =
  Some (fresh (dom h), <[fresh (dom h) := mkReducer None init_val init_idx initializer]> h).
Proof. reflexivity. Qed.

Lemma flat_ctor init_val init_idx initializer root h :
  ctor init_val init_idx initializer ∅ = Some (root, h) -> flat root h.
Proof.
  rewrite ctor_spec. intros [= <- <-]. split.
  - eexists. split; [apply lookup_insert_eq|reflexivity].
  - intros p r Hp Hne. rewrite lookup_insert_ne in Hp by congruence.
    now rewrite lookup_empty in Hp.
Qed.

(** A step of the region keeps the tree flat. *)
Lemma step_flat k root op (h h' : gmap loc Reducer) :
  flat root h -> is_destroy_of root op = false ->
  step k op h = Some (tt, h') -> flat root h'.
Proof.
  intros [(rr & Hroot & Hrp) Hflat] Hop Hstep.
  destruct op as [src|target rhs idx|target]; simpl in *.
  - (* Copy *)
    apply bind_inv in Hstep as (c & h1 & Hcopy & Hret). injection Hret as <-.
    destruct (h !! src) as [o|] eqn:Hsrc;
      [|unfold copy_ctor in Hcopy; rewrite bind_None in Hcopy;
        [discriminate|unfold load; now rewrite Hsrc]].
    rewrite (copy_ctor_spec k src h o Hsrc) in Hcopy. injection Hcopy as <- <-.
    assert (Hc : fresh (dom h) <> root).
    { intros E. pose proof (fresh_None h) as F. rewrite E in F. congruence. }
    split.
    + exists rr. split; [|exact Hrp]. now rewrite lookup_insert_ne.
    + intros p r Hp Hne. destruct (decide (p = fresh (dom h))) as [->|Hpc].
      * rewrite lookup_insert_eq in Hp. injection Hp as <-. simpl.
        destruct (decide (src = root)) as [->|Hsr].
        -- rewrite Hroot in Hsrc. injection Hsrc as <-. now rewrite Hrp.
        -- now rewrite (Hflat src o Hsrc Hsr).
      * rewrite lookup_insert_ne in Hp by congruence. now apply (Hflat p).
  - (* Update *)
    destruct (h !! target) as [o|] eqn:Ht;
      [|unfold update in Hstep; rewrite bind_None in Hstep;
        [discriminate|unfold load; now rewrite Ht]].
    rewrite (update_spec k target rhs idx h o Ht) in Hstep. injection Hstep as <-.
    split.
    + destruct (decide (target = root)) as [->|Hne].
      * eexists. split; [apply lookup_insert_eq|]. simpl. congruence.
      * exists rr. split; [|exact Hrp]. now rewrite lookup_insert_ne.
    + intros p r Hp Hne. destruct (decide (p = target)) as [->|Hpt].
      * rewrite lookup_insert_eq in Hp. injection Hp as <-. simpl. now apply (Hflat target).
      * rewrite lookup_insert_ne in Hp by congruence. now apply (Hflat p).
  - (* Destroy *)
    apply bool_decide_eq_false in Hop.
    destruct (h !! target) as [o|] eqn:Ht;
      [|unfold dtor in Hstep; rewrite bind_None in Hstep;
        [discriminate|unfold load; now rewrite Ht]].
    pose proof (Hflat target o Ht Hop) as Hpar.
    rewrite (dtor_spec k target root h o rr Ht Hpar Hroot Hop) in Hstep.
    injection Hstep as <-.
    split.
    + eexists. split.
      * rewrite lookup_delete_ne by congruence. apply lookup_insert_eq.
      * exact Hrp.
    + intros p r Hp Hne. destruct (decide (p = target)) as [->|Hpt].
      * now rewrite lookup_delete_eq in Hp.
      * rewrite lookup_delete_ne, lookup_insert_ne in Hp by congruence.
        now apply (Hflat p).
Qed.

(** A step on a live reducer is defined: a region goes wrong only by the
    use of a reducer that was destroyed. *)
Lemma step_defined k root op (h : gmap loc Reducer) :
  flat root h -> is_destroy_of root op = false ->
  is_Some (h !! match op with Copy p | Update p _ _ | Destroy p => p end) ->
  exists h', step k op h = Some (tt, h').
Proof.
  intros [(rr & Hroot & Hrp) Hflat] Hop [o Ho].
  destruct op as [src|target rhs idx|target]; simpl in *.
  - eexists. now rewrite (bind_Some _ _ _ _ _ (copy_ctor_spec k src h o Ho)).
  - eexists. apply (update_spec k target rhs idx h o Ho).
  - apply bool_decide_eq_false in Hop. eexists.
    apply (dtor_spec k target root h o rr Ho (Hflat target o Ho Hop) Hroot Hop).
Qed.

Lemma exec_flat k root ops : forall (h h' : gmap loc Reducer),
  flat root h -> root_outlives root ops = true ->
  exec k ops h = Some (tt, h') -> flat root h'.
Proof.
  induction ops as [|op ops IH]; intros h h' Hflat Hops Hexec.
  - now injection Hexec as <-.
  - simpl in Hops. apply andb_true_iff in Hops as [Hop Hops].
    apply negb_true_iff in Hop.
    simpl in Hexec. apply bind_inv in Hexec as ([] & h1 & Hstep & Hexec).
    eapply IH; [|exact Hops|exact Hexec].
    eapply step_flat; eassumption.
Qed.

(** C9: in a region that starts from a root constructed with its initial
    value, the parent chain stays flat for each of the five reducers: the
    root has no parent, the parent of every copy is the root however many
    generations of copies were made, a further copy of any reducer gets the
    root as its parent, and the destructor of a copy folds its value into
    the root in one step. *)
Theorem C9_parent_chain_is_flat (k : ReduceKind) (init_val : T)
  (init_idx : Index_type) (initializer : T) (ops : list Op) (root : loc)
  (h1 h2 : gmap loc Reducer) :
  ctor init_val init_idx initializer ∅ = Some (root, h1) ->
  root_outlives root ops = true ->
  exec k ops h1 = Some (tt, h2) ->
  flat root h2 /\
  (forall p r, h2 !! p = Some r ->
     exists c h3 r', copy_ctor k p h2 = Some (c, h3) /\
                     h3 !! c = Some r' /\ m_parent r' = Some root) /\
  (forall p r rr, h2 !! p = Some r -> p <> root -> h2 !! root = Some rr ->
     dtor k p h2 =
     Some (tt, delete p
                 (<[root := mkReducer None
                      (fst (Reduce k (m_val rr) (m_idx rr) (m_val r) (m_idx r)))
                      (snd (Reduce k (m_val rr) (m_idx rr) (m_val r) (m_idx r)))
                      (m_custom_init rr)]> h2))).
Proof.
  intros Hctor Hops Hexec.
  assert (Hflat : flat root h2).
  { eapply exec_flat; [|exact Hops|exact Hexec]. eapply flat_ctor; exact Hctor. }
  split; [exact Hflat|].
  destruct Hflat as [(rr & Hroot & Hrp) Hflat].
  split.
  - intros p r Hin.
    do 3 eexists. split; [apply (copy_ctor_spec k p h2 r Hin)|].
    split; [apply lookup_insert_eq|]. simpl.
    destruct (decide (p = root)) as [->|Hne].
    + rewrite Hroot in Hin. injection Hin as <-. now rewrite Hrp.
    + now rewrite (Hflat p r Hin Hne).
  - intros p r rr' Hin Hne Hroot'.
    rewrite Hroot in Hroot'. injection Hroot' as <-.
    rewrite (dtor_spec k p root h2 r rr Hin (Hflat p r Hin Hne) Hroot Hne).
    now rewrite Hrp.
Qed.

(** *** The sum reducer *)

Lemma total_insert_fresh (h : gmap loc Reducer) p r :
  h !! p = None -> total (<[p := r]> h) = m_val r + total h.
Proof.
  intros H. unfold total. rewrite map_fold_insert_L; [reflexivity| |exact H].
  intros. lia.
Qed.

Lemma total_delete (h : gmap loc Reducer) p r :
  h !! p = Some r -> total h = m_val r + total (delete p h).
Proof.
  intros H. unfold total. rewrite (map_fold_delete_L _ _ p r h); [reflexivity| |exact H].
  intros. lia.
Qed.

Lemma total_update (h : gmap loc Reducer) p r r' :
  h !! p = Some r -> total (<[p := r']> h) = total h - m_val r + m_val r'.
Proof.
  intros H. rewrite <- insert_delete_eq.
  rewrite total_insert_fresh by apply lookup_delete_eq.
  rewrite (total_delete h p r H). lia.
Qed.

Lemma total_only_root (h : gmap loc Reducer) root r :
  h !! root = Some r -> (forall p, p <> root -> h !! p = None) ->
  total h = m_val r.
Proof.
  intros Hroot Hnone.
  assert (E : h = <[root := r]> ∅).
  { apply map_eq. intros p. destruct (decide (p = root)) as [->|Hne].
    - now rewrite lookup_insert_eq.
    - rewrite lookup_insert_ne, lookup_empty by congruence. now apply Hnone. }
  rewrite E, total_insert_fresh by apply lookup_empty.
  unfold total. rewrite map_fold_empty. lia.
Qed.

(** A step of a region of the sum reducer: an update adds its value to
    the total, a copy its initializer, a destructor nothing. *)
Lemma step_total root initializer op (h h' : gmap loc Reducer) :
  flat root h ->
  (forall p r, h !! p = Some r -> m_custom_init r = initializer) ->
  is_destroy_of root op = false ->
  step RSum op h = Some (tt, h') ->
  (forall p r, h' !! p = Some r -> m_custom_init r = initializer) /\
  total h' = total h + sumZ (updates [op]) + initializer * copies [op].
Proof.
  intros [(rr & Hroot & Hrp) Hflat] Hinit Hop Hstep.
  destruct op as [src|target rhs idx|target]; simpl in *.
  - apply bind_inv in Hstep as (c & h1 & Hcopy & Hret). injection Hret as <-.
    destruct (h !! src) as [o|] eqn:Hsrc;
      [|unfold copy_ctor in Hcopy; rewrite bind_None in Hcopy;
        [discriminate|unfold load; now rewrite Hsrc]].
    rewrite (copy_ctor_spec RSum src h o Hsrc) in Hcopy. injection Hcopy as <- <-.
    split.
    + intros p r Hp. destruct (decide (p = fresh (dom h))) as [->|Hpc].
      * rewrite lookup_insert_eq in Hp. injection Hp as <-. simpl. now apply (Hinit src).
      * rewrite lookup_insert_ne in Hp by congruence. now apply (Hinit p).
    + rewrite total_insert_fresh by apply fresh_None. simpl.
      rewrite (Hinit src o Hsrc). lia.
  - destruct (h !! target) as [o|] eqn:Ht;
      [|unfold update in Hstep; rewrite bind_None in Hstep;
        [discriminate|unfold load; now rewrite Ht]].
    rewrite (update_spec RSum target rhs idx h o Ht) in Hstep. injection Hstep as <-.
    split.
    + intros p r Hp. destruct (decide (p = target)) as [->|Hpt].
      * rewrite lookup_insert_eq in Hp. injection Hp as <-. simpl. now apply (Hinit target).
      * rewrite lookup_insert_ne in Hp by congruence. now apply (Hinit p).
    + rewrite (total_update h target o _ Ht). simpl. lia.
  - apply bool_decide_eq_false in Hop.
    destruct (h !! target) as [o|] eqn:Ht;
      [|unfold dtor in Hstep; rewrite bind_None in Hstep;
        [discriminate|unfold load; now rewrite Ht]].
    pose proof (Hflat target o Ht Hop) as Hpar.
    rewrite (dtor_spec RSum target root h o rr Ht Hpar Hroot Hop) in Hstep.
    injection Hstep as <-.
    split.
    + intros p r Hp. destruct (decide (p = target)) as [->|Hpt].
      * now rewrite lookup_delete_eq in Hp.
      * rewrite lookup_delete_ne in Hp by congruence.
        destruct (decide (p = root)) as [->|Hpr].
        -- rewrite lookup_insert_eq in Hp. injection Hp as <-. simpl. now apply (Hinit root).
        -- rewrite lookup_insert_ne in Hp by congruence. now apply (Hinit p).
    + set (rr' := mkReducer _ _ _ _).
      assert (Ht' : <[root := rr']> h !! target = Some o)
        by now rewrite lookup_insert_ne by congruence.
      pose proof (total_delete _ _ _ Ht') as Hd.
      rewrite (total_update h root rr rr' Hroot) in Hd. subst rr'. simpl in Hd. lia.
Qed.

Lemma updates_cons op ops : sumZ (updates (op :: ops)) = sumZ (updates [op]) + sumZ (updates ops).
Proof. destruct op; simpl; lia. Qed.

Lemma copies_cons op ops : copies (op :: ops) = copies [op] + copies ops.
Proof. destruct op; simpl; lia. Qed.

Lemma exec_total root initializer ops : forall (h h' : gmap loc Reducer),
  flat root h ->
  (forall p r, h !! p = Some r -> m_custom_init r = initializer) ->
  root_outlives root ops = true ->
  exec RSum ops h = Some (tt, h') ->
  total h' = total h + sumZ (updates ops) + initializer * copies ops.
Proof.
  induction ops as [|op ops IH]; intros h h' Hflat Hinit Hops Hexec.
  - injection Hexec as <-. simpl. lia.
  - simpl in Hops. apply andb_true_iff in Hops as [Hop Hops].
    apply negb_true_iff in Hop.
    simpl in Hexec. apply bind_inv in Hexec as ([] & h1 & Hstep & Hexec).
    destruct (step_total root initializer op h h1 Hflat Hinit Hop Hstep) as [Hinit1 Htot1].
    rewrite (IH h1 h' (step_flat RSum root op h h1 Hflat Hop Hstep) Hinit1 Hops Hexec).
    rewrite (updates_cons op ops), (copies_cons op ops), Htot1. lia.
Qed.

(** With an initializer other than the default [T()], every copy brings
    the initializer into the result once more. *)
Lemma sum_region_general (init_val initializer : T) (ops : list Op) (root : loc)
  (h1 h2 : gmap loc Reducer) :
  ctor init_val 0 initializer ∅ = Some (root, h1) ->
  root_outlives root ops = true ->
  exec RSum ops h1 = Some (tt, h2) ->
  (forall p, p <> root -> h2 !! p = None) ->
  get root h2 =
  Some (init_val + sumZ (updates ops) + initializer * copies ops, h2).
Proof.
  intros Hctor Hops Hexec Hnone.
  pose proof (flat_ctor _ _ _ _ _ Hctor) as Hflat1.
  pose proof (exec_flat RSum root ops h1 h2 Hflat1 Hops Hexec) as [(rr & Hroot & _) _].
  assert (Htot : total h2 = total h1 + sumZ (updates ops) + initializer * copies ops).
  { apply (exec_total root initializer ops h1 h2 Hflat1); [|exact Hops|exact Hexec].
    rewrite ctor_spec in Hctor. injection Hctor as <- <-.
    intros p r Hp. destruct (decide (p = fresh (dom (∅ : gmap loc Reducer)))) as [->|Hne].
    - rewrite lookup_insert_eq in Hp. now injection Hp as <-.
    - rewrite lookup_insert_ne, lookup_empty in Hp by congruence. discriminate. }
  rewrite (total_only_root h2 root rr Hroot Hnone) in Htot.
  assert (Htot1 : total h1 = init_val).
  { rewrite ctor_spec in Hctor. injection Hctor as <- <-.
    rewrite total_insert_fresh by apply lookup_empty.
    unfold total. rewrite map_fold_empty. simpl. lia. }
  unfold get. rewrite (bind_Some _ _ _ _ _ (load_Some _ _ _ Hroot)).
  unfold ret. do 2 f_equal. lia.
Qed.

End OmpReduceFacts.

(** ** Slot-pool reducers *)

Lemma better_refl k a : k <> RSum -> better k a a.
Proof. destruct k; simpl; intros; lia || congruence. Qed.

Lemma better_trans k a b c : better k a b -> better k b c -> better k a c.
Proof. destruct k; simpl; lia. Qed.

Lemma Reduce_better_l k val idx v l :
  k <> RSum -> better k (fst (Reduce k val idx v l)) val.
Proof.
  intros Hk. destruct k; simpl; try congruence;
    match goal with |- context [?a <? ?b] => destruct (Z.ltb_spec a b) end;
    simpl; lia.
Qed.

Lemma Reduce_better_r k val idx v l :
  k <> RSum -> better k (fst (Reduce k val idx v l)) v.
Proof.
  intros Hk. destruct k; simpl; try congruence;
    match goal with |- context [?a <? ?b] => destruct (Z.ltb_spec a b) end;
    simpl; lia.
Qed.

(** A value that does not improve on the accumulator leaves it, and its
    location, as they are. *)
Lemma Reduce_stable k val idx v l :
  better k val v -> Reduce k val idx v l = (val, idx).
Proof.
  destruct k; simpl; intros H; try contradiction;
    match goal with |- context [?a <? ?b] => destruct (Z.ltb_spec a b) end;
    try reflexivity; lia.
Qed.

Module OmpReduceOrderedFacts.
Import OmpReduceOrdered.

Lemma read_slot_Some block i st b v :
  blocks st !! block = Some b -> b !! i = Some v ->
  read_slot block i st = Some (v, st).
Proof. intros Hb Hv. unfold read_slot. now rewrite Hb, Hv. Qed.

Lemma set_reduced_spec val idx st :
  set_reduced val idx st = Some (tt, with_reduced st val idx).
Proof. reflexivity. Qed.

Lemma with_reduced_id st :
  with_reduced st (m_reduced_val (this st)) (m_reduced_idx (this st)) = st.
Proof. now destruct st as [bl []]. Qed.

(** The read of the location that goes with slot [i]. *)
Lemma read_loc_Some k i nthreads st :
  slots_ok k nthreads st -> (i < nthreads)%nat ->
  exists l,
    match k with
    | RMinLoc | RMaxLoc => read_slot (m_idxdata (this st)) i
    | _ => ret (m_reduced_idx (this st))
    end st = Some (l, st).
Proof.
  intros [_ Hidx] Hi.
  destruct k; try (eexists; reflexivity);
    destruct Hidx as (bi & Hbi & Hlen);
    (destruct (lookup_lt_is_Some_2 bi i) as [l Hl]; [lia|]);
    exists l; now apply read_slot_Some with bi.
Qed.

(** The loop over the slots of [get()], for min and max: its result is at
    least as good as the accumulator it started from and as every slot it
    read; an accumulator that is already that good is left as it is. *)
Lemma fold_slots_spec k nthreads b n : forall i st,
  k <> RSum ->
  slots_ok k nthreads st ->
  blocks st !! m_blockdata (this st) = Some b ->
  (i + n <= nthreads)%nat ->
  exists val idx,
    fold_slots k n i st = Some (tt, with_reduced st val idx) /\
    better k val (m_reduced_val (this st)) /\
    (forall j (v : Z), (i <= j < i + n)%nat -> b !! j = Some v -> better k val v) /\
    ((forall j (v : Z), (i <= j < i + n)%nat -> b !! j = Some v ->
                  better k (m_reduced_val (this st)) v) ->
     val = m_reduced_val (this st) /\ idx = m_reduced_idx (this st)).
Proof.
  induction n as [|n IH]; intros i st Hk Hok Hb Hin.
  - exists (m_reduced_val (this st)), (m_reduced_idx (this st)).
    simpl. rewrite with_reduced_id.
    split; [reflexivity|]. split; [now apply better_refl|].
    split; [intros; lia|now intros].
  - destruct Hok as [(b' & Hb' & Hlen) Hidx]. rewrite Hb in Hb'. injection Hb' as <-.
    destruct (lookup_lt_is_Some_2 b i) as [v Hv]; [lia|].
    destruct (read_loc_Some k i nthreads st) as [l Hl];
      [split; [now exists b|exact Hidx]|lia|].
    set (val1 := fst (Reduce k (m_reduced_val (this st)) (m_reduced_idx (this st)) v l)).
    set (idx1 := snd (Reduce k (m_reduced_val (this st)) (m_reduced_idx (this st)) v l)).
    destruct (IH (S i) (with_reduced st val1 idx1) Hk) as (val & idx & Hfold & Hb1 & Hall & Hst);
      [split; [now exists b|exact Hidx]|exact Hb|lia|].
    exists val, idx. split; [|split; [|split]].
    + simpl. unfold get_this. unfold bind at 1.
      rewrite (bind_Some _ _ _ _ _ (read_slot_Some _ _ _ _ _ Hb Hv)).
      rewrite (bind_Some _ _ _ _ _ Hl).
      fold val1 idx1.
      rewrite (surjective_pairing (Reduce k _ _ v l)). fold val1 idx1.
      rewrite (bind_Some _ _ _ _ _ (set_reduced_spec val1 idx1 st)).
      exact Hfold.
    + eapply better_trans; [exact Hb1|]. apply Reduce_better_l. exact Hk.
    + intros j w Hj Hw. destruct (decide (j = i)) as [E|Hne].
      * rewrite E, Hv in Hw. injection Hw as <-.
        eapply better_trans; [exact Hb1|]. apply Reduce_better_r. exact Hk.
      * apply (Hall j w); [lia|exact Hw].
    + intros Hgood.
      assert (E : Reduce k (m_reduced_val (this st)) (m_reduced_idx (this st)) v l
                  = (m_reduced_val (this st), m_reduced_idx (this st))).
      { apply Reduce_stable. apply (Hgood i v); [lia|exact Hv]. }
      subst val1 idx1. rewrite E in *. simpl in *.
      apply Hst. intros j w Hj Hw. apply (Hgood j w); [lia|exact Hw].
Qed.

(** The loop over the slots of [get()] of the sum reducer. *)
Lemma sum_slots_spec b n : forall i tmp st,
  blocks st !! m_blockdata (this st) = Some b ->
  (i + n <= length b)%nat ->
  sum_slots n i tmp st = Some (tmp + sumZ (take n (drop i b)), st).
Proof.
  induction n as [|n IH]; intros i tmp st Hb Hin.
  - simpl. unfold ret. now rewrite Z.add_0_r.
  - destruct (lookup_lt_is_Some_2 b i) as [v Hv]; [lia|].
    simpl. unfold get_this. unfold bind at 1.
    rewrite (bind_Some _ _ _ _ _ (read_slot_Some _ _ _ _ _ Hb Hv)).
    rewrite (IH (S i) (tmp + v) st Hb) by lia.
    rewrite (drop_S b v i Hv). simpl. do 2 f_equal. lia.
Qed.

(** [get()] twice in succession: the same value, and the slots as they
    were. *)
Lemma get_twice k nthreads st :
  slots_ok k nthreads st ->
  exists v st1,
    get k nthreads st = Some (v, st1) /\
    get k nthreads st1 = Some (v, st1) /\
    blocks st1 = blocks st.
Proof.
  intros Hok. pose proof Hok as [(b & Hb & Hlen) Hidx].
  assert (Hcase : k = RSum \/ k <> RSum)
    by (destruct k; (now left) || (now right)).
  destruct Hcase as [->|Hk].
  - set (v := m_init_val (this st) + (0 + sumZ (take nthreads (drop 0 b)))).
    exists v, (with_reduced st v (m_reduced_idx (this st))).
    assert (Hget : forall st', blocks st' = blocks st ->
               m_blockdata (this st') = m_blockdata (this st) ->
               m_init_val (this st') = m_init_val (this st) ->
               get RSum nthreads st' = Some (v, with_reduced st' v (m_reduced_idx (this st')))).
    { intros st' Hbl Hbd Hiv. unfold get.
      rewrite (bind_Some _ _ _ _ _ (sum_slots_spec b nthreads 0 0 st'
                 ltac:(now rewrite Hbl, Hbd) ltac:(lia))).
      unfold get_this. unfold bind at 1. rewrite Hiv. fold v.
      rewrite (bind_Some _ _ _ _ _ (set_reduced_spec v _ st')).
      reflexivity. }
    split; [now apply Hget|]. split; [|reflexivity].
    now rewrite (Hget (with_reduced st v (m_reduced_idx (this st)))).
  - destruct (fold_slots_spec k nthreads b nthreads 0 st Hk Hok Hb ltac:(lia))
      as (val & idx & Hfold & _ & Hall & _).
    exists val, (with_reduced st val idx).
    assert (Hget : forall st' val' idx',
               fold_slots k nthreads 0 st' = Some (tt, with_reduced st' val' idx') ->
               get k nthreads st' = Some (val', with_reduced st' val' idx')).
    { intros st' val' idx' H. unfold get.
      destruct k; try congruence; now rewrite (bind_Some _ _ _ _ _ H). }
    split; [now apply Hget|]. split; [|reflexivity].
    destruct (fold_slots_spec k nthreads b nthreads 0 (with_reduced st val idx) Hk)
      as (val2 & idx2 & Hfold2 & _ & _ & Hstable); [|exact Hb|lia|].
    { split; [now exists b|exact Hidx]. }
    destruct Hstable as [-> ->].
    { intros j v Hj Hv. simpl. apply (Hall j v); [lia|exact Hv]. }
    rewrite (Hget (with_reduced st val idx) val idx); [reflexivity|exact Hfold2].
Qed.

(** The state a constructor leaves has its slots, and an update keeps
    them. *)
Lemma ctor_slots_ok k nthreads id blockdata idxdata init_val init_loc :
  slots_ok k nthreads (ctor k nthreads id blockdata idxdata init_val init_loc).
Proof.
  split.
  - simpl. destruct (decide (idxdata = blockdata)) as [->|Hne].
    + eexists. split; [apply lookup_insert_eq|]. now rewrite length_replicate.
    + eexists. split; [rewrite lookup_insert_ne by exact Hne; apply lookup_insert_eq|].
      now rewrite length_replicate.
  - destruct k; try exact I; simpl;
      (eexists; split; [apply lookup_insert_eq|now rewrite length_replicate]).
Qed.

Lemma write_slot_slots_ok k nthreads block i v st st' :
  slots_ok k nthreads st ->
  write_slot block i v st = Some (tt, st') ->
  slots_ok k nthreads st'.
Proof.
  intros Hok. unfold write_slot.
  destruct (blocks st !! block) as [b|] eqn:Hb; [|discriminate].
  destruct (decide (i < length b)%nat); [|discriminate].
  intros [= <-]. simpl.
  assert (H : forall q c, blocks st !! q = Some c -> (nthreads <= length c)%nat ->
              exists c', <[block := <[i := v]> b]> (blocks st) !! q = Some c' /\
                         (nthreads <= length c')%nat).
  { intros q c Hq Hlen. destruct (decide (q = block)) as [->|Hne].
    - rewrite Hb in Hq. injection Hq as <-. eexists.
      split; [apply lookup_insert_eq|]. now rewrite length_insert.
    - exists c. split; [now rewrite lookup_insert_ne|exact Hlen]. }
  destruct Hok as [(b0 & Hb0 & Hl0) Hidx]. split.
  - now apply (H _ b0).
  - destruct k; try exact I; destruct Hidx as (bi & Hbi & Hli); now apply (H _ bi).
Qed.

End OmpReduceOrderedFacts.

(** C5: for each of the five reducers, in both flavors, [get()] called
    twice in succession returns the same value both times.  The tree-merge
    [get()] returns [m_val] and changes nothing; the slot-pool [get()] folds
    the slots into the accumulator of the instance again, reads them without
    a write, and a second call leaves even the accumulator as the first call
    left it. *)
Theorem C5_get_is_idempotent (k : ReduceKind) (nthreads : nat) (this : loc)
  (h : gmap loc OmpReduce.Reducer) (r : OmpReduce.Reducer)
  (st : OmpReduceOrdered.State) :
  h !! this = Some r ->
  slots_ok k nthreads st ->
  (let* a := OmpReduce.get this in
   let* b := OmpReduce.get this in
   ret (a, b)) h = Some ((OmpReduce.m_val r, OmpReduce.m_val r), h)
  /\
  exists v st1,
    OmpReduceOrdered.get k nthreads st = Some (v, st1) /\
    OmpReduceOrdered.get k nthreads st1 = Some (v, st1) /\
    OmpReduceOrdered.blocks st1 = OmpReduceOrdered.blocks st.
Proof.
  intros Hthis Hok. split.
  - assert (Hget : OmpReduce.get this h = Some (OmpReduce.m_val r, h)).
    { unfold OmpReduce.get, OmpReduce.load, bind, ret. now rewrite Hthis. }
    now rewrite !(bind_Some _ _ _ _ _ Hget).
  - now apply OmpReduceOrderedFacts.get_twice.
Qed.

(** ** Instances *)

Lemma C3_length_preserved_witness :
  exists hindex w',
    buildHybridISet 4 32 (seqZ 0 40 ++ [7; 5] ++ seqZ 64 8) 50 empty_world
      = Some (hindex, w') /\
    getLength hindex w' = Some (50, w').
Proof.
  apply (C3_length_preserved 4 32 ltac:(lia) (seqZ 0 40 ++ [7; 5] ++ seqZ 64 8) empty_world).
  lia.
Defined.

Lemma C6_empty_input_one_empty_segment_witness :
  exists hindex w',
    buildHybridISet 4 32 [] 0 empty_world = Some (hindex, w') /\
    getLength hindex w' = Some (0, w') /\
    getNumSegments hindex w' = Some (1, w') /\
    represents (heap w') hindex 0 [IList (mkUnstructured [] 0)] /\
    enumerate hindex w' = Some ([], w').
Proof.
  apply (C6_empty_input_one_empty_segment 4 32 [] empty_world). lia.
Defined.

Lemma C7_ranges_are_aligned_runs_witness :
  exists hindex w' isegs,
    buildHybridISet 4 32 (seqZ 0 40 ++ [7; 5] ++ seqZ 64 8) 50 empty_world
      = Some (hindex, w') /\
    represents (heap w') hindex 50 isegs /\
    Forall (range_ok 4 (seqZ 0 40 ++ [7; 5] ++ seqZ 64 8)) isegs.
Proof.
  apply (C7_ranges_are_aligned_runs 4 32 ltac:(lia)
           (seqZ 0 40 ++ [7; 5] ++ seqZ 64 8) empty_world).
  lia.
Defined.

(** What the builder returns on that array: two Range segments around a
    List segment. *)
Example build_example :
  fst <$> (let* hindex := buildHybridISet 4 32 (seqZ 0 40 ++ [7; 5] ++ seqZ 64 8) 50 in
           print hindex) empty_world
  = Some [Str "HYBRID INDEX SET : "; Num 50; Str " length..."; Endl;
          Num 3; Str " segments..."; Endl;
          PrintRange (mkRange 0 40);
          PrintUnstructured (mkUnstructured [7; 5] 2);
          PrintRange (mkRange 64 72)].
Proof. vm_compute. reflexivity. Qed.

(** The destructor and [print] on that index set: the Range segment is
    released and printed, the segment of unknown kind is reported. *)
Example unknown_example :
  (let* os := print 1%positive in
   let* _ := HybridISet_dtor 1%positive in
   ret os) unknown_world
  = Some ([Str "HYBRID INDEX SET : "; Num 4; Str " length..."; Endl;
           Num 3; Str " segments..."; Endl;
           PrintRange (mkRange 0 4);
           Str "HybridISet print: case not implemented!!\n";
           Str "_Range_ is null"; Endl],
          mkWorld (<[1%positive := OHybrid (mkHybrid 4 [mkSegment _Range_ (Some 2%positive);
                                                        mkSegment _Unknown_ (Some 9%positive);
                                                        mkSegment _Range_ None])]> ∅)
                  [Str "\t HybridISet dtor: case not implemented!!\n"]).
Proof. vm_compute. reflexivity. Qed.

Lemma C10_assignment_witness :
  operator_assign 1%positive 1%positive two_sets = Some (1%positive, two_sets) /\
  exists w' new_segs,
    operator_assign 1%positive 3%positive two_sets = Some (1%positive, w') /\
    valid (heap w') 3%positive [mkSegment _Unstructured_ (Some 4%positive)]
          [IList (mkUnstructured [7; 9] 2)] /\
    valid (heap w') 1%positive new_segs [IList (mkUnstructured [7; 9] 2)] /\
    Forall (fun p => heap two_sets !! p = None) (seg_ptrs new_segs) /\
    Forall (fun p => p ∉ seg_ptrs [mkSegment _Unstructured_ (Some 4%positive)])
           (seg_ptrs new_segs) /\
    Forall (fun p => heap w' !! p = None) (seg_ptrs [mkSegment _Range_ (Some 2%positive)]) /\
    cout w' = cout two_sets.
Proof.
  pose proof (C10_assignment 1%positive 3%positive two_sets
                [mkSegment _Range_ (Some 2%positive)]
                [mkSegment _Unstructured_ (Some 4%positive)]
                [IRange (mkRange 0 4)] [IList (mkUnstructured [7; 9] 2)]) as [Hself Hassign].
  split; [exact Hself|].
  apply Hassign.
  - discriminate.
  - split; [reflexivity|]. split; [now repeat constructor|].
    apply NoDup_singleton.
  - split; [reflexivity|]. split; [now repeat constructor|].
    apply NoDup_singleton.
  - repeat constructor. intros H. apply list_elem_of_singleton in H. discriminate.
Defined.

Lemma C9_parent_chain_is_flat_witness :
  flat 1%positive region_h2 /\
  (forall p r, region_h2 !! p = Some r ->
     exists c h3 r', OmpReduce.copy_ctor RSum p region_h2 = Some (c, h3) /\
                     h3 !! c = Some r' /\ OmpReduce.m_parent r' = Some 1%positive) /\
  (forall p r rr, region_h2 !! p = Some r -> p <> 1%positive ->
     region_h2 !! 1%positive = Some rr ->
     OmpReduce.dtor RSum p region_h2 =
     Some (tt, delete p
                 (<[1%positive := OmpReduce.mkReducer None
                      (fst (Reduce RSum (OmpReduce.m_val rr) (OmpReduce.m_idx rr) (OmpReduce.m_val r) (OmpReduce.m_idx r)))
                      (snd (Reduce RSum (OmpReduce.m_val rr) (OmpReduce.m_idx rr) (OmpReduce.m_val r) (OmpReduce.m_idx r)))
                      (OmpReduce.m_custom_init rr)]> region_h2))).
Proof.
  apply (OmpReduceFacts.C9_parent_chain_is_flat RSum 10 0 0 (take 7 region) 1%positive
           (<[1%positive := OmpReduce.mkReducer None 10 0 0]> ∅) region_h2).
  - reflexivity.
  - reflexivity.
  - vm_compute. reflexivity.
Defined.

Lemma C5_get_is_idempotent_witness :
  (let* a := OmpReduce.get 1%positive in
   let* b := OmpReduce.get 1%positive in
   ret (a, b)) region_h2 = Some ((17, 17), region_h2)
  /\
  exists v st1,
    OmpReduceOrdered.get RMinLoc 4 pool_state = Some (v, st1) /\
    OmpReduceOrdered.get RMinLoc 4 st1 = Some (v, st1) /\
    OmpReduceOrdered.blocks st1 = OmpReduceOrdered.blocks pool_state.
Proof.
  apply (C5_get_is_idempotent RMinLoc 4 1%positive region_h2 (OmpReduce.mkReducer None 17 0 0) pool_state).
  - reflexivity.
  - apply OmpReduceOrderedFacts.ctor_slots_ok.
Defined.

(** Updates by three threads, then [get()] twice and [getLoc()]. *)
Example pool_example :
  fst <$> (let* _ := OmpReduceOrdered.updates RMinLoc
                       [(0%nat, 7, 70); (2%nat, 3, 30); (1%nat, 3, 10); (2%nat, 9, 90)] in
           let* a := OmpReduceOrdered.get RMinLoc 4 in
           let* b := OmpReduceOrdered.get RMinLoc 4 in
           let* l := OmpReduceOrdered.getLoc RMinLoc 4 in
           ret (a, b, l)) pool_state
  = Some (3, 3, 10).
Proof. vm_compute. reflexivity. Qed.

Example pool_sum_example :
  fst <$> (let* _ := OmpReduceOrdered.updates RSum
                       [(0%nat, 7, 0); (2%nat, 3, 0); (1%nat, 3, 0); (2%nat, 9, 0)] in
           let* a := OmpReduceOrdered.get RSum 4 in
           let* b := OmpReduceOrdered.get RSum 4 in
           ret (a, b)) (OmpReduceOrdered.ctor RSum 4 0 1%positive 2%positive 100 0)
  = Some (122, 122).
Proof. vm_compute. reflexivity. Qed.

(** * Further properties *)

(** ** More on the container *)

Lemma total_length_snoc isegs i :
  total_length (isegs ++ [i]) = total_length isegs + iseg_length i.
Proof.
  unfold total_length. induction isegs as [|j isegs IH]; simpl; [lia|].
  rewrite IH. lia.
Qed.

Lemma seg_ptrs_snoc segs seg :
  seg_ptrs (segs ++ [seg]) = seg_ptrs segs ++ seg_ptrs [seg].
Proof. unfold seg_ptrs. apply omap_app. Qed.

(** Pushing a segment with a fresh payload keeps an index set valid. *)
Lemma valid_push hp this segs isegs i :
  valid hp this segs isegs ->
  valid (<[this := OHybrid (mkHybrid (total_length isegs + iseg_length i)
                    (segs ++ [mkSegment
                                (match i with IRange _ => _Range_ | IList _ => _Unstructured_ end)
                                (Some (fresh (dom hp)))]))]>
           (<[fresh (dom hp) := payload_of i]> hp))
        this
        (segs ++ [mkSegment (match i with IRange _ => _Range_ | IList _ => _Unstructured_ end)
                            (Some (fresh (dom hp)))])
        (isegs ++ [i]).
Proof.
  intros (Hthis & Hsegs & Hnd).
  assert (Hne : fresh (dom hp) <> this) by apply (fresh_ne _ _ _ Hthis).
  split; [|split].
  - rewrite lookup_insert_eq, total_length_snoc. reflexivity.
  - apply Forall2_app.
    + eapply segs_are_ext; [exact Hsegs|]. intros p Hp.
      destruct (seg_ptrs_elem _ _ _ _ Hsegs Hp) as [j Hj].
      rewrite lookup_insert_ne.
      * rewrite lookup_insert_ne; [reflexivity|]. apply (fresh_ne _ _ _ Hj).
      * intros <-. rewrite Hthis in Hj. injection Hj as Hj.
        symmetry in Hj. now apply payload_of_not_hybrid in Hj.
    + constructor; [|constructor]. apply seg_is_of_ptr.
      rewrite lookup_insert_ne by (intros E; now apply Hne).
      apply lookup_insert_eq.
  - rewrite seg_ptrs_snoc. apply NoDup_app. split; [exact Hnd|]. split.
    + intros p Hp Hin. unfold seg_ptrs in Hin. simpl in Hin.
      apply list_elem_of_singleton in Hin. subst p.
      destruct (seg_ptrs_elem _ _ _ _ Hsegs Hp) as [j Hj].
      now apply (fresh_ne _ _ _ Hj).
    + apply NoDup_singleton.
Qed.

(** X1: every operation that adds a segment keeps an index set valid: the
    new segment is appended behind the others with a payload of its own at
    an address that was not in use, and the cached length stays the total
    of the segment lengths. *)
Theorem X1_add_keeps_valid (this : loc) (w : World) (segs : list Segment)
  (isegs : list ISeg) :
  valid (heap w) this segs isegs ->
  (forall b e, exists w' segs',
      addRangeIndices this b e w = Some (tt, w') /\
      valid (heap w') this segs' (isegs ++ [IRange (mkRange b e)]) /\
      getLength this w' = Some (total_length isegs + (e - b), w')) /\
  (forall indx n, 0 <= n <= Z.of_nat (length indx) -> exists w' segs',
      addUnstructuredIndices this indx n w = Some (tt, w') /\
      valid (heap w') this segs'
            (isegs ++ [IList (mkUnstructured (take (Z.to_nat n) indx) n)]) /\
      getLength this w' = Some (total_length isegs + n, w')) /\
  (forall p r, heap w !! p = Some (ORange r) -> exists w' segs',
      addISet_Range this p w = Some (tt, w') /\
      valid (heap w') this segs' (isegs ++ [IRange r]) /\
      heap w' !! p = Some (ORange r)) /\
  (forall p u, heap w !! p = Some (OUnstructured u) -> exists w' segs',
      addISet_Unstructured this p w = Some (tt, w') /\
      valid (heap w') this segs' (isegs ++ [IList u]) /\
      heap w' !! p = Some (OUnstructured u)).
Proof.
  intros Hv. pose proof Hv as (Hthis & _ & _).
  assert (Hlen : forall i w',
             heap w' = <[this := OHybrid (mkHybrid (total_length isegs + iseg_length i)
                           (segs ++ [mkSegment
                              (match i with IRange _ => _Range_ | IList _ => _Unstructured_ end)
                              (Some (fresh (dom (heap w))))]))]>
                         (<[fresh (dom (heap w)) := payload_of i]> (heap w)) ->
             getLength this w' = Some (total_length isegs + iseg_length i, w')).
  { intros i w' E. unfold getLength.
    rewrite (bind_Some _ _ _ _ _ (load_Hybrid_Some w' this _
               ltac:(rewrite E; apply lookup_insert_eq))).
    reflexivity. }
  split; [|split; [|split]].
  - intros b e. do 2 eexists. split; [|split].
    + unfold addRangeIndices. apply (new_push_segment w this _ _ _ _ Hthis).
    + apply (valid_push (heap w) this segs isegs (IRange (mkRange b e)) Hv).
    + now apply (Hlen (IRange (mkRange b e))).
  - intros indx n Hn. do 2 eexists. split; [|split].
    + unfold addUnstructuredIndices, UnstructuredISet_ctor.
      rewrite decide_True by exact Hn. unfold bind at 1. unfold ret at 1.
      apply (new_push_segment w this _ _ _ _ Hthis).
    + apply (valid_push (heap w) this segs isegs
               (IList (mkUnstructured (take (Z.to_nat n) indx) n)) Hv).
    + now apply (Hlen (IList (mkUnstructured (take (Z.to_nat n) indx) n))).
  - intros p r Hp. do 2 eexists. split; [|split].
    + unfold addISet_Range. rewrite (bind_Some _ _ _ _ _ (load_Range_Some _ _ _ Hp)).
      apply (new_push_segment w this _ _ _ _ Hthis).
    + apply (valid_push (heap w) this segs isegs (IRange r) Hv).
    + simpl. rewrite lookup_insert_ne by (intros ->; rewrite Hthis in Hp; discriminate).
      rewrite lookup_insert_ne; [exact Hp|]. apply (fresh_ne _ _ _ Hp).
  - intros p u Hp. do 2 eexists. split; [|split].
    + unfold addISet_Unstructured.
      rewrite (bind_Some _ _ _ _ _ (load_Unstructured_Some _ _ _ Hp)).
      apply (new_push_segment w this _ _ _ _ Hthis).
    + apply (valid_push (heap w) this segs isegs (IList u) Hv).
    + simpl. rewrite lookup_insert_ne by (intros ->; rewrite Hthis in Hp; discriminate).
      rewrite lookup_insert_ne; [exact Hp|]. apply (fresh_ne _ _ _ Hp).
Qed.

(** A valid index set is represented by what its segments denote. *)
Lemma valid_represents hp this segs isegs :
  valid hp this segs isegs -> represents hp this (total_length isegs) isegs.
Proof.
  intros (Hthis & Hsegs & _). eexists. split; [exact Hthis|]. now split.
Qed.

(** X2: the copy constructor, on a valid index set, makes a valid index
    set at an address that was not in use, with the same segment kinds,
    bounds and indices in the same order and the same length, in payloads at
    addresses that were not in use; every object that was there stays as it
    was, and nothing is written to [std::cout]. *)
Theorem X2_copy_ctor_deep_copy (other : loc) (w : World) (segs : list Segment)
  (isegs : list ISeg) :
  valid (heap w) other segs isegs ->
  exists this w' new_segs,
    HybridISet_copy_ctor other w = Some (this, w') /\
    heap w !! this = None /\
    valid (heap w') this new_segs isegs /\
    valid (heap w') other segs isegs /\
    Forall (fun p => heap w !! p = None) (seg_ptrs new_segs) /\
    enumerate this w' = Some (isegs_indices isegs, w') /\
    getLength this w' = Some (total_length isegs, w') /\
    cout w' = cout w.
Proof.
  intros Hv.
  destruct (HybridISet_copy_ctor_spec other segs isegs w Hv)
    as (c & w1 & new_segs & Hcc & Hcfresh & Hc1 & Hnew & Hk1 & Hfr & Hnd & Hcout1).
  destruct Hv as (Hother & Hsegs & Hnd').
  assert (Hvc : valid (heap w1) c new_segs isegs) by now repeat split.
  exists c, w1, new_segs. repeat split; try assumption.
  - now apply Hk1.
  - eapply segs_are_ext; [exact Hsegs|]. intros p Hp.
    destruct (seg_ptrs_elem _ _ _ _ Hsegs Hp) as [i Hi]. rewrite Hi. now apply Hk1.
  - exact (enumerate_spec _ _ _ _ (valid_represents _ _ _ _ Hvc)).
  - exact (getLength_spec _ _ _ _ (valid_represents _ _ _ _ Hvc)).
Qed.

(** The destructor and the release of the storage, on a valid index set. *)
Lemma destroy_spec this w segs isegs :
  valid (heap w) this segs isegs ->
  exists w',
    destroy this w = Some (tt, w') /\
    heap w' !! this = None /\
    Forall (fun p => heap w' !! p = None) (seg_ptrs segs) /\
    (forall q, q <> this -> q ∉ seg_ptrs segs -> heap w' !! q = heap w !! q) /\
    cout w' = cout w.
Proof.
  intros (Hthis & Hsegs & Hnd).
  destruct (dtor_loop_spec segs isegs w Hsegs Hnd) as (w1 & Hloop & Hout & Hin & Hcout).
  assert (Hnot : this ∉ seg_ptrs segs).
  { intros Hp. destruct (seg_ptrs_elem _ _ _ _ Hsegs Hp) as [i Hi].
    rewrite Hthis in Hi. injection Hi as Hi.
    symmetry in Hi. now apply payload_of_not_hybrid in Hi. }
  assert (Hthis1 : heap w1 !! this = Some (OHybrid (mkHybrid (total_length isegs) segs)))
    by now rewrite Hout.
  exists (mkWorld (delete this (heap w1)) (cout w1)).
  split.
  { unfold destroy, HybridISet_dtor. rewrite bind_assoc.
    rewrite (bind_Some _ _ _ _ _ (load_Hybrid_Some _ _ _ Hthis)). simpl.
    rewrite (bind_Some _ _ _ _ _ Hloop). unfold free. now rewrite Hthis1. }
  simpl. split; [apply lookup_delete_eq|]. split; [|split; [|exact Hcout]].
  - eapply Forall_impl; [exact Hin|]. intros p Hp. cbv beta in *.
    destruct (decide (p = this)) as [->|Hne]; [apply lookup_delete_eq|].
    now rewrite lookup_delete_ne by congruence.
  - intros q Hq Hqn. rewrite lookup_delete_ne by congruence. now apply Hout.
Qed.

(** X3: the end of the lifetime of a valid index set releases the index set
    and the payload of every segment, once each, leaves every other object
    of the store as it was, and writes nothing to [std::cout]. *)
Theorem X3_destroy_releases_payloads (this : loc) (w : World) (segs : list Segment)
  (isegs : list ISeg) :
  valid (heap w) this segs isegs ->
  exists w',
    destroy this w = Some (tt, w') /\
    heap w' !! this = None /\
    Forall (fun p => heap w' !! p = None) (seg_ptrs segs) /\
    (forall q, q <> this -> q ∉ seg_ptrs segs -> heap w' !! q = heap w !! q) /\
    cout w' = cout w.
Proof. apply destroy_spec. Qed.

(** The loop of [copy] adds the payloads of the new segments, and nothing
    else. *)
Lemma copy_loop_frame c segs : forall isegs w len_c segs_c w',
  heap w !! c = Some (OHybrid (mkHybrid len_c segs_c)) ->
  Forall2 (seg_is (heap w)) segs isegs ->
  for_segments (copy_segment c) segs w = Some (tt, w') ->
  exists new_segs,
    heap w' !! c = Some (OHybrid (mkHybrid (len_c + total_length isegs)
                                           (segs_c ++ new_segs))) /\
    (forall q, q <> c -> q ∉ seg_ptrs new_segs -> heap w' !! q = heap w !! q).
Proof.
  induction segs as [|seg segs IH]; intros isegs w len_c segs_c w' Hc Hsegs Hloop.
  - apply Forall2_nil_inv_l in Hsegs as ->. injection Hloop as <-.
    exists []. simpl. rewrite Z.add_0_r, app_nil_r. now split.
  - apply Forall2_cons_inv_l in Hsegs as (i & isegs' & Hseg & Hsegs & ->).
    pose proof (copy_segment_spec c len_c segs_c seg i w Hc Hseg) as Hcopy.
    set (p := fresh (dom (heap w))) in *.
    set (w1 := mkWorld _ _) in Hcopy.
    simpl in Hloop. rewrite (bind_Some _ _ _ _ _ Hcopy) in Hloop.
    assert (Hpc : p <> c) by (apply (fresh_ne _ _ _ Hc)).
    assert (Hc1 : heap w1 !! c = Some (OHybrid (mkHybrid (len_c + iseg_length i)
                     (segs_c ++ [mkSegment (m_type seg) (Some p)]))))
      by apply lookup_insert_eq.
    destruct (IH isegs' w1 _ _ w' Hc1) as (new_segs & Hc' & Hframe); [|exact Hloop|].
    { eapply segs_are_ext; [exact Hsegs|]. intros q Hq.
      destruct (seg_ptrs_elem _ _ _ _ Hsegs Hq) as [j Hj]. simpl.
      rewrite lookup_insert_ne.
      - rewrite lookup_insert_ne; [reflexivity|]. apply (fresh_ne _ _ _ Hj).
      - intros <-. rewrite Hc in Hj. injection Hj as Hj.
        symmetry in Hj. now apply payload_of_not_hybrid in Hj. }
    exists (mkSegment (m_type seg) (Some p) :: new_segs). split.
    + rewrite Hc'. simpl. rewrite <- app_assoc. simpl. do 3 f_equal. lia.
    + intros q Hqc Hq. unfold seg_ptrs in Hq. simpl in Hq.
      apply not_elem_of_cons in Hq as [Hqp Hq].
      rewrite (Hframe q Hqc Hq). simpl.
      now rewrite !lookup_insert_ne by congruence.
Qed.

(** X4: a copy of a valid index set that is destroyed leaves the store and
    [std::cout] exactly as they were before the copy: every payload the copy
    constructor allocates is released by the destructor. *)
Theorem X4_copy_then_destroy (other : loc) (w : World) (segs : list Segment)
  (isegs : list ISeg) :
  valid (heap w) other segs isegs ->
  (let* this := HybridISet_copy_ctor other in destroy this) w = Some (tt, w).
Proof.
  intros Hv.
  destruct (HybridISet_copy_ctor_spec other segs isegs w Hv)
    as (c & w1 & new_segs & Hcc & Hcfresh & Hc1 & Hnew & Hk1 & Hfr & Hnd & Hcout1).
  assert (Hvc : valid (heap w1) c new_segs isegs) by now repeat split.
  destruct (destroy_spec c w1 new_segs isegs Hvc) as (w2 & Hd & Hc2 & Hin2 & Hout2 & Hcout2).
  rewrite (bind_Some _ _ _ _ _ Hcc), Hd. do 2 f_equal.
  (* the copy constructor adds the copy and its payloads only *)
  assert (Hframe : forall q, q <> c -> q ∉ seg_ptrs new_segs -> heap w1 !! q = heap w !! q).
  { destruct Hv as (Hother & Hsegs & _).
    unfold HybridISet_copy_ctor, bind at 1, new in Hcc.
    set (c0 := fresh (dom (heap w))) in *.
    set (w0 := mkWorld (<[c0 := OHybrid (mkHybrid 0 [])]> (heap w)) (cout w)) in *.
    assert (Hother0 : heap w0 !! other = Some (OHybrid (mkHybrid (total_length isegs) segs))).
    { simpl. rewrite lookup_insert_ne; [exact Hother|]. apply (fresh_ne _ _ _ Hother). }
    unfold copy in Hcc. rewrite bind_assoc in Hcc.
    rewrite (bind_Some _ _ _ _ _ (load_Hybrid_Some w0 other _ Hother0)) in Hcc.
    simpl in Hcc. apply bind_inv in Hcc as ([] & w1' & Hloop & Hret).
    injection Hret as Ec Ew. subst w1'. rewrite <- Ec in *. clear Ec.
    destruct (copy_loop_frame c0 segs isegs w0 0 [] w1 ltac:(apply lookup_insert_eq))
      as (new_segs' & Hc1' & Hfr'); [|exact Hloop|].
    { eapply segs_are_ext; [exact Hsegs|]. intros q Hq.
      destruct (seg_ptrs_elem _ _ _ _ Hsegs Hq) as [j Hj]. simpl.
      rewrite lookup_insert_ne; [reflexivity|]. apply (fresh_ne _ _ _ Hj). }
    rewrite Hc1 in Hc1'. simpl in Hc1'.
    assert (En : new_segs' = new_segs) by congruence. subst new_segs'.
    intros q Hqc Hq. rewrite (Hfr' q Hqc Hq). simpl. now rewrite lookup_insert_ne. }
  destruct w as [hp out]. destruct w2 as [hp2 out2]. simpl in *.
  f_equal; [|congruence].
  apply map_eq. intros q.
  destruct (decide (q = c)) as [->|Hqc]; [congruence|].
  destruct (decide (q ∈ seg_ptrs new_segs)) as [Hq|Hq].
  - rewrite Forall_forall in Hin2, Hfr. rewrite (Hin2 q Hq). symmetry. exact (Hfr q Hq).
  - rewrite (Hout2 q Hqc Hq). now apply Hframe.
Qed.

(** X5: [swap] exchanges the two index sets without a look at their
    payloads: afterwards each address holds what the other held, every
    other object of the store is as it was, and a second [swap] restores the
    store.  With both arguments the same index set it changes nothing. *)
Theorem X5_swap_exchanges (a b : loc) (ha hb : HybridISet) (w : World) :
  heap w !! a = Some (OHybrid ha) -> heap w !! b = Some (OHybrid hb) ->
  exists w',
    swap a b w = Some (tt, w') /\
    heap w' !! a = Some (OHybrid hb) /\
    heap w' !! b = Some (OHybrid ha) /\
    (forall q, q <> a -> q <> b -> heap w' !! q = heap w !! q) /\
    cout w' = cout w /\
    swap a b w' = Some (tt, w).
Proof.
  intros Ha Hb. destruct (decide (a = b)) as [->|Hab].
  - rewrite Ha in Hb. injection Hb as <-.
    assert (Hself : swap b b w = Some (tt, w)).
    { destruct ha as [la sa]. destruct w as [hp out]. simpl in Ha.
      assert (Hid : <[b := OHybrid (mkHybrid la sa)]> hp = hp) by now apply insert_id.
      assert (Hstep : forall la' sa', la' = la -> sa' = sa ->
                 store b (OHybrid (mkHybrid la' sa')) (mkWorld hp out)
                 = Some (tt, mkWorld hp out)).
      { intros ? ? -> ->. unfold store. simpl. now rewrite Ha, Hid. }
      pose proof (load_Hybrid_Some (mkWorld hp out) b _ Ha) as Hload.
      assert (Hlen : swap_m_len b b (mkWorld hp out) = Some (tt, mkWorld hp out)).
      { unfold swap_m_len.
        rewrite (bind_Some _ _ _ _ _ Hload). rewrite (bind_Some _ _ _ _ _ Hload).
        rewrite (bind_Some _ _ _ _ _ (Hstep _ _ eq_refl eq_refl)).
        rewrite (bind_Some _ _ _ _ _ Hload). now apply Hstep. }
      assert (Hseg : swap_m_segments b b (mkWorld hp out) = Some (tt, mkWorld hp out)).
      { unfold swap_m_segments.
        rewrite (bind_Some _ _ _ _ _ Hload). rewrite (bind_Some _ _ _ _ _ Hload).
        rewrite (bind_Some _ _ _ _ _ (Hstep _ _ eq_refl eq_refl)).
        rewrite (bind_Some _ _ _ _ _ Hload). now apply Hstep. }
      unfold swap. now rewrite (bind_Some _ _ _ _ _ Hlen). }
    exists w. now repeat split.
  - pose proof (swap_spec a b ha hb w Ha Hb Hab) as Hswap.
    set (w' := mkWorld _ _) in Hswap.
    assert (Ha' : heap w' !! a = Some (OHybrid hb)).
    { simpl. rewrite lookup_insert_ne by congruence. apply lookup_insert_eq. }
    assert (Hb' : heap w' !! b = Some (OHybrid ha)) by apply lookup_insert_eq.
    exists w'. repeat split; try assumption.
    + intros q Hqa Hqb. simpl. now rewrite !lookup_insert_ne by congruence.
    + rewrite (swap_spec a b hb ha w' Ha' Hb' Hab).
      destruct w as [hp out]. simpl in *. do 3 f_equal.
      apply map_eq. intros q.
      destruct (decide (q = b)) as [->|Hqb]; [|destruct (decide (q = a)) as [->|Hqa]];
        repeat first [rewrite lookup_insert_eq | rewrite lookup_insert_ne by congruence];
        congruence.
Qed.

Lemma for_segments_fails body (segs : list Segment) seg w :
  seg ∈ segs -> (forall w', body seg w' = None) ->
  for_segments body segs w = None.
Proof.
  intros Hin Hfail. revert w.
  induction segs as [|s segs IH]; intros w; [now apply elem_of_nil in Hin|].
  simpl. unfold bind. destruct (body s w) as [[u w1]|] eqn:E; [|reflexivity].
  apply elem_of_cons in Hin as [<-|Hin]; [now rewrite Hfail in E|now apply IH].
Qed.

(** X6: a Range or List segment with a null payload is tolerated by the
    destructor, which passes over it, and by [print], which reports it, but
    not by [copy], which dereferences the pointer without a test: the copy
    constructor and the assignment from an index set that holds such a
    segment are undefined. *)
Theorem X6_null_payload (this other : loc) (h : HybridISet) (pre post : list Segment)
  (seg : Segment) (w : World) :
  heap w !! other = Some (OHybrid h) ->
  m_segments h = pre ++ seg :: post ->
  m_type seg = _Range_ \/ m_type seg = _Unstructured_ ->
  m_segment seg = None ->
  HybridISet_copy_ctor other w = None /\
  (this <> other -> operator_assign this other w = None) /\
  HybridISet_dtor other w =
    (for_segments dtor_segment pre >> for_segments dtor_segment post) w /\
  print_segment seg w =
    Some ([Str (match m_type seg with _Range_ => "_Range_ is null"
                                    | _ => "_Unstructured_ is null" end); Endl], w).
Proof.
  intros Hother Hsegs Hty Hnull.
  assert (Hcopy : HybridISet_copy_ctor other w = None).
  { unfold HybridISet_copy_ctor, bind at 1, new.
    set (c := fresh (dom (heap w))).
    set (w0 := mkWorld _ _).
    assert (Hother0 : heap w0 !! other = Some (OHybrid h)).
    { simpl. rewrite lookup_insert_ne; [exact Hother|]. apply (fresh_ne _ _ _ Hother). }
    unfold copy. rewrite bind_assoc.
    rewrite (bind_Some _ _ _ _ _ (load_Hybrid_Some w0 other _ Hother0)).
    apply bind_None. apply for_segments_fails with seg.
    - rewrite Hsegs. apply elem_of_app. right. apply elem_of_cons. now left.
    - intros w'. unfold copy_segment. rewrite Hnull. now destruct Hty as [-> | ->]. }
  split; [exact Hcopy|]. split; [|split].
  - intros Hne. unfold operator_assign. rewrite decide_True by congruence.
    now apply bind_None.
  - unfold HybridISet_dtor. rewrite (bind_Some _ _ _ _ _ (load_Hybrid_Some _ _ _ Hother)).
    rewrite Hsegs, for_segments_app. apply bind_cong. intros _ w1. simpl.
    assert (E : dtor_segment seg = ret tt).
    { unfold dtor_segment. rewrite Hnull. now destruct Hty as [-> | ->]. }
    now rewrite E.
  - unfold print_segment. rewrite Hnull. now destruct Hty as [-> | ->].
Qed.

Lemma print_segments_spec w segs isegs :
  Forall2 (seg_is (heap w)) segs isegs ->
  print_segments segs w = Some (map iseg_item isegs, w).
Proof.
  induction 1 as [|seg i segs isegs Hseg _ IH]; [reflexivity|].
  simpl.
  assert (Hp : print_segment seg w = Some ([iseg_item i], w)).
  { destruct (seg_is_ptr _ _ _ Hseg) as (p & Hp & Hobj & Hty).
    unfold print_segment. rewrite Hty, Hp. destruct i as [r|u]; simpl in *.
    - now rewrite (bind_Some _ _ _ _ _ (load_Range_Some _ _ _ Hobj)).
    - now rewrite (bind_Some _ _ _ _ _ (load_Unstructured_Some _ _ _ Hobj)). }
  rewrite (bind_Some _ _ _ _ _ Hp). now rewrite (bind_Some _ _ _ _ _ IH).
Qed.

(** X7: [print], on an index set whose segments have live payloads, writes
    the length and the number of segments, then lets every segment print
    itself, in container order; it changes neither the store nor
    [std::cout]. *)
Theorem X7_print_lists_segments (this : loc) (w : World) (len : Index_type)
  (isegs : list ISeg) :
  represents (heap w) this len isegs ->
  print this w =
  Some ([Str "HYBRID INDEX SET : "; Num len; Str " length..."; Endl;
         Num (Z.of_nat (length isegs)); Str " segments..."; Endl]
        ++ map iseg_item isegs, w).
Proof.
  intros Hrep. pose proof Hrep as (h & Hthis & Hlen & Hsegs).
  unfold print.
  rewrite (bind_Some _ _ _ _ _ (getLength_spec _ _ _ _ Hrep)).
  rewrite (bind_Some _ _ _ _ _ (getNumSegments_spec _ _ _ _ Hrep)).
  rewrite (bind_Some _ _ _ _ _ (load_Hybrid_Some _ _ _ Hthis)).
  now rewrite (bind_Some _ _ _ _ _ (print_segments_spec _ _ _ Hsegs)).
Qed.

(** ** The builder returns a valid index set *)

Lemma keeps_ret {A : Type} (P : World -> Prop) (a : A) : keeps P (ret a).
Proof. intros w a' w' HP [= _ <-]. exact HP. Qed.

Lemma keeps_bind {A B : Type} (P : World -> Prop) (m : M A) (k : A -> M B) :
  keeps P m -> (forall a, keeps P (k a)) -> keeps P (bind m k).
Proof.
  intros Hm Hk w b w' HP H. apply bind_inv in H as (a & w1 & H1 & H2).
  eapply Hk; [|exact H2]. eapply Hm; eassumption.
Qed.

Lemma keeps_undefined {A : Type} (P : World -> Prop) : keeps P (@undefined World A).
Proof. intros w a w' _ H. discriminate. Qed.

Lemma keeps_index_M (P : World -> Prop) a i : keeps P (index_M a i).
Proof.
  intros w v w' HP. unfold index_M. destruct (index a i); [|discriminate].
  now intros [= _ <-].
Qed.

Lemma keeps_address_of (P : World -> Prop) a i : keeps P (address_of a i).
Proof.
  unfold address_of. destruct (decide _); [apply keeps_ret|apply keeps_undefined].
Qed.

Lemma keeps_addRangeIndices this b e : keeps (is_valid this) (addRangeIndices this b e).
Proof.
  intros w [] w' (segs & isegs & Hv) H. pose proof Hv as (Hthis & _ & _).
  unfold addRangeIndices in H. rewrite (new_push_segment w this _ _ _ _ Hthis) in H.
  injection H as <-. do 2 eexists.
  apply (valid_push (heap w) this segs isegs (IRange (mkRange b e)) Hv).
Qed.

Lemma keeps_addUnstructuredIndices this indx n :
  keeps (is_valid this) (addUnstructuredIndices this indx n).
Proof.
  intros w [] w' (segs & isegs & Hv) H. pose proof Hv as (Hthis & _ & _).
  unfold addUnstructuredIndices, UnstructuredISet_ctor in H.
  destruct (decide (0 <= n <= Z.of_nat (length indx))); [|discriminate].
  unfold bind at 1 in H. unfold ret at 1 in H.
  rewrite (new_push_segment w this _ _ _ _ Hthis) in H.
  injection H as <-. do 2 eexists.
  apply (valid_push (heap w) this segs isegs
           (IList (mkUnstructured (take (Z.to_nat n) indx) n)) Hv).
Qed.

Ltac keeps_step :=
  first [ apply keeps_ret
        | apply keeps_undefined
        | apply keeps_index_M
        | apply keeps_address_of
        | apply keeps_addRangeIndices
        | apply keeps_addUnstructuredIndices
        | apply keeps_bind; [|intros ?]
        | match goal with |- keeps _ (if ?b then _ else _) => destruct b end
        | match goal with |- keeps _ (let '(mkBuild _ _ _ _) := ?s in _) => destruct s end ].

Section BuilderValid.
Variables RANGE_ALIGN RANGE_MIN_LENGTH : Index_type.

Lemma keeps_build_scan hindex a ii la s :
  keeps (is_valid hindex) (build_scan RANGE_ALIGN hindex a ii la s).
Proof. unfold build_scan. repeat keeps_step. Qed.

Lemma keeps_build_body hindex a ii s :
  keeps (is_valid hindex) (build_body RANGE_ALIGN hindex a ii s).
Proof. unfold build_body. repeat keeps_step. apply keeps_build_scan. Qed.

Lemma keeps_build_loop hindex a n : forall ii s,
  keeps (is_valid hindex) (build_loop RANGE_ALIGN n hindex a ii s).
Proof.
  induction n as [|n IH]; intros ii s; simpl; [apply keeps_ret|].
  apply keeps_bind; [apply keeps_build_body|intros s'; apply IH].
Qed.

Lemma keeps_build_pass hindex a n :
  keeps (is_valid hindex) (build_pass RANGE_ALIGN hindex a n).
Proof.
  unfold build_pass. apply keeps_bind; [apply keeps_index_M|intros v].
  apply keeps_bind; [apply keeps_build_loop|intros s]. repeat keeps_step.
Qed.

(** What the segments of an index set denote is determined by the store. *)
Lemma seg_is_functional hp segs isegs1 isegs2 :
  Forall2 (seg_is hp) segs isegs1 -> Forall2 (seg_is hp) segs isegs2 ->
  isegs1 = isegs2.
Proof.
  intros H1. revert isegs2. induction H1 as [|seg i segs isegs Hi _ IH]; intros isegs2 H2.
  - now apply Forall2_nil_inv_l in H2.
  - apply Forall2_cons_inv_l in H2 as (j & isegs' & Hj & H2 & ->).
    unfold seg_is in *. rewrite Hi in Hj. injection Hj as <-. f_equal. now apply IH.
Qed.

Lemma represents_functional hp this len1 len2 isegs1 isegs2 :
  represents hp this len1 isegs1 -> represents hp this len2 isegs2 ->
  len1 = len2 /\ isegs1 = isegs2.
Proof.
  intros (h1 & Ht1 & Hl1 & Hs1) (h2 & Ht2 & Hl2 & Hs2).
  rewrite Ht1 in Ht2. injection Ht2 as <-. split; [congruence|].
  eapply seg_is_functional; eassumption.
Qed.

Hypothesis RANGE_ALIGN_pos : 0 < RANGE_ALIGN.

(** X8: the index set that [buildHybridISet] returns is valid: its cached
    length is the total of the lengths of its segments, every segment is a
    Range or a List segment with a payload of its own, and no payload is
    shared with an object that was in the store before.  Its segments lay
    out the input array. *)
Theorem X8_builder_returns_valid (a : list Index_type) (w : World) :
  0 <= RANGE_MIN_LENGTH ->
  exists hindex w' segs isegs,
    buildHybridISet RANGE_ALIGN RANGE_MIN_LENGTH a (Z.of_nat (length a)) w
      = Some (hindex, w') /\
    heap w !! hindex = None /\
    valid (heap w') hindex segs isegs /\
    total_length isegs = Z.of_nat (length a) /\
    isegs_indices isegs = a.
Proof.
  intros Hmin.
  destruct (buildHybridISet_spec RANGE_ALIGN RANGE_MIN_LENGTH RANGE_ALIGN_pos a w
              (or_intror Hmin))
    as (hindex & w' & isegs & Hbuild & Hrep & Hidx & _ & _).
  assert (Hval : is_valid hindex w' /\ heap w !! hindex = None).
  { unfold buildHybridISet in Hbuild.
    apply bind_inv in Hbuild as (h0 & w0 & Hctor & Hrest).
    apply bind_inv in Hrest as ([] & w1 & Hbody & Hret). injection Hret as -> ->.
    unfold HybridISet_ctor, new in Hctor. injection Hctor as <- <-.
    split; [|apply fresh_lookup_None].
    assert (H0 : is_valid (fresh (dom (heap w)))
                   (mkWorld (<[fresh (dom (heap w)) := OHybrid (mkHybrid 0 [])]> (heap w))
                            (cout w))).
    { exists [], []. split; [apply lookup_insert_eq|]. split; constructor. }
    revert Hbody. generalize tt. intros u Hbody.
    refine ((_ : keeps (is_valid _) _) _ u _ H0 Hbody).
    destruct (decide _); [|apply keeps_addUnstructuredIndices].
    apply keeps_bind.
    - intros w2 d w3 HP. destruct (stats_pass _ _ _); [|discriminate].
      now intros [= _ <-].
    - intros d. destruct (decide _);
        [apply keeps_build_pass|apply keeps_addUnstructuredIndices]. }
  destruct Hval as [(segs & isegs' & Hv) Hfresh].
  destruct (represents_functional _ _ _ _ _ _ Hrep (valid_represents _ _ _ _ Hv)) as [Hl ->].
  exists hindex, w', segs, isegs'.
  split; [exact Hbuild|]. split; [exact Hfresh|]. split; [exact Hv|].
  split; [now symmetry|exact Hidx].
Qed.

End BuilderValid.

(** ** What the builder chooses *)

Section BuilderChoice.
Variables RANGE_ALIGN RANGE_MIN_LENGTH : Index_type.

(** The builder on its path without compression. *)
Lemma builder_single_list a w :
  (~ Z.of_nat (length a) > RANGE_MIN_LENGTH) \/
  (exists docount, stats_pass RANGE_ALIGN a (Z.of_nat (length a)) = Some docount /\
                   ~ docount < Z.quot (Z.of_nat (length a) * (RANGE_ALIGN - 1)) RANGE_ALIGN) ->
  exists hindex w',
    buildHybridISet RANGE_ALIGN RANGE_MIN_LENGTH a (Z.of_nat (length a)) w
      = Some (hindex, w') /\
    represents (heap w') hindex (Z.of_nat (length a))
               [IList (mkUnstructured a (Z.of_nat (length a)))] /\
    cout w' = cout w.
Proof.
  intros Hpath.
  destruct (HybridISet_ctor_spec w) as (hindex & w0 & Hctor & Hrep0 & Hc0 & _).
  destruct (single_list_spec hindex a (Z.of_nat (length a)) w0 Hrep0)
    as (w' & Hadd & Hrep' & Hc & _); [lia|].
  rewrite take_ge in Hrep' by lia.
  exists hindex, w'. split; [|split; [exact Hrep'|congruence]].
  unfold buildHybridISet. rewrite (bind_Some _ _ _ _ _ Hctor).
  destruct (decide (Z.of_nat (length a) > RANGE_MIN_LENGTH)) as [Hlong|Hshort].
  - destruct Hpath as [Hshort|(docount & Hstats & Hcut)]; [contradiction|].
    rewrite bind_assoc. unfold bind at 1. rewrite Hstats.
    rewrite decide_False by exact Hcut. now rewrite (bind_Some _ _ _ _ _ Hadd).
  - now rewrite (bind_Some _ _ _ _ _ Hadd).
Qed.

(** X9: an array of at most [RANGE_MIN_LENGTH] elements is not compressed:
    the builder returns an index set of exactly one List segment, which
    holds the whole array, whatever runs the array has. *)
Theorem X9_short_input_one_list (a : list Index_type) (w : World) :
  Z.of_nat (length a) <= RANGE_MIN_LENGTH ->
  exists hindex w',
    buildHybridISet RANGE_ALIGN RANGE_MIN_LENGTH a (Z.of_nat (length a)) w
      = Some (hindex, w') /\
    represents (heap w') hindex (Z.of_nat (length a))
               [IList (mkUnstructured a (Z.of_nat (length a)))] /\
    cout w' = cout w.
Proof. intros H. apply builder_single_list. left. lia. Qed.

(** The threshold of the cutoff is at most the length. *)
Lemma cutoff_le_length n :
  0 < RANGE_ALIGN -> 0 <= n -> Z.quot (n * (RANGE_ALIGN - 1)) RANGE_ALIGN <= n.
Proof.
  intros Hal Hn. rewrite <- (Z.quot_mul n RANGE_ALIGN) at 2 by lia.
  apply Z.quot_le_mono; [lia|]. nia.
Qed.

(** The statistics pass on an array without consecutive neighbours: nothing
    is counted before the end of the array. *)
Lemma stats_loop_no_adjacent a n : forall ii s,
  no_adjacent a ->
  1 <= ii -> ii + Z.of_nat n = Z.of_nat (length a) ->
  index a (ii - 1) = Some (s_scanVal s) ->
  s_docount s = 0 -> s_sliceCount s = ii - 1 ->
  (s_inrange s = -1 /\ ii = 1) \/ s_inrange s = 0 ->
  exists s', stats_loop RANGE_ALIGN n a ii s = Some s' /\
             s_docount s' = 0 /\ s_sliceCount s' = Z.of_nat (length a) - 1 /\
             ((s_inrange s' = -1 /\ length a = 1%nat) \/ s_inrange s' = 0).
Proof.
  induction n as [|n IH]; intros ii s Hna Hii Hn Hscan Hd Hs Hmode.
  - exists s. split; [reflexivity|]. split; [exact Hd|]. split; [lia|].
    destruct Hmode as [[? ?]|?]; [left; split; [assumption|lia]|now right].
  - destruct (index_in_range a ii) as [la Hla]; [lia|].
    assert (Hne : la <> s_scanVal s + 1).
    { apply index_Some in Hscan as [_ Hscan]. apply index_Some in Hla as [_ Hla].
      apply (Hna (Z.to_nat (ii - 1)) _ _ Hscan).
      now replace (S (Z.to_nat (ii - 1))) with (Z.to_nat ii) by lia. }
    apply Z.eqb_neq in Hne.
    destruct s as [docount inrange scanVal sliceCount]. simpl in *.
    assert (Hbody : stats_body RANGE_ALIGN a ii (mkStat docount inrange scanVal sliceCount)
                    = Some (mkStat 0 0 la ii)).
    { unfold stats_body. rewrite Hla. rewrite Hne. simpl.
      destruct Hmode as [[-> ->]| ->]; simpl; subst; do 2 f_equal; lia. }
    simpl. rewrite Hbody.
    destruct (IH (ii + 1) (mkStat 0 0 la ii) Hna ltac:(lia) ltac:(lia)
                ltac:(simpl; now replace (ii + 1 - 1) with ii by lia)
                eq_refl ltac:(simpl; lia) ltac:(now right))
      as (s' & Hloop & H1 & H2 & H3).
    exists s'. repeat split; assumption.
Qed.

Hypothesis RANGE_ALIGN_pos : 0 < RANGE_ALIGN.

(** X10: an array in which no element is followed by its successor is not
    compressed, however long it is: the statistics pass counts more than the
    cutoff allows, and the builder returns an index set of exactly one List
    segment, which holds the whole array. *)
Theorem X10_no_adjacent_one_list (a : list Index_type) (w : World) :
  0 <= RANGE_MIN_LENGTH ->
  no_adjacent a ->
  exists hindex w',
    buildHybridISet RANGE_ALIGN RANGE_MIN_LENGTH a (Z.of_nat (length a)) w
      = Some (hindex, w') /\
    represents (heap w') hindex (Z.of_nat (length a))
               [IList (mkUnstructured a (Z.of_nat (length a)))] /\
    cout w' = cout w.
Proof.
  intros Hmin Hna. apply builder_single_list.
  destruct a as [|v0 a'] eqn:Ea; [left; simpl; lia|]. rewrite <- Ea in *.
  assert (Hlen : (1 <= length a)%nat) by (rewrite Ea; simpl; lia).
  right.
  assert (Hv0 : index a 0 = Some v0) by now rewrite Ea.
  destruct (stats_loop_no_adjacent a (Z.to_nat (Z.of_nat (length a) - 1)) 1
              (mkStat 0 (-1) v0 0) Hna ltac:(lia) ltac:(lia) Hv0 eq_refl eq_refl
              ltac:(left; now split))
    as ([docount inrange scanVal sliceCount] & Hloop & Hd & Hs & Hmode).
  simpl in *. subst docount sliceCount.
  pose proof (cutoff_le_length (Z.of_nat (length a)) RANGE_ALIGN_pos ltac:(lia)) as Hcut.
  unfold stats_pass. rewrite Hv0, Hloop.
  eexists. split; [reflexivity|].
  destruct Hmode as [[-> Hone]| ->]; simpl.
  - rewrite Hone in *. simpl in *. rewrite Z.quot_small by lia.
    destruct (negb (scanVal =? -1)); lia.
  - lia.
Qed.

(** The two passes on an array that is one aligned run. *)
Lemma stats_loop_run v len n : forall ii,
  aligned RANGE_ALIGN v = true ->
  1 <= ii -> ii + Z.of_nat n = len ->
  stats_loop RANGE_ALIGN n (seqZ v len) ii
             (mkStat 0 (if ii =? 1 then -1 else 1) (v + (ii - 1)) (ii - 1))
  = Some (mkStat 0 (if len =? 1 then -1 else 1) (v + (len - 1)) (len - 1)).
Proof.
  induction n as [|n IH]; intros ii Hal Hii Hn.
  - simpl. replace len with ii by lia. reflexivity.
  - assert (Hla : index (seqZ v len) ii = Some (v + ii)).
    { apply index_Some. split; [lia|]. rewrite lookup_seqZ_lt by lia. f_equal. lia. }
    simpl. unfold stats_body. rewrite Hla.
    replace (v + ii =? v + (ii - 1) + 1) with true by (symmetry; apply Z.eqb_eq; lia).
    rewrite <- (IH (ii + 1)) by (assumption || lia).
    replace (ii + 1 =? 1) with false by (symmetry; apply Z.eqb_neq; lia).
    replace (v + (ii + 1 - 1)) with (v + ii) by lia.
    replace (ii + 1 - 1) with ii by lia.
    destruct (ii =? 1) eqn:E1; simpl.
    + apply Z.eqb_eq in E1. subst ii. replace (v + (1 - 1)) with v by lia.
      rewrite Hal. reflexivity.
    + replace (ii - 1 + 1) with ii by lia. reflexivity.
Qed.

Lemma build_loop_run hindex v len n w : forall ii,
  aligned RANGE_ALIGN v = true ->
  1 <= ii -> ii + Z.of_nat n = len ->
  build_loop RANGE_ALIGN n hindex (seqZ v len) ii
             (mkBuild v (if ii =? 1 then -1 else 1) (v + (ii - 1)) (ii - 1)) w
  = Some (mkBuild v (if len =? 1 then -1 else 1) (v + (len - 1)) (len - 1), w).
Proof.
  induction n as [|n IH]; intros ii Hal Hii Hn.
  - simpl. replace len with ii by lia. reflexivity.
  - assert (Hla : index (seqZ v len) ii = Some (v + ii)).
    { apply index_Some. split; [lia|]. rewrite lookup_seqZ_lt by lia. f_equal. lia. }
    assert (Hbody : build_body RANGE_ALIGN hindex (seqZ v len) ii
                      (mkBuild v (if ii =? 1 then -1 else 1) (v + (ii - 1)) (ii - 1)) w
                    = Some (mkBuild v 1 (v + ii) ii, w)).
    { unfold build_body. rewrite (bind_Some _ _ _ _ _ (index_M_Some _ _ _ w Hla)).
      unfold build_enter, build_scan.
      replace (v + ii =? v + (ii - 1) + 1) with true by (symmetry; apply Z.eqb_eq; lia).
      destruct (ii =? 1) eqn:E1; simpl.
      - apply Z.eqb_eq in E1. subst ii. replace (v + (1 - 1)) with v by lia.
        rewrite Hal. simpl. rewrite Z.eqb_refl. simpl. reflexivity.
      - replace (v + ii =? v + (ii - 1) + 1) with true by (symmetry; apply Z.eqb_eq; lia).
        simpl. unfold bind, ret. simpl.
        replace (ii - 1 + 1) with ii by lia. reflexivity. }
    simpl. rewrite (bind_Some _ _ _ _ _ Hbody).
    rewrite <- (IH (ii + 1)) by (assumption || lia).
    replace (ii + 1 =? 1) with false by (symmetry; apply Z.eqb_neq; lia).
    replace (v + (ii + 1 - 1)) with (v + ii) by lia.
    now replace (ii + 1 - 1) with ii by lia.
Qed.

(** X11: an array that is one run v, v+1, ..., v+n-1 with v a multiple of
    [RANGE_ALIGN], longer than [RANGE_MIN_LENGTH] and long enough to pass the
    cutoff (the statistics pass counts 3 for it), is built as exactly one
    Range segment [v, v+n). *)
Theorem X11_aligned_run_one_range (v n : Index_type) (w : World) :
  aligned RANGE_ALIGN v = true ->
  n > RANGE_MIN_LENGTH ->
  3 < Z.quot (n * (RANGE_ALIGN - 1)) RANGE_ALIGN ->
  exists hindex w',
    buildHybridISet RANGE_ALIGN RANGE_MIN_LENGTH (seqZ v n) n w = Some (hindex, w') /\
    represents (heap w') hindex n [IRange (mkRange v (v + n))] /\
    stats_pass RANGE_ALIGN (seqZ v n) n = Some 3 /\
    cout w' = cout w.
Proof.
  intros Hal Hlong Hcut.
  assert (Hn : 3 < n).
  { destruct (Z.le_gt_cases 0 n) as [H0|H0].
    - pose proof (cutoff_le_length n RANGE_ALIGN_pos H0). lia.
    - assert (Z.quot (n * (RANGE_ALIGN - 1)) RANGE_ALIGN <= 0); [|lia].
      apply Z.quot_le_upper_bound; [lia|]. nia. }
  assert (Hv0 : index (seqZ v n) 0 = Some v).
  { apply index_Some. split; [lia|]. rewrite lookup_seqZ_lt by lia. f_equal. simpl. lia. }
  assert (Hstats : stats_pass RANGE_ALIGN (seqZ v n) n = Some 3).
  { unfold stats_pass. rewrite Hv0.
    pose proof (stats_loop_run v n (Z.to_nat (n - 1)) 1 Hal ltac:(lia) ltac:(lia)) as H.
    change (1 =? 1) with true in H. cbv iota in H.
    replace (v + (1 - 1)) with v in H by lia. change (1 - 1) with 0 in H. rewrite H.
    replace (n =? 1) with false by (symmetry; apply Z.eqb_neq; lia). reflexivity. }
  destruct (HybridISet_ctor_spec w) as (hindex & w0 & Hctor & Hrep0 & Hc0 & _).
  destruct (addRangeIndices_spec hindex v (v + (n - 1 + 1)) w0 0 [] Hrep0)
    as (w' & Hadd & Hrep' & Hc & _).
  exists hindex, w'. split; [|split; [|split; [exact Hstats|congruence]]].
  - unfold buildHybridISet. rewrite (bind_Some _ _ _ _ _ Hctor).
    rewrite decide_True by exact Hlong.
    rewrite bind_assoc. unfold bind at 1. rewrite Hstats.
    rewrite decide_True by exact Hcut.
    assert (Hpass : build_pass RANGE_ALIGN hindex (seqZ v n) n w0 = Some (tt, w')).
    { unfold build_pass. rewrite (bind_Some _ _ _ _ _ (index_M_Some _ _ _ w0 Hv0)).
      pose proof (build_loop_run hindex v n (Z.to_nat (n - 1)) w0 1 Hal ltac:(lia) ltac:(lia))
        as H.
      change (1 =? 1) with true in H. cbv iota in H.
      replace (v + (1 - 1)) with v in H by lia. change (1 - 1) with 0 in H.
      rewrite (bind_Some _ _ _ _ _ H).
      replace (n =? 1) with false by (symmetry; apply Z.eqb_neq; lia). simpl.
      exact Hadd. }
    now rewrite (bind_Some _ _ _ _ _ Hpass).
  - simpl in Hrep'. replace (v + (n - 1 + 1) - v) with n in Hrep' by lia.
    now replace (v + (n - 1 + 1)) with (v + n) in Hrep' by lia.
Qed.

End BuilderChoice.

(** ** The estimate of the statistics pass *)

Lemma cost_snoc isegs i :
  cost (isegs ++ [i]) = cost isegs + match i with IRange _ => 2 | IList u => 1 + u_len u end.
Proof.
  unfold cost. induction isegs as [|j isegs IH]; simpl; [lia|]. rewrite IH. lia.
Qed.

Lemma addRangeIndices_inv this b e w w' len isegs :
  represents (heap w) this len isegs ->
  addRangeIndices this b e w = Some (tt, w') ->
  represents (heap w') this (len + (e - b)) (isegs ++ [IRange (mkRange b e)]).
Proof.
  intros Hrep H.
  destruct (addRangeIndices_spec this b e w len isegs Hrep) as (w'' & H' & Hrep' & _).
  rewrite H in H'. now injection H' as <-.
Qed.

Lemma addUnstructuredIndices_inv this indx n w w' len isegs :
  represents (heap w) this len isegs ->
  addUnstructuredIndices this indx n w = Some (tt, w') ->
  represents (heap w') this (len + n)
             (isegs ++ [IList (mkUnstructured (take (Z.to_nat n) indx) n)]).
Proof.
  intros Hrep H.
  destruct (decide (0 <= n <= Z.of_nat (length indx))) as [Hn|Hn].
  - destruct (addUnstructuredIndices_spec this indx n w len isegs Hrep Hn)
      as (w'' & H' & Hrep' & _).
    rewrite H in H'. now injection H' as <-.
  - unfold addUnstructuredIndices, UnstructuredISet_ctor in H.
    rewrite decide_False in H by exact Hn. discriminate.
Qed.

Lemma index_M_inv a i w v w' :
  index_M a i w = Some (v, w') -> index a i = Some v /\ w' = w.
Proof.
  unfold index_M. destruct (index a i); [|discriminate]. now intros [= -> ->].
Qed.

Lemma address_of_inv a i w l w' :
  address_of a i w = Some (l, w') -> l = drop (Z.to_nat i) a /\ w' = w.
Proof.
  unfold address_of. destruct (decide _); [|discriminate]. now intros [= <- <-].
Qed.

Lemma ret_inv {S A : Type} (a a' : A) (w w' : S) :
  ret a w = Some (a', w') -> a' = a /\ w' = w.
Proof. now intros [= <- <-]. Qed.

Section Estimate.
Variable RANGE_ALIGN : Index_type.

(** One iteration of the two loops, side by side: the statistics pass
    counts the cost of the segment the build pass emits. *)
Lemma body_cost hindex a ii st bs w bs' w' len isegs :
  represents (heap w) hindex len isegs ->
  s_inrange st = b_inrange bs -> s_scanVal st = b_scanVal bs ->
  s_sliceCount st = b_sliceCount bs -> s_docount st = cost isegs ->
  build_body RANGE_ALIGN hindex a ii bs w = Some (bs', w') ->
  exists st' len' isegs',
    stats_body RANGE_ALIGN a ii st = Some st' /\
    represents (heap w') hindex len' isegs' /\
    s_inrange st' = b_inrange bs' /\ s_scanVal st' = b_scanVal bs' /\
    s_sliceCount st' = b_sliceCount bs' /\ s_docount st' = cost isegs'.
Proof.
  intros Hrep Hi Hv Hs Hd Hbody.
  destruct st as [docount inrange scanVal sliceCount].
  destruct bs as [dobegin inrange' scanVal' sliceCount']. simpl in *. subst.
  unfold build_body in Hbody.
  apply bind_inv in Hbody as (la & w0 & Hla & Hbody). apply index_M_inv in Hla as [Hla ->].
  apply bind_inv in Hbody as (s1 & w1 & Hscan & Hret). apply ret_inv in Hret as [-> ->].
  unfold stats_body. rewrite Hla.
  unfold build_enter, build_scan in Hscan.
  destruct (inrange' =? -1) eqn:E1;
    [destruct ((la =? scanVal' + 1) && aligned RANGE_ALIGN scanVal') eqn:E2|];
    destruct (la =? scanVal' + 1) eqn:E3; simpl in Hscan |- *;
    try discriminate E2;
    try (destruct (aligned RANGE_ALIGN scanVal') eqn:E4; simpl in Hscan |- *);
    try discriminate E2;
    try (destruct (inrange' =? 0) eqn:E5; simpl in Hscan |- *);
    try (destruct (inrange' =? 1) eqn:E6; simpl in Hscan |- *);
    try (destruct (sliceCount' =? 0) eqn:E7; simpl in Hscan |- *);
    repeat match goal with
      | H : bind _ _ _ = Some _ |- _ =>
          let x := fresh "x" in let wx := fresh "wx" in
          let H1 := fresh "H1" in let H2 := fresh "H2" in
          apply bind_inv in H as (x & wx & H1 & H2)
      | H : ret _ _ = Some _ |- _ => apply ret_inv in H as [? ?]; subst
      | H : address_of _ _ _ = Some _ |- _ => apply address_of_inv in H as [? ?]; subst
      | H : addRangeIndices _ _ _ _ = Some (?u, _) |- _ =>
          destruct u; apply (addRangeIndices_inv _ _ _ _ _ _ _ Hrep) in H
      | H : addUnstructuredIndices _ _ _ _ = Some (?u, _) |- _ =>
          destruct u; apply (addUnstructuredIndices_inv _ _ _ _ _ _ _ Hrep) in H
      end;
    simpl;
    (eexists; do 2 eexists; split; [reflexivity|]; split; [eassumption|]);
    simpl; rewrite ?cost_snoc; simpl; repeat split; lia.
Qed.

Lemma loop_cost hindex a n : forall ii st bs w bs' w' len isegs,
  represents (heap w) hindex len isegs ->
  s_inrange st = b_inrange bs -> s_scanVal st = b_scanVal bs ->
  s_sliceCount st = b_sliceCount bs -> s_docount st = cost isegs ->
  build_loop RANGE_ALIGN n hindex a ii bs w = Some (bs', w') ->
  exists st' len' isegs',
    stats_loop RANGE_ALIGN n a ii st = Some st' /\
    represents (heap w') hindex len' isegs' /\
    s_inrange st' = b_inrange bs' /\ s_scanVal st' = b_scanVal bs' /\
    s_sliceCount st' = b_sliceCount bs' /\ s_docount st' = cost isegs'.
Proof.
  induction n as [|n IH]; intros ii st bs w bs' w' len isegs Hrep Hi Hv Hs Hd Hloop.
  - apply ret_inv in Hloop as [-> ->]. exists st, len, isegs. now repeat split.
  - simpl in Hloop. apply bind_inv in Hloop as (bs1 & w1 & Hbody & Hloop).
    destruct (body_cost hindex a ii st bs w bs1 w1 len isegs Hrep Hi Hv Hs Hd Hbody)
      as (st1 & len1 & isegs1 & Hsb & Hrep1 & Hi1 & Hv1 & Hs1 & Hd1).
    destruct (IH (ii + 1) st1 bs1 w1 bs' w' len1 isegs1 Hrep1 Hi1 Hv1 Hs1 Hd1 Hloop)
      as (st' & len' & isegs' & Hsl & Hrest).
    exists st', len', isegs'. simpl. rewrite Hsb. now split.
Qed.

(** The two passes, side by side. *)
Lemma pass_cost hindex a n w w' :
  represents (heap w) hindex 0 [] ->
  build_pass RANGE_ALIGN hindex a n w = Some (tt, w') ->
  exists docount len' isegs',
    stats_pass RANGE_ALIGN a n = Some docount /\
    represents (heap w') hindex len' isegs' /\
    docount = cost isegs' + 1.
Proof.
  intros Hrep Hpass. unfold build_pass in Hpass.
  apply bind_inv in Hpass as (v0 & w0 & Hv0 & Hpass). apply index_M_inv in Hv0 as [Hv0 ->].
  apply bind_inv in Hpass as (bs & w1 & Hloop & Hfin).
  destruct (loop_cost hindex a (Z.to_nat (n - 1)) 1 (mkStat 0 (-1) v0 0) (mkBuild v0 (-1) v0 0) w bs w1 0 []
              Hrep eq_refl eq_refl eq_refl eq_refl Hloop)
    as ([docount inrange scanVal sliceCount] & len1 & isegs1 & Hsl & Hrep1 & Hi & Hv & Hs & Hd).
  destruct bs as [dobegin inrange' scanVal' sliceCount']. simpl in *. subst.
  unfold stats_pass. rewrite Hv0, Hsl.
  destruct (inrange' =? -1) eqn:E1; simpl in Hfin |- *;
    [destruct (scanVal' =? -1) eqn:E2|destruct (inrange' =? 0) eqn:E3]; simpl in Hfin |- *;
    repeat match goal with
      | H : bind _ _ _ = Some _ |- _ =>
          let x := fresh "x" in let wx := fresh "wx" in
          let H1 := fresh "H1" in let H2 := fresh "H2" in
          apply bind_inv in H as (x & wx & H1 & H2)
      | H : ret _ _ = Some _ |- _ => apply ret_inv in H as [? ?]; subst
      | H : address_of _ _ _ = Some _ |- _ => apply address_of_inv in H as [? ?]; subst
      | H : addRangeIndices _ _ _ _ = Some (?u, _) |- _ =>
          apply (addRangeIndices_inv _ _ _ _ _ _ _ Hrep1) in H
      | H : addUnstructuredIndices _ _ _ _ = Some (?u, _) |- _ =>
          apply (addUnstructuredIndices_inv _ _ _ _ _ _ _ Hrep1) in H
      end;
    (do 3 eexists; split; [reflexivity|]; split; [eassumption|]);
    rewrite ?cost_snoc; simpl; lia.
Qed.

(** X12. The estimate of the statistics pass is the cost of the segments the
    build pass emits, with one more for the "zero length termination": two
    for each Range segment, one and its length for each List segment. *)
Theorem X12_estimate_is_cost hindex a w :
  a <> [] ->
  represents (heap w) hindex 0 [] ->
  exists docount w' len isegs,
    stats_pass RANGE_ALIGN a (Z.of_nat (length a)) = Some docount /\
    build_pass RANGE_ALIGN hindex a (Z.of_nat (length a)) w = Some (tt, w') /\
    represents (heap w') hindex len isegs /\
    docount = cost isegs + 1.
Proof.
  intros Ha Hrep.
  assert (Hb : exists w', build_pass RANGE_ALIGN hindex a (Z.of_nat (length a)) w
                          = Some (tt, w')).
  { destruct a as [|v [|v' a]]; [congruence| |].
    - unfold build_pass. simpl.
      rewrite (bind_Some _ _ _ _ _ (index_M_Some [v] 0 v w eq_refl)).
      unfold bind at 1, ret at 1. simpl.
      destruct (v =? -1); simpl; [now exists w|].
      destruct (addUnstructuredIndices_spec hindex [v] 1 w 0 [] Hrep)
        as (w' & H & _); [simpl; lia|]. now exists w'.
    - destruct (build_pass_spec RANGE_ALIGN hindex (v :: v' :: a) w) as (w' & ? & H & _);
        [simpl; lia|exact Hrep|]. now exists w'. }
  destruct Hb as [w' Hb].
  destruct (pass_cost hindex a _ w w' Hrep Hb) as (docount & len & isegs & Hs & Hr & Hd).
  now exists docount, w', len, isegs.
Qed.

End Estimate.

(** ** The result of a region of tree-merge reducers *)

Module OmpReduceRegion.
Import OmpReduce OmpReduceFacts.

(** What a step of a region does to a flat tree. *)
Lemma step_inv k root op (h h' : gmap loc Reducer) :
  flat root h -> is_destroy_of root op = false ->
  step k op h = Some (tt, h') ->
  match op with
  | Copy src =>
      exists o, h !! src = Some o /\ h !! fresh (dom h) = None /\
        h' = <[fresh (dom h) :=
                 mkReducer (Some root)
                   (match k with RSum => m_custom_init o | _ => m_val o end)
                   (m_idx o) (m_custom_init o)]> h
  | Update target rhs idx =>
      exists o, h !! target = Some o /\
        h' = <[target :=
                 mkReducer (m_parent o)
                   (fst (Reduce k (m_val o) (m_idx o) rhs idx))
                   (snd (Reduce k (m_val o) (m_idx o) rhs idx))
                   (m_custom_init o)]> h
  | Destroy target =>
      exists o rr, target <> root /\ h !! target = Some o /\ h !! root = Some rr /\
        h' = delete target
               (<[root :=
                    mkReducer None
                      (fst (Reduce k (m_val rr) (m_idx rr) (m_val o) (m_idx o)))
                      (snd (Reduce k (m_val rr) (m_idx rr) (m_val o) (m_idx o)))
                      (m_custom_init rr)]> h)
  end.
Proof.
  intros [(rr & Hroot & Hrp) Hflat] Hop Hstep.
  destruct op as [src|target rhs idx|target]; simpl in *.
  - apply bind_inv in Hstep as (c & h1 & Hcopy & Hret). injection Hret as <-.
    destruct (h !! src) as [o|] eqn:Hsrc;
      [|unfold copy_ctor in Hcopy; rewrite bind_None in Hcopy;
        [discriminate|unfold load; now rewrite Hsrc]].
    rewrite (copy_ctor_spec k src h o Hsrc) in Hcopy. injection Hcopy as <- <-.
    exists o. split; [reflexivity|]. split; [apply fresh_None|].
    f_equal. f_equal.
    destruct (decide (src = root)) as [->|Hsr].
    + rewrite Hroot in Hsrc. injection Hsrc as <-. now rewrite Hrp.
    + now rewrite (Hflat src o Hsrc Hsr).
  - destruct (h !! target) as [o|] eqn:Ht;
      [|unfold update in Hstep; rewrite bind_None in Hstep;
        [discriminate|unfold load; now rewrite Ht]].
    rewrite (update_spec k target rhs idx h o Ht) in Hstep. injection Hstep as <-.
    now exists o.
  - apply bool_decide_eq_false in Hop.
    destruct (h !! target) as [o|] eqn:Ht;
      [|unfold dtor in Hstep; rewrite bind_None in Hstep;
        [discriminate|unfold load; now rewrite Ht]].
    pose proof (Hflat target o Ht Hop) as Hpar.
    rewrite (dtor_spec k target root h o rr Ht Hpar Hroot Hop) in Hstep.
    injection Hstep as <-.
    exists o, rr. rewrite Hrp. now repeat split.
Qed.

Lemma Reduce_fst_cases k val idx v l :
  k <> RSum ->
  fst (Reduce k val idx v l) = val \/ fst (Reduce k val idx v l) = v.
Proof.
  intros Hk. destruct k; simpl; try congruence;
    match goal with |- context [if ?b then _ else _] => destruct b end; simpl; auto.
Qed.

Lemma Reduce_pair_cases k val idx v l :
  k = RMinLoc \/ k = RMaxLoc ->
  Reduce k val idx v l = (val, idx) \/ Reduce k val idx v l = (v, l).
Proof.
  intros [-> | ->]; simpl;
    match goal with |- context [if ?b then _ else _] => destruct b end; auto.
Qed.

Lemma updates_app ops ops' : updates (ops ++ ops') = updates ops ++ updates ops'.
Proof. unfold updates. apply omap_app. Qed.

Lemma update_pairs_app ops ops' :
  update_pairs (ops ++ ops') = update_pairs ops ++ update_pairs ops'.
Proof. unfold update_pairs. apply omap_app. Qed.

Lemma step_extremum k root op vals (h h' : gmap loc Reducer) :
  k <> RSum -> flat root h -> is_destroy_of root op = false ->
  extremum_inv k vals h ->
  step k op h = Some (tt, h') ->
  extremum_inv k (vals ++ updates [op]) h'.
Proof.
  intros Hk Hflat Hop [Hin Hbest] Hstep.
  pose proof (step_inv k root op h h' Hflat Hop Hstep) as Hinv.
  destruct op as [src|target rhs idx|target]; simpl in *.
  - destruct Hinv as (o & Hsrc & Hfresh & ->). rewrite app_nil_r. split.
    + intros p r Hp. destruct (decide (p = fresh (dom h))) as [->|Hne].
      * rewrite lookup_insert_eq in Hp. injection Hp as <-. simpl.
        destruct k; try congruence; now apply (Hin src).
      * rewrite lookup_insert_ne in Hp by congruence. now apply (Hin p).
    + intros v Hv. destruct (Hbest v Hv) as (p & r & Hp & Hb).
      exists p, r. split; [|exact Hb].
      rewrite lookup_insert_ne; [exact Hp|]. intros <-. congruence.
  - destruct Hinv as (o & Ht & ->). split.
    + intros p r Hp. destruct (decide (p = target)) as [->|Hne].
      * rewrite lookup_insert_eq in Hp. injection Hp as <-. simpl.
        destruct (Reduce_fst_cases k (m_val o) (m_idx o) rhs idx Hk) as [-> | ->].
        -- apply elem_of_app. left. now apply (Hin target).
        -- apply elem_of_app. right. apply list_elem_of_here.
      * rewrite lookup_insert_ne in Hp by congruence.
        apply elem_of_app. left. now apply (Hin p).
    + intros v Hv. apply elem_of_app in Hv as [Hv|Hv].
      * destruct (Hbest v Hv) as (p & r & Hp & Hb).
        destruct (decide (p = target)) as [->|Hne].
        -- eexists target, _. split; [apply lookup_insert_eq|]. simpl.
           rewrite Ht in Hp. injection Hp as <-.
           eapply better_trans; [now apply Reduce_better_l|exact Hb].
        -- exists p, r. split; [|exact Hb]. now rewrite lookup_insert_ne by congruence.
      * apply list_elem_of_singleton in Hv as ->.
        eexists target, _. split; [apply lookup_insert_eq|]. simpl.
        now apply Reduce_better_r.
  - destruct Hinv as (o & rr & Hne & Ht & Hroot & ->). rewrite app_nil_r. split.
    + intros p r Hp. destruct (decide (p = target)) as [->|Hpt];
        [now rewrite lookup_delete_eq in Hp|].
      rewrite lookup_delete_ne in Hp by congruence.
      destruct (decide (p = root)) as [->|Hpr].
      * rewrite lookup_insert_eq in Hp. injection Hp as <-. simpl.
        destruct (Reduce_fst_cases k (m_val rr) (m_idx rr) (m_val o) (m_idx o) Hk)
          as [-> | ->]; [now apply (Hin root)|now apply (Hin target)].
      * rewrite lookup_insert_ne in Hp by congruence. now apply (Hin p).
    + intros v Hv. destruct (Hbest v Hv) as (p & r & Hp & Hb).
      destruct (decide (p = target)) as [->|Hpt].
      * rewrite Ht in Hp. injection Hp as <-.
        eexists root, _. split.
        -- rewrite lookup_delete_ne by congruence. apply lookup_insert_eq.
        -- simpl. eapply better_trans; [now apply Reduce_better_r|exact Hb].
      * destruct (decide (p = root)) as [->|Hpr].
        -- rewrite Hroot in Hp. injection Hp as <-.
           eexists root, _. split.
           ++ rewrite lookup_delete_ne by congruence. apply lookup_insert_eq.
           ++ simpl. eapply better_trans; [now apply Reduce_better_l|exact Hb].
        -- exists p, r. split; [|exact Hb].
           now rewrite lookup_delete_ne, lookup_insert_ne by congruence.
Qed.

Lemma exec_extremum k root ops : forall vals (h h' : gmap loc Reducer),
  k <> RSum -> flat root h -> root_outlives root ops = true ->
  extremum_inv k vals h ->
  exec k ops h = Some (tt, h') ->
  extremum_inv k (vals ++ updates ops) h'.
Proof.
  induction ops as [|op ops IH]; intros vals h h' Hk Hflat Hops Hinv Hexec.
  - injection Hexec as <-. now rewrite app_nil_r.
  - simpl in Hops. apply andb_true_iff in Hops as [Hop Hops].
    apply negb_true_iff in Hop.
    simpl in Hexec. apply bind_inv in Hexec as ([] & h1 & Hstep & Hexec).
    change (op :: ops) with ([op] ++ ops). rewrite updates_app, app_assoc.
    eapply (IH _ h1); [exact Hk| |exact Hops| |exact Hexec].
    + eapply step_flat; eassumption.
    + eapply step_extremum; eassumption.
Qed.

(** The store a region of min or max reducers leaves, when only the root
    is left in it. *)
Lemma extremum_of_store (k : ReduceKind) (v0 : T) (idx0 : Index_type)
  (initializer : T) (ops : list Op) (root : loc) (h1 h2 : gmap loc Reducer) :
  k <> RSum ->
  ctor v0 idx0 initializer ∅ = Some (root, h1) ->
  root_outlives root ops = true ->
  exec k ops h1 = Some (tt, h2) ->
  (forall p, p <> root -> h2 !! p = None) ->
  exists res,
    get root h2 = Some (res, h2) /\
    res ∈ v0 :: updates ops /\
    (forall v, v ∈ v0 :: updates ops -> better k res v).
Proof.
  intros Hk Hctor Hops Hexec Honly.
  pose proof (flat_ctor _ _ _ _ _ Hctor) as Hflat.
  assert (Hinv1 : extremum_inv k [v0] h1).
  { rewrite ctor_spec in Hctor. injection Hctor as <- <-. split.
    - intros p r Hp. destruct (decide (p = fresh (dom (∅ : gmap loc Reducer)))) as [->|Hne].
      + rewrite lookup_insert_eq in Hp. injection Hp as <-. apply list_elem_of_here.
      + rewrite lookup_insert_ne, lookup_empty in Hp by congruence. discriminate.
    - intros v Hv. apply list_elem_of_singleton in Hv as ->.
      eexists _, _. split; [apply lookup_insert_eq|]. simpl. now apply better_refl. }
  pose proof (exec_extremum k root ops [v0] h1 h2 Hk Hflat Hops Hinv1 Hexec) as [Hin Hbest].
  pose proof (exec_flat k root ops h1 h2 Hflat Hops Hexec) as [(rr & Hroot & _) _].
  exists (m_val rr). split; [|split].
  - unfold get. now rewrite (bind_Some _ _ _ _ _ (load_Some _ _ _ Hroot)).
  - now apply (Hin root).
  - intros v Hv. destruct (Hbest v Hv) as (p & r & Hp & Hb).
    destruct (decide (p = root)) as [->|Hne].
    + rewrite Hroot in Hp. now injection Hp as <-.
    + rewrite (Honly p Hne) in Hp. discriminate.
Qed.

Lemma step_pairs k root op pairs (h h' : gmap loc Reducer) :
  k = RMinLoc \/ k = RMaxLoc -> flat root h -> is_destroy_of root op = false ->
  pairs_inv pairs h ->
  step k op h = Some (tt, h') ->
  pairs_inv (pairs ++ update_pairs [op]) h'.
Proof.
  intros Hk Hflat Hop Hin Hstep.
  pose proof (step_inv k root op h h' Hflat Hop Hstep) as Hinv.
  destruct op as [src|target rhs idx|target]; simpl in *.
  - destruct Hinv as (o & Hsrc & Hfresh & ->). rewrite app_nil_r.
    intros p r Hp. destruct (decide (p = fresh (dom h))) as [->|Hne].
    + rewrite lookup_insert_eq in Hp. injection Hp as <-. simpl.
      destruct Hk as [-> | ->]; now apply (Hin src).
    + rewrite lookup_insert_ne in Hp by congruence. now apply (Hin p).
  - destruct Hinv as (o & Ht & ->).
    intros p r Hp. destruct (decide (p = target)) as [->|Hne].
    + rewrite lookup_insert_eq in Hp. injection Hp as <-. simpl.
      rewrite <- surjective_pairing.
      destruct (Reduce_pair_cases k (m_val o) (m_idx o) rhs idx Hk) as [-> | ->].
      * apply elem_of_app. left. now apply (Hin target).
      * apply elem_of_app. right. apply list_elem_of_here.
    + rewrite lookup_insert_ne in Hp by congruence.
      apply elem_of_app. left. now apply (Hin p).
  - destruct Hinv as (o & rr & Hne & Ht & Hroot & ->). rewrite app_nil_r.
    intros p r Hp. destruct (decide (p = target)) as [->|Hpt];
      [now rewrite lookup_delete_eq in Hp|].
    rewrite lookup_delete_ne in Hp by congruence.
    destruct (decide (p = root)) as [->|Hpr].
    + rewrite lookup_insert_eq in Hp. injection Hp as <-. simpl.
      rewrite <- surjective_pairing.
      destruct (Reduce_pair_cases k (m_val rr) (m_idx rr) (m_val o) (m_idx o) Hk)
        as [-> | ->]; [now apply (Hin root)|now apply (Hin target)].
    + rewrite lookup_insert_ne in Hp by congruence. now apply (Hin p).
Qed.

Lemma exec_pairs k root ops : forall pairs (h h' : gmap loc Reducer),
  k = RMinLoc \/ k = RMaxLoc -> flat root h -> root_outlives root ops = true ->
  pairs_inv pairs h ->
  exec k ops h = Some (tt, h') ->
  pairs_inv (pairs ++ update_pairs ops) h'.
Proof.
  induction ops as [|op ops IH]; intros pairs h h' Hk Hflat Hops Hinv Hexec.
  - injection Hexec as <-. now rewrite app_nil_r.
  - simpl in Hops. apply andb_true_iff in Hops as [Hop Hops].
    apply negb_true_iff in Hop.
    simpl in Hexec. apply bind_inv in Hexec as ([] & h1 & Hstep & Hexec).
    change (op :: ops) with ([op] ++ ops). rewrite update_pairs_app, app_assoc.
    eapply (IH _ h1); [exact Hk| |exact Hops| |exact Hexec].
    + eapply step_flat; eassumption.
    + eapply step_pairs; eassumption.
Qed.

(** X14. The location of a min-loc or max-loc reducer belongs to its value:
    at any point of a region, what [get()] and [getLoc()] of the root return
    is the initial pair or a pair given to one update. *)
Theorem X14_location_belongs_to_value (k : ReduceKind) (v0 : T) (idx0 : Index_type)
  (initializer : T) (ops : list Op) (root : loc) (h1 h2 : gmap loc Reducer) :
  k = RMinLoc \/ k = RMaxLoc ->
  ctor v0 idx0 initializer ∅ = Some (root, h1) ->
  root_outlives root ops = true ->
  exec k ops h1 = Some (tt, h2) ->
  exists res l,
    get root h2 = Some (res, h2) /\
    getLoc root h2 = Some (l, h2) /\
    (res, l) ∈ (v0, idx0) :: update_pairs ops.
Proof.
  intros Hk Hctor Hops Hexec.
  pose proof (flat_ctor _ _ _ _ _ Hctor) as Hflat.
  assert (Hinv1 : pairs_inv [(v0, idx0)] h1).
  { rewrite ctor_spec in Hctor. injection Hctor as <- <-.
    intros p r Hp. destruct (decide (p = fresh (dom (∅ : gmap loc Reducer)))) as [->|Hne].
    - rewrite lookup_insert_eq in Hp. injection Hp as <-. apply list_elem_of_here.
    - rewrite lookup_insert_ne, lookup_empty in Hp by congruence. discriminate. }
  pose proof (exec_pairs k root ops _ h1 h2 Hk Hflat Hops Hinv1 Hexec) as Hin.
  pose proof (exec_flat k root ops h1 h2 Hflat Hops Hexec) as [(rr & Hroot & _) _].
  exists (m_val rr), (m_idx rr). split; [|split].
  - unfold get. now rewrite (bind_Some _ _ _ _ _ (load_Some _ _ _ Hroot)).
  - unfold getLoc. now rewrite (bind_Some _ _ _ _ _ (load_Some _ _ _ Hroot)).
  - now apply (Hin root).
Qed.

(** A region that uses its reducers properly runs to its end, and leaves
    the root alone in the store. *)
Lemma region_ok_exec k root ops : forall (h : gmap loc Reducer),
  flat root h -> region_ok root (dom h) ops = true ->
  exists h2,
    exec k ops h = Some (tt, h2) /\
    (forall p, p <> root -> h2 !! p = None) /\
    root_outlives root ops = true.
Proof.
  induction ops as [|op ops IH]; intros h Hflat Hok.
  - exists h. simpl in Hok. apply bool_decide_eq_true in Hok.
    split; [reflexivity|]. split; [|reflexivity].
    intros p Hp. apply not_elem_of_dom. rewrite Hok. set_solver.
  - assert (Hstep : exists h', step k op h = Some (tt, h') /\
                               is_destroy_of root op = false /\
                               region_ok root (dom h') ops = true).
    { destruct op as [src|target rhs idx|target]; simpl in Hok.
      - apply andb_true_iff in Hok as [Hsrc Hok]. apply bool_decide_eq_true in Hsrc.
        destruct (step_defined k root (Copy src) h Hflat eq_refl) as [h' Hs];
          [now apply elem_of_dom|].
        exists h'. split; [exact Hs|]. split; [reflexivity|].
        destruct (step_inv k root (Copy src) h h' Hflat eq_refl Hs) as (o & _ & _ & ->).
        now rewrite dom_insert_L.
      - apply andb_true_iff in Hok as [Ht Hok]. apply bool_decide_eq_true in Ht.
        destruct (step_defined k root (Update target rhs idx) h Hflat eq_refl) as [h' Hs];
          [now apply elem_of_dom|].
        exists h'. split; [exact Hs|]. split; [reflexivity|].
        destruct (step_inv k root (Update target rhs idx) h h' Hflat eq_refl Hs)
          as (o & _ & ->).
        rewrite dom_insert_L.
        assert (E : {[target]} ∪ dom h = dom h)
          by (apply subseteq_union_1_L, singleton_subseteq_l; exact Ht).
        now rewrite E.
      - apply andb_true_iff in Hok as [Ht Hok]. apply andb_true_iff in Ht as [Ht Hne].
        apply bool_decide_eq_true in Ht. apply negb_true_iff in Hne.
        destruct (step_defined k root (Destroy target) h Hflat Hne) as [h' Hs];
          [now apply elem_of_dom|].
        exists h'. split; [exact Hs|]. split; [exact Hne|].
        destruct (step_inv k root (Destroy target) h h' Hflat Hne Hs)
          as (o & rr & _ & _ & Hroot & ->).
        rewrite dom_delete_L, dom_insert_L.
        assert (root ∈ dom h) by (apply elem_of_dom; now exists rr).
        assert (E : {[root]} ∪ dom h = dom h)
          by (apply subseteq_union_1_L, singleton_subseteq_l; assumption).
        now rewrite E. }
    destruct Hstep as (h' & Hs & Hd & Hok').
    destruct (IH h' (step_flat k root op h h' Hflat Hd Hs) Hok') as (h2 & He & Honly & Hout).
    exists h2. split; [|split; [exact Honly|]].
    + simpl. now rewrite (bind_Some _ _ _ _ _ Hs).
    + simpl. now rewrite Hd, Hout.
Qed.

Lemma ctor_dom init_val init_idx initializer root (h : gmap loc Reducer) :
  ctor init_val init_idx initializer ∅ = Some (root, h) -> dom h = {[root]}.
Proof.
  rewrite ctor_spec. intros [= <- <-]. rewrite dom_insert_L, dom_empty_L. set_solver.
Qed.

(** C4: a root of the sum reducer is constructed with the initial value
    v0; copies are made, values are given to [+=] on them, and every copy
    is destroyed.  The region runs to its end, only the root is left, and
    [get()] of the root is v0 plus the sum of the values: each one is folded
    into the root exactly once. *)
Theorem C4_sum_folded_once (v0 : T) (ops : list Op) (root : loc)
  (h1 : gmap loc Reducer) :
  ctor v0 0 0 ∅ = Some (root, h1) ->
  region_ok root {[root]} ops = true ->
  exists h2,
    exec RSum ops h1 = Some (tt, h2) /\
    (forall p, p <> root -> h2 !! p = None) /\
    get root h2 = Some (v0 + sumZ (updates ops), h2).
Proof.
  intros Hctor Hok.
  rewrite <- (ctor_dom _ _ _ _ _ Hctor) in Hok.
  destruct (region_ok_exec RSum root ops h1 (flat_ctor _ _ _ _ _ Hctor) Hok)
    as (h2 & Hexec & Honly & Hout).
  exists h2. split; [exact Hexec|]. split; [exact Honly|].
  rewrite (sum_region_general v0 0 ops root h1 h2 Hctor Hout Hexec Honly).
  do 2 f_equal. lia.
Qed.

(** X13. The result of a region of min or max reducers (with or without
    location): the region runs to its end, only the root is left, and the
    root holds one of the initial value and the values given to the
    updates, and none of these is better. *)
Theorem X13_region_extremum (k : ReduceKind) (v0 : T) (idx0 : Index_type)
  (initializer : T) (ops : list Op) (root : loc) (h1 : gmap loc Reducer) :
  k <> RSum ->
  ctor v0 idx0 initializer ∅ = Some (root, h1) ->
  region_ok root {[root]} ops = true ->
  exists h2 res,
    exec k ops h1 = Some (tt, h2) /\
    (forall p, p <> root -> h2 !! p = None) /\
    get root h2 = Some (res, h2) /\
    res ∈ v0 :: updates ops /\
    (forall v, v ∈ v0 :: updates ops -> better k res v).
Proof.
  intros Hk Hctor Hok.
  rewrite <- (ctor_dom _ _ _ _ _ Hctor) in Hok.
  destruct (region_ok_exec k root ops h1 (flat_ctor _ _ _ _ _ Hctor) Hok)
    as (h2 & Hexec & Honly & Hout).
  destruct (extremum_of_store k v0 idx0 initializer ops root h1 h2 Hk Hctor Hout Hexec Honly)
    as (res & Hget & Hin & Hbest).
  exists h2, res. split; [exact Hexec|]. split; [exact Honly|].
  split; [exact Hget|]. split; [exact Hin|exact Hbest].
Qed.

(** X15. A sum reducer with an initializer other than zero: each copy
    starts at the initializer and folds it into the root with its updates,
    so the region, which runs to its end and leaves only the root, returns
    the initial value, the values added, and the initializer once for each
    copy made. *)
Theorem X15_sum_counts_initializer (init_val initializer : T) (ops : list Op)
  (root : loc) (h1 : gmap loc Reducer) :
  ctor init_val 0 initializer ∅ = Some (root, h1) ->
  region_ok root {[root]} ops = true ->
  exists h2,
    exec RSum ops h1 = Some (tt, h2) /\
    (forall p, p <> root -> h2 !! p = None) /\
    get root h2 =
    Some (init_val + sumZ (updates ops) + initializer * copies ops, h2).
Proof.
  intros Hctor Hok.
  rewrite <- (ctor_dom _ _ _ _ _ Hctor) in Hok.
  destruct (region_ok_exec RSum root ops h1 (flat_ctor _ _ _ _ _ Hctor) Hok)
    as (h2 & Hexec & Honly & Hout).
  exists h2. split; [exact Hexec|]. split; [exact Honly|].
  exact (sum_region_general init_val initializer ops root h1 h2 Hctor Hout Hexec Honly).
Qed.

End OmpReduceRegion.

(** ** The result of a region of slot-pool reducers *)

Module OmpReduceOrderedRegion.
Import OmpReduceOrdered OmpReduceOrderedFacts.

Lemma sumZ_insert (b : list Z) : forall i (s v : Z),
  b !! i = Some s -> sumZ (<[i := v]> b) = sumZ b - s + v.
Proof.
  induction b as [|x b IH]; intros [|i] s v H; simpl in *; try discriminate.
  - injection H as ->. lia.
  - rewrite (IH i s v H). lia.
Qed.

Lemma sumZ_replicate_0 n : sumZ (replicate n 0) = 0.
Proof. induction n as [|n IH]; simpl; [reflexivity|]. now rewrite IH. Qed.

Lemma write_slot_Some block i (v : Z) st (b : list Z) :
  blocks st !! block = Some b -> (i < length b)%nat ->
  write_slot block i v st
  = Some (tt, mkState (<[block := <[i := v]> b]> (blocks st)) (this st)).
Proof.
  intros Hb Hi. unfold write_slot. rewrite Hb. now rewrite decide_True by exact Hi.
Qed.

Lemma Reduce_fst_loc k a l l' v i i' :
  fst (Reduce k a l v i) = fst (Reduce k a l' v i').
Proof. destruct k; simpl; try reflexivity; now destruct (_ <? _). Qed.

Lemma Reduce_snd_noloc k a l v i : is_loc k = false -> snd (Reduce k a l v i) = l.
Proof. destruct k; simpl; try discriminate; reflexivity. Qed.

Lemma with_reduced_twice st a b val idx :
  with_reduced (with_reduced st a b) val idx = with_reduced st val idx.
Proof. reflexivity. Qed.

Lemma with_reduced_inj st val idx val' idx' :
  with_reduced st val idx = with_reduced st val' idx' -> val = val' /\ idx = idx'.
Proof. unfold with_reduced. now intros [= -> ->]. Qed.

Lemma pool_with_reduced st val idx b bi :
  pool st b bi -> pool (with_reduced st val idx) b bi.
Proof. intros H. exact H. Qed.

(** An update by thread [tid] combines the value into slot [tid], and the
    location into slot [tid] of the index block. *)
Lemma update_pool k tid val idx st (b bi : list Z) :
  pool st b bi -> (tid < length b)%nat -> (tid < length bi)%nat ->
  exists (s l : Z) st',
    b !! tid = Some s /\ bi !! tid = Some l /\
    update k tid val idx st = Some (tt, st') /\ this st' = this st /\
    pool st' (<[tid := fst (Reduce k s l val idx)]> b)
             (if is_loc k then <[tid := snd (Reduce k s l val idx)]> bi else bi).
Proof.
  intros (Hne & Hb & Hbi) Hlt Hlti.
  destruct (lookup_lt_is_Some_2 b tid Hlt) as [s Hs].
  destruct (lookup_lt_is_Some_2 bi tid Hlti) as [l Hl].
  exists s, l.
  assert (Hw : forall v' : Z,
             write_slot (m_blockdata (this st)) tid v' st
             = Some (tt, mkState (<[m_blockdata (this st) := <[tid := v']> b]> (blocks st))
                                 (this st)))
    by (intros; now apply write_slot_Some).
  unfold update, get_this. unfold bind at 1.
  rewrite (bind_Some _ _ _ _ _ (read_slot_Some _ _ _ _ _ Hb Hs)).
  destruct (is_loc k) eqn:Hk.
  - assert (Hupd : (let* l0 := read_slot (m_idxdata (this st)) tid in
                    let '(v', l') := Reduce k s l0 val idx in
                    write_slot (m_blockdata (this st)) tid v' >>
                    write_slot (m_idxdata (this st)) tid l') st
                   = Some (tt, mkState
                       (<[m_idxdata (this st) := <[tid := snd (Reduce k s l val idx)]> bi]>
                          (<[m_blockdata (this st) := <[tid := fst (Reduce k s l val idx)]> b]>
                             (blocks st))) (this st))).
    { rewrite (bind_Some _ _ _ _ _ (read_slot_Some _ _ _ _ _ Hbi Hl)).
      destruct (Reduce k s l val idx) as [v' l']. simpl.
      rewrite (bind_Some _ _ _ _ _ (Hw v')).
      rewrite (write_slot_Some (m_idxdata (this st)) tid l'
               (mkState (<[m_blockdata (this st) := <[tid := v']> b]> (blocks st)) (this st))
               bi); [reflexivity| |exact Hlti]. simpl.
      now rewrite lookup_insert_ne by exact Hne. }
    eexists. split; [exact Hs|]. split; [exact Hl|].
    split; [destruct k; try discriminate; exact Hupd|].
    split; [reflexivity|]. split; [exact Hne|]. simpl. split.
    + rewrite lookup_insert_ne by congruence. apply lookup_insert_eq.
    + apply lookup_insert_eq.
  - eexists. split; [exact Hs|]. split; [exact Hl|]. split.
    + assert (Hupd : (let '(v', _) := Reduce k s 0 val idx in
                      write_slot (m_blockdata (this st)) tid v') st
                     = Some (tt, mkState
                          (<[m_blockdata (this st) := <[tid := fst (Reduce k s l val idx)]> b]>
                             (blocks st)) (this st))).
      { rewrite (Reduce_fst_loc k s l 0 val idx idx).
        destruct (Reduce k s 0 val idx) as [v' l']. simpl. apply Hw. }
      destruct k; try discriminate; exact Hupd.
    + split; [reflexivity|]. split; [exact Hne|]. simpl. split.
      * apply lookup_insert_eq.
      * now rewrite lookup_insert_ne by exact Hne.
Qed.

Lemma updates_sum n us : forall st (b bi : list Z),
  pool st b bi -> length b = n -> length bi = n -> tids_below n us = true ->
  exists st' (b' : list Z),
    updates RSum us st = Some (tt, st') /\ this st' = this st /\
    pool st' b' bi /\ length b' = n /\
    sumZ b' = sumZ b + sumZ (update_values us).
Proof.
  induction us as [|[[tid val] idx] us IH]; intros st b bi Hpool Hlb Hlbi Htid.
  - exists st, b. simpl. repeat split; try assumption; try apply Hpool. lia.
  - simpl in Htid. apply andb_true_iff in Htid as [Ht Htid]. apply Nat.ltb_lt in Ht.
    destruct (update_pool RSum tid val idx st b bi Hpool ltac:(lia) ltac:(lia))
      as (s & l & st1 & Hs & Hl & Hu & Hthis & Hpool1).
    simpl in Hpool1.
    destruct (IH st1 _ bi Hpool1) as (st' & b' & Hus & Hthis' & Hpool' & Hlb' & Hsum);
      [now rewrite length_insert|exact Hlbi|exact Htid|].
    exists st', b'. split; [|split; [congruence|split; [exact Hpool'|split; [exact Hlb'|]]]].
    + simpl. now rewrite (bind_Some _ _ _ _ _ Hu).
    + rewrite Hsum, (sumZ_insert b tid s _ Hs). simpl. lia.
Qed.

Lemma ctor_pool k nthreads id blockdata idxdata init_val init_loc :
  blockdata <> idxdata ->
  pool (ctor k nthreads id blockdata idxdata init_val init_loc)
       (replicate nthreads (match k with RSum => 0 | _ => init_val end))
       (replicate nthreads init_loc).
Proof.
  intros Hne. split; [exact Hne|]. simpl. split.
  - rewrite lookup_insert_ne by congruence. apply lookup_insert_eq.
  - apply lookup_insert_eq.
Qed.

(** The region is the updates, run on the shared blocks. *)
Lemma region_spec k us st (b bi b' bi' : list Z) :
  pool st b bi ->
  (forall st0, pool st0 b bi -> this st0 = copy_ctor (this st) ->
               blocks st0 = blocks st ->
               exists st1, updates k us st0 = Some (tt, st1) /\
                           this st1 = this st0 /\ pool st1 b' bi') ->
  exists st2, parallel_region k us st = Some (tt, st2) /\ this st2 = this st /\ pool st2 b' bi'.
Proof.
  intros Hpool Hus.
  destruct (Hus (mkState (blocks st) (copy_ctor (this st)))) as (st1 & H1 & Hthis & Hp1);
    [exact Hpool|reflexivity|reflexivity|].
  exists (mkState (blocks st1) (this st)). unfold parallel_region. rewrite H1.
  split; [reflexivity|]. split; [reflexivity|].
  destruct Hp1 as (Hne & Hb & Hbi). rewrite Hthis in Hne, Hb, Hbi. simpl in *.
  now repeat split.
Qed.

(** X16. The sum of a slot-pool reducer: after a region whose threads add
    values through a copy of the reducer, [get()] of the original returns
    the initial value and the sum of the values added. *)
Theorem X16_pool_sum (nthreads : nat) (id : Z) (blockdata idxdata : loc)
  (init_val : T) (init_loc : Index_type) (us : list (nat * T * Index_type)) :
  blockdata <> idxdata ->
  tids_below nthreads us = true ->
  exists st',
    (parallel_region RSum us >> get RSum nthreads)
      (ctor RSum nthreads id blockdata idxdata init_val init_loc)
    = Some (init_val + sumZ (update_values us), st').
Proof.
  intros Hne Htid.
  set (st := ctor RSum nthreads id blockdata idxdata init_val init_loc).
  pose proof (ctor_pool RSum nthreads id blockdata idxdata init_val init_loc Hne) as Hpool.
  fold st in Hpool.
  destruct (updates_sum nthreads us (mkState (blocks st) (copy_ctor (this st)))
              _ _ Hpool ltac:(now rewrite length_replicate)
              ltac:(now rewrite length_replicate) Htid)
    as (st1 & b' & Hus & Hthis & Hpool1 & Hlb & Hsum).
  destruct (region_spec RSum us st _ _ b' (replicate nthreads init_loc) Hpool)
    as (st2 & Hreg & Hthis2 & Hpool2).
  { intros st0 Hp0 Ht0 Hb0. exists st1.
    assert (st0 = mkState (blocks st) (copy_ctor (this st)))
      by (destruct st0; simpl in *; congruence).
    subst st0. split; [exact Hus|]. split; [exact Hthis|exact Hpool1]. }
  rewrite (bind_Some _ _ _ _ _ Hreg).
  destruct Hpool2 as (_ & Hb2 & _).
  unfold get.
  rewrite (bind_Some _ _ _ _ _ (sum_slots_spec b' nthreads 0 0 st2 Hb2 ltac:(lia))).
  unfold get_this. unfold bind at 1.
  rewrite (bind_Some _ _ _ _ _ (set_reduced_spec _ _ st2)).
  eexists. unfold bind, ret. simpl. f_equal. f_equal.
  rewrite Hthis2. simpl. rewrite drop_0, take_ge by lia.
  rewrite Hsum, sumZ_replicate_0. lia.
Qed.

Lemma Reduce_val_cases k val idx v l :
  k <> RSum ->
  fst (Reduce k val idx v l) = val \/ fst (Reduce k val idx v l) = v.
Proof.
  intros Hk. destruct k; simpl; try congruence;
    match goal with |- context [if ?b then _ else _] => destruct b end; simpl; auto.
Qed.

Lemma Reduce_loc_cases k val idx v l :
  is_loc k = true ->
  Reduce k val idx v l = (val, idx) \/ Reduce k val idx v l = (v, l).
Proof.
  intros Hk. destruct k; simpl; try discriminate;
    match goal with |- context [if ?b then _ else _] => destruct b end; auto.
Qed.

(** One update keeps the invariant of the slots. *)
Lemma slots_inv_update k v0 vals pairs (b bi : list Z) tid (s l : Z) val idx :
  k <> RSum -> b !! tid = Some s -> bi !! tid = Some l ->
  slots_inv k v0 vals pairs b bi ->
  slots_inv k v0 (vals ++ [val]) (pairs ++ [(val, idx)])
            (<[tid := fst (Reduce k s l val idx)]> b)
            (if is_loc k then <[tid := snd (Reduce k s l val idx)]> bi else bi).
Proof.
  intros Hk Hs Hl (Hin & Hbest & Hpairs).
  pose proof (lookup_lt_Some _ _ _ Hs) as Hlt.
  pose proof (lookup_lt_Some _ _ _ Hl) as Hlti.
  split; [|split].
  - intros j x Hj. destruct (decide (j = tid)) as [->|Hne].
    + rewrite list_lookup_insert_eq in Hj by exact Hlt. injection Hj as <-.
      destruct (Reduce_val_cases k s l val idx Hk) as [-> | ->].
      * pose proof (Hin tid s Hs) as H. rewrite app_comm_cons.
        apply elem_of_app. now left.
      * rewrite app_comm_cons. apply elem_of_app. right. apply list_elem_of_here.
    + rewrite list_lookup_insert_ne in Hj by congruence.
      rewrite app_comm_cons. apply elem_of_app. left. now apply (Hin j).
  - intros v Hv. apply elem_of_app in Hv as [Hv|Hv].
    + destruct (Hbest v Hv) as (j & x & Hj & Hb).
      destruct (decide (j = tid)) as [->|Hne].
      * exists tid, (fst (Reduce k s l val idx)).
        split; [now apply list_lookup_insert_eq|].
        rewrite Hs in Hj. injection Hj as <-.
        eapply better_trans; [now apply Reduce_better_l|exact Hb].
      * exists j, x. split; [|exact Hb]. now rewrite list_lookup_insert_ne by congruence.
    + apply list_elem_of_singleton in Hv as ->.
      exists tid, (fst (Reduce k s l val idx)).
      split; [now apply list_lookup_insert_eq|]. now apply Reduce_better_r.
  - intros Hloc j x y Hj Hy. rewrite Hloc in Hy.
    destruct (decide (j = tid)) as [->|Hne].
    + rewrite list_lookup_insert_eq in Hj by exact Hlt.
      rewrite list_lookup_insert_eq in Hy by exact Hlti.
      injection Hj as <-. injection Hy as <-. rewrite <- surjective_pairing.
      destruct (Reduce_loc_cases k s l val idx Hloc) as [-> | ->].
      * apply elem_of_app. left. now apply (Hpairs Hloc tid).
      * apply elem_of_app. right. apply list_elem_of_here.
    + rewrite list_lookup_insert_ne in Hj by congruence.
      rewrite list_lookup_insert_ne in Hy by congruence.
      apply elem_of_app. left. now apply (Hpairs Hloc j).
Qed.

Lemma updates_minmax k n v0 us : forall st (b bi : list Z) vals pairs,
  k <> RSum ->
  pool st b bi -> length b = n -> length bi = n -> tids_below n us = true ->
  slots_inv k v0 vals pairs b bi ->
  exists st' (b' bi' : list Z),
    updates k us st = Some (tt, st') /\ this st' = this st /\
    pool st' b' bi' /\ length b' = n /\ length bi' = n /\
    slots_inv k v0 (vals ++ update_values us) (pairs ++ update_locs us) b' bi'.
Proof.
  induction us as [|[[tid val] idx] us IH];
    intros st b bi vals pairs Hk Hpool Hlb Hlbi Htid Hinv.
  - exists st, b, bi. simpl. rewrite !app_nil_r.
    split; [reflexivity|]. split; [reflexivity|]. split; [exact Hpool|].
    split; [exact Hlb|]. split; [exact Hlbi|exact Hinv].
  - simpl in Htid. apply andb_true_iff in Htid as [Ht Htid]. apply Nat.ltb_lt in Ht.
    destruct (update_pool k tid val idx st b bi Hpool ltac:(lia) ltac:(lia))
      as (s & l & st1 & Hs & Hl & Hu & Hthis & Hpool1).
    pose proof (slots_inv_update k v0 vals pairs b bi tid s l val idx Hk Hs Hl Hinv)
      as Hinv1.
    assert (Hlb1 : length (<[tid := fst (Reduce k s l val idx)]> b) = n)
      by now rewrite length_insert.
    assert (Hlbi1 : length (if is_loc k then <[tid := snd (Reduce k s l val idx)]> bi
                            else bi) = n)
      by (destruct (is_loc k); now rewrite ?length_insert).
    destruct (IH st1 _ _ (vals ++ [val]) (pairs ++ [(val, idx)]) Hk Hpool1 Hlb1 Hlbi1
                 Htid Hinv1)
      as (st' & b' & bi' & Hus & Hthis' & Hpool' & Hlb' & Hlbi' & Hinv').
    exists st', b', bi'.
    split; [simpl; now rewrite (bind_Some _ _ _ _ _ Hu)|].
    split; [congruence|]. split; [exact Hpool'|]. split; [exact Hlb'|].
    split; [exact Hlbi'|].
    change (update_values ((tid, val, idx) :: us)) with ([val] ++ update_values us).
    change (update_locs ((tid, val, idx) :: us)) with ([(val, idx)] ++ update_locs us).
    now rewrite !app_assoc.
Qed.

Lemma pool_slots_ok k n st (b bi : list Z) :
  pool st b bi -> length b = n -> length bi = n -> slots_ok k n st.
Proof.
  intros (_ & Hb & Hbi) Hlb Hlbi. split.
  - exists b. split; [exact Hb|lia].
  - destruct k; try exact I; (exists bi; split; [exact Hbi|lia]).
Qed.

(** Where the result of the loop over the slots comes from: the
    accumulator it started from, or a slot (with its location). *)
Lemma fold_slots_from k (b bi : list Z) n : forall i st,
  k <> RSum -> pool st b bi ->
  (i + n <= length b)%nat -> (i + n <= length bi)%nat ->
  exists val idx,
    fold_slots k n i st = Some (tt, with_reduced st val idx) /\
    ((val = m_reduced_val (this st) /\ idx = m_reduced_idx (this st)) \/
     exists j, (i <= j < i + n)%nat /\ b !! j = Some val /\
               (is_loc k = true -> bi !! j = Some idx)).
Proof.
  induction n as [|n IH]; intros i st Hk Hpool Hlb Hlbi.
  - exists (m_reduced_val (this st)), (m_reduced_idx (this st)).
    simpl. rewrite with_reduced_id. split; [reflexivity|now left].
  - pose proof Hpool as (Hne & Hb & Hbi).
    destruct (lookup_lt_is_Some_2 b i) as [v Hv]; [lia|].
    destruct (lookup_lt_is_Some_2 bi i) as [li Hli]; [lia|].
    set (l := if is_loc k then li else m_reduced_idx (this st)).
    assert (Hl : match k with
                 | RMinLoc | RMaxLoc => read_slot (m_idxdata (this st)) i
                 | _ => ret (m_reduced_idx (this st))
                 end st = Some (l, st)).
    { subst l. destruct k; simpl; try reflexivity;
        now apply read_slot_Some with bi. }
    set (val1 := fst (Reduce k (m_reduced_val (this st)) (m_reduced_idx (this st)) v l)).
    set (idx1 := snd (Reduce k (m_reduced_val (this st)) (m_reduced_idx (this st)) v l)).
    destruct (IH (S i) (with_reduced st val1 idx1) Hk Hpool) as (val & idx & Hfold & Hfrom);
      [lia|lia|].
    exists val, idx. split.
    + simpl. unfold get_this. unfold bind at 1.
      rewrite (bind_Some _ _ _ _ _ (read_slot_Some _ _ _ _ _ Hb Hv)).
      rewrite (bind_Some _ _ _ _ _ Hl).
      fold val1 idx1.
      rewrite (surjective_pairing (Reduce k _ _ v l)). fold val1 idx1.
      rewrite (bind_Some _ _ _ _ _ (set_reduced_spec val1 idx1 st)).
      exact Hfold.
    + destruct Hfrom as [[-> ->]|(j & Hj & Hbj & Hbij)].
      * simpl. destruct (is_loc k) eqn:Hloc.
        -- destruct (Reduce_loc_cases k (m_reduced_val (this st))
                       (m_reduced_idx (this st)) v l Hloc) as [E|E];
             subst val1 idx1; rewrite E; simpl.
           ++ now left.
           ++ right. exists i. split; [lia|]. split; [exact Hv|]. intros _. exact Hli.
        -- subst idx1. rewrite (Reduce_snd_noloc k _ _ _ _ Hloc).
           destruct (Reduce_val_cases k (m_reduced_val (this st))
                       (m_reduced_idx (this st)) v l Hk) as [E|E];
             subst val1; rewrite E.
           ++ now left.
           ++ right. exists i. split; [lia|]. split; [exact Hv|]. discriminate.
      * right. exists j. split; [lia|]. now split.
Qed.

(** The state after a region on a fresh reducer. *)
Lemma region_minmax k nthreads id blockdata idxdata init_val init_loc us :
  k <> RSum -> blockdata <> idxdata -> tids_below nthreads us = true ->
  exists st2 (b' bi' : list Z),
    parallel_region k us (ctor k nthreads id blockdata idxdata init_val init_loc)
    = Some (tt, st2) /\
    m_reduced_val (this st2) = init_val /\ m_reduced_idx (this st2) = init_loc /\
    pool st2 b' bi' /\ length b' = nthreads /\ length bi' = nthreads /\
    slots_inv k init_val (update_values us) ((init_val, init_loc) :: update_locs us) b' bi'.
Proof.
  intros Hk Hne Htid.
  set (st := ctor k nthreads id blockdata idxdata init_val init_loc).
  pose proof (ctor_pool k nthreads id blockdata idxdata init_val init_loc Hne) as Hpool.
  fold st in Hpool.
  assert (Hval : match k with RSum => 0 | _ => init_val end = init_val)
    by (destruct k; congruence).
  rewrite Hval in Hpool.
  assert (Hinv : slots_inv k init_val [] [(init_val, init_loc)]
                   (replicate nthreads init_val) (replicate nthreads init_loc)).
  { split; [|split].
    - intros j s Hj. apply lookup_replicate in Hj as [-> _]. apply list_elem_of_here.
    - intros v Hv. now apply elem_of_nil in Hv.
    - intros _ j s l Hj Hl. apply lookup_replicate in Hj as [-> _].
      apply lookup_replicate in Hl as [-> _]. apply list_elem_of_here. }
  destruct (updates_minmax k nthreads init_val us
              (mkState (blocks st) (copy_ctor (this st))) _ _ _ _ Hk Hpool
              ltac:(now rewrite length_replicate) ltac:(now rewrite length_replicate)
              Htid Hinv)
    as (st1 & b' & bi' & Hus & Hthis & Hpool1 & Hlb & Hlbi & Hinv1).
  destruct (region_spec k us st _ _ b' bi' Hpool) as (st2 & Hreg & Hthis2 & Hpool2).
  { intros st0 Hp0 Ht0 Hb0. exists st1.
    assert (st0 = mkState (blocks st) (copy_ctor (this st)))
      by (destruct st0; simpl in *; congruence).
    subst st0. split; [exact Hus|]. split; [exact Hthis|exact Hpool1]. }
  exists st2, b', bi'. split; [exact Hreg|]. rewrite Hthis2. simpl.
  split; [exact Hval|]. split; [reflexivity|]. split; [exact Hpool2|].
  split; [exact Hlb|]. split; [exact Hlbi|exact Hinv1].
Qed.

(** X17. The minimum or maximum of a slot-pool reducer: after a region
    whose threads update through a copy of the reducer, [get()] of the
    original returns one of the initial value and the values given to the
    updates, and none of these is better. *)
Theorem X17_pool_extremum (k : ReduceKind) (nthreads : nat) (id : Z)
  (blockdata idxdata : loc) (init_val : T) (init_loc : Index_type)
  (us : list (nat * T * Index_type)) :
  k <> RSum ->
  blockdata <> idxdata ->
  tids_below nthreads us = true ->
  exists res st',
    (parallel_region k us >> get k nthreads)
      (ctor k nthreads id blockdata idxdata init_val init_loc)
    = Some (res, st') /\
    res ∈ init_val :: update_values us /\
    (forall v, v ∈ init_val :: update_values us -> better k res v).
Proof.
  intros Hk Hne Htid.
  destruct (region_minmax k nthreads id blockdata idxdata init_val init_loc us Hk Hne Htid)
    as (st2 & b' & bi' & Hreg & Hrv & Hri & Hpool & Hlb & Hlbi & Hin & Hbest & _).
  pose proof Hpool as (_ & Hb & _).
  destruct (fold_slots_spec k nthreads b' nthreads 0 st2 Hk
              (pool_slots_ok k nthreads st2 b' bi' Hpool Hlb Hlbi) Hb ltac:(lia))
    as (val & idx & Hfold & Hb0 & Hall & _).
  destruct (fold_slots_from k b' bi' nthreads 0 st2 Hk Hpool ltac:(lia) ltac:(lia))
    as (val' & idx' & Hfold' & Hfrom).
  assert (E : with_reduced st2 val idx = with_reduced st2 val' idx') by congruence.
  apply with_reduced_inj in E as [<- <-].
  exists val, (with_reduced st2 val idx). split; [|split].
  - rewrite (bind_Some _ _ _ _ _ Hreg). unfold get.
    destruct k; try congruence; now rewrite (bind_Some _ _ _ _ _ Hfold).
  - destruct Hfrom as [[-> _]|(j & _ & Hj & _)].
    + rewrite Hrv. apply list_elem_of_here.
    + now apply (Hin j).
  - intros v Hv. apply elem_of_cons in Hv as [->|Hv].
    + now rewrite <- Hrv.
    + destruct (Hbest v Hv) as (j & s & Hj & Hbs).
      eapply better_trans; [|exact Hbs].
      apply (Hall j s); [|exact Hj]. pose proof (lookup_lt_Some _ _ _ Hj). lia.
Qed.

(** X18. The location of a slot-pool min-loc or max-loc reducer belongs to
    its value: after a region, [get()] and then [getLoc()] of the original
    return the initial pair or a pair given to one update. *)
Theorem X18_pool_location (k : ReduceKind) (nthreads : nat) (id : Z)
  (blockdata idxdata : loc) (init_val : T) (init_loc : Index_type)
  (us : list (nat * T * Index_type)) :
  is_loc k = true ->
  blockdata <> idxdata ->
  tids_below nthreads us = true ->
  exists res l st',
    (parallel_region k us >>
     let* v := get k nthreads in
     let* i := getLoc k nthreads in
     ret (v, i))
      (ctor k nthreads id blockdata idxdata init_val init_loc)
    = Some ((res, l), st') /\
    (res, l) ∈ (init_val, init_loc) :: update_locs us.
Proof.
  intros Hloc Hne Htid.
  assert (Hk : k <> RSum) by (intros ->; discriminate).
  destruct (region_minmax k nthreads id blockdata idxdata init_val init_loc us Hk Hne Htid)
    as (st2 & b' & bi' & Hreg & Hrv & Hri & Hpool & Hlb & Hlbi & _ & _ & Hpairs).
  pose proof Hpool as (_ & Hb & _).
  pose proof (pool_slots_ok k nthreads st2 b' bi' Hpool Hlb Hlbi) as Hok.
  destruct (fold_slots_spec k nthreads b' nthreads 0 st2 Hk Hok Hb ltac:(lia))
    as (val & idx & Hfold & _ & Hall & _).
  destruct (fold_slots_from k b' bi' nthreads 0 st2 Hk Hpool ltac:(lia) ltac:(lia))
    as (val' & idx' & Hfold' & Hfrom).
  assert (E : with_reduced st2 val idx = with_reduced st2 val' idx') by congruence.
  apply with_reduced_inj in E as [<- <-].
  destruct (fold_slots_spec k nthreads b' nthreads 0 (with_reduced st2 val idx) Hk)
    as (val2 & idx2 & Hfold2 & _ & _ & Hstable); [exact Hok|exact Hb|lia|].
  destruct Hstable as [-> ->].
  { intros j v Hj Hv. simpl. apply (Hall j v); [lia|exact Hv]. }
  simpl in Hfold2.
  exists val, idx, (with_reduced st2 val idx). split.
  - rewrite (bind_Some _ _ _ _ _ Hreg).
    assert (Hget : get k nthreads st2 = Some (val, with_reduced st2 val idx)).
    { unfold get. destruct k; try congruence; now rewrite (bind_Some _ _ _ _ _ Hfold). }
    assert (Hgl : getLoc k nthreads (with_reduced st2 val idx)
                  = Some (idx, with_reduced st2 val idx)).
    { unfold getLoc. now rewrite (bind_Some _ _ _ _ _ Hfold2). }
    rewrite (bind_Some _ _ _ _ _ Hget). now rewrite (bind_Some _ _ _ _ _ Hgl).
  - destruct Hfrom as [[-> ->]|(j & _ & Hj & Hji)].
    + rewrite Hrv, Hri. apply list_elem_of_here.
    + apply (Hpairs Hloc j); [exact Hj|now apply Hji].
Qed.

End OmpReduceOrderedRegion.

(** ** What an operation does at a segment of an unknown kind *)

Lemma total_length_app i1 i2 :
  total_length (i1 ++ i2) = total_length i1 + total_length i2.
Proof.
  unfold total_length. induction i1 as [|i i1 IH]; simpl; [reflexivity|].
  rewrite IH. lia.
Qed.

Lemma seg_ptrs_app s1 s2 : seg_ptrs (s1 ++ s2) = seg_ptrs s1 ++ seg_ptrs s2.
Proof. unfold seg_ptrs. apply omap_app. Qed.

Lemma print_cout_Some items w :
  print_cout items w = Some (tt, mkWorld (heap w) (cout w ++ items)).
Proof. reflexivity. Qed.

(** C8: an index set has a segment whose tag is neither Range nor
    Unstructured, between segments of a known kind with live payloads that
    are owned once.  The destructor, [copy] and [print] are defined.  The
    destructor writes its diagnostic message to the standard output and
    nothing else, releases the payloads of the other segments, and leaves
    every other address, the pointer of the unknown segment among them, as
    it is.  [copy] writes its diagnostic message and nothing else, and
    appends copies of the other segments, in order, to the target.  [print]
    writes the segments before, its diagnostic message, and the segments
    after. *)
Theorem C8_unknown_segment_is_reported (this other : loc) (len len_c : Index_type)
  (pre post segs_c : list Segment) (seg : Segment) (ipre ipost : list ISeg)
  (w : World) :
  m_type seg <> _Range_ -> m_type seg <> _Unstructured_ ->
  heap w !! other = Some (OHybrid (mkHybrid len (pre ++ seg :: post))) ->
  heap w !! this = Some (OHybrid (mkHybrid len_c segs_c)) ->
  Forall2 (seg_is (heap w)) pre ipre ->
  Forall2 (seg_is (heap w)) post ipost ->
  NoDup (seg_ptrs (pre ++ post)) ->
  (exists w',
     HybridISet_dtor other w = Some (tt, w') /\
     cout w' = cout w ++ [Str "\t HybridISet dtor: case not implemented!!\n"] /\
     Forall (fun p => heap w' !! p = None) (seg_ptrs (pre ++ post)) /\
     (forall q, q ∉ seg_ptrs (pre ++ post) -> heap w' !! q = heap w !! q))
  /\
  (exists w' new_pre new_post,
     copy this other w = Some (tt, w') /\
     cout w' = cout w ++ [Str "\t HybridISet copySegments: case not implemented!!\n"] /\
     heap w' !! this =
       Some (OHybrid (mkHybrid (len_c + total_length (ipre ++ ipost))
                               (segs_c ++ new_pre ++ new_post))) /\
     Forall2 (seg_is (heap w')) new_pre ipre /\
     Forall2 (seg_is (heap w')) new_post ipost /\
     kept_except this (heap w) (heap w'))
  /\
  print other w =
  Some ([Str "HYBRID INDEX SET : "; Num len; Str " length..."; Endl;
         Num (Z.of_nat (length (pre ++ seg :: post))); Str " segments..."; Endl]
        ++ map iseg_item ipre
        ++ [Str "HybridISet print: case not implemented!!\n"]
        ++ map iseg_item ipost, w).
Proof.
  intros HR HU Hother Hthis Hpre Hpost Hnd.
  destruct (unknown_segment_loops this other len pre post seg w HR HU Hother)
    as (Edtor & Ecopy & Eprint).
  rewrite seg_ptrs_app in *. apply NoDup_app in Hnd as (Hnd1 & Hdisj & Hnd2).
  split; [|split].
  - rewrite Edtor.
    destruct (dtor_loop_spec pre ipre w Hpre Hnd1) as (w1 & Hl1 & Hfr1 & Hrel1 & Hc1).
    rewrite ?bind_assoc. rewrite (bind_Some _ _ _ _ _ Hl1).
    rewrite (bind_Some _ _ _ _ _ (print_cout_Some _ w1)).
    set (w2 := mkWorld (heap w1) (cout w1 ++ _)).
    assert (Hpost2 : Forall2 (seg_is (heap w2)) post ipost).
    { apply (segs_are_ext (heap w) _ post ipost Hpost).
      intros p Hp. simpl. apply Hfr1. intros Hp1. exact (Hdisj p Hp1 Hp). }
    destruct (dtor_loop_spec post ipost w2 Hpost2 Hnd2) as (w' & Hl2 & Hfr2 & Hrel2 & Hc2).
    exists w'. split; [exact Hl2|]. split; [|split].
    + rewrite Hc2. simpl. now rewrite Hc1.
    + apply Forall_app. split; [|exact Hrel2].
      apply Forall_forall. intros p Hp. rewrite Forall_forall in Hrel1.
      rewrite Hfr2 by (intros Hp2; exact (Hdisj p Hp Hp2)). simpl. now apply Hrel1.
    + intros q Hq. rewrite not_elem_of_app in Hq. destruct Hq as [Hq1 Hq2].
      rewrite (Hfr2 q Hq2). simpl. now apply Hfr1.
  - rewrite Ecopy.
    destruct (copy_loop_spec this pre ipre w len_c segs_c Hthis Hpre)
      as (w1 & new_pre & Hl1 & Hthis1 & Hnew1 & Hk1 & _ & _ & Hc1).
    rewrite ?bind_assoc. rewrite (bind_Some _ _ _ _ _ Hl1).
    rewrite (bind_Some _ _ _ _ _ (print_cout_Some _ w1)).
    set (w2 := mkWorld (heap w1) (cout w1 ++ _)).
    assert (Hpost2 : Forall2 (seg_is (heap w2)) post ipost).
    { apply (segs_are_kept (heap w) _ post ipost); [|exact Hpost].
      exact (kept_except_payloads this _ (heap w) (heap w1) Hthis Hk1). }
    destruct (copy_loop_spec this post ipost w2 _ _ Hthis1 Hpost2)
      as (w' & new_post & Hl2 & Hthis2 & Hnew2 & Hk2 & _ & _ & Hc2).
    exists w', new_pre, new_post. split; [exact Hl2|]. split; [|split; [|split; [|split]]].
    + rewrite Hc2. simpl. now rewrite Hc1.
    + rewrite Hthis2, total_length_app. do 3 f_equal; [lia|now rewrite app_assoc].
    + apply (segs_are_kept (heap w2) _ new_pre ipre); [|exact Hnew1].
      exact (kept_except_payloads this _ (heap w2) (heap w') Hthis1 Hk2).
    + exact Hnew2.
    + eapply kept_except_trans; [exact Hk1|exact Hk2].
  - rewrite Eprint.
    rewrite (bind_Some _ _ _ _ _ (print_segments_spec w pre ipre Hpre)).
    now rewrite (bind_Some _ _ _ _ _ (print_segments_spec w post ipost Hpost)).
Qed.

(** ** Further instances *)

Lemma X1_add_keeps_valid_witness :
  (forall b e, exists w' segs',
      addRangeIndices 1%positive b e two_sets = Some (tt, w') /\
      valid (heap w') 1%positive segs' ([IRange (mkRange 0 4)] ++ [IRange (mkRange b e)]) /\
      getLength 1%positive w' = Some (total_length [IRange (mkRange 0 4)] + (e - b), w')) /\
  (forall indx n, 0 <= n <= Z.of_nat (length indx) -> exists w' segs',
      addUnstructuredIndices 1%positive indx n two_sets = Some (tt, w') /\
      valid (heap w') 1%positive segs'
            ([IRange (mkRange 0 4)] ++ [IList (mkUnstructured (take (Z.to_nat n) indx) n)]) /\
      getLength 1%positive w' = Some (total_length [IRange (mkRange 0 4)] + n, w')) /\
  (forall p r, heap two_sets !! p = Some (ORange r) -> exists w' segs',
      addISet_Range 1%positive p two_sets = Some (tt, w') /\
      valid (heap w') 1%positive segs' ([IRange (mkRange 0 4)] ++ [IRange r]) /\
      heap w' !! p = Some (ORange r)) /\
  (forall p u, heap two_sets !! p = Some (OUnstructured u) -> exists w' segs',
      addISet_Unstructured 1%positive p two_sets = Some (tt, w') /\
      valid (heap w') 1%positive segs' ([IRange (mkRange 0 4)] ++ [IList u]) /\
      heap w' !! p = Some (OUnstructured u)).
Proof.
  apply (X1_add_keeps_valid 1%positive two_sets [mkSegment _Range_ (Some 2%positive)]
           [IRange (mkRange 0 4)]).
  split; [reflexivity|]. split; [now repeat constructor|]. apply NoDup_singleton.
Defined.

Lemma X2_copy_ctor_deep_copy_witness :
  exists this w' new_segs,
    HybridISet_copy_ctor 3%positive two_sets = Some (this, w') /\
    heap two_sets !! this = None /\
    valid (heap w') this new_segs [IList (mkUnstructured [7; 9] 2)] /\
    valid (heap w') 3%positive [mkSegment _Unstructured_ (Some 4%positive)]
          [IList (mkUnstructured [7; 9] 2)] /\
    Forall (fun p => heap two_sets !! p = None) (seg_ptrs new_segs) /\
    enumerate this w' = Some (isegs_indices [IList (mkUnstructured [7; 9] 2)], w') /\
    getLength this w' = Some (total_length [IList (mkUnstructured [7; 9] 2)], w') /\
    cout w' = cout two_sets.
Proof.
  apply (X2_copy_ctor_deep_copy 3%positive two_sets
           [mkSegment _Unstructured_ (Some 4%positive)]
           [IList (mkUnstructured [7; 9] 2)]).
  split; [reflexivity|]. split; [now repeat constructor|]. apply NoDup_singleton.
Defined.

Lemma X3_destroy_releases_payloads_witness :
  exists w',
    destroy 1%positive two_sets = Some (tt, w') /\
    heap w' !! 1%positive = None /\
    Forall (fun p => heap w' !! p = None) (seg_ptrs [mkSegment _Range_ (Some 2%positive)]) /\
    (forall q, q <> 1%positive -> q ∉ seg_ptrs [mkSegment _Range_ (Some 2%positive)] ->
               heap w' !! q = heap two_sets !! q) /\
    cout w' = cout two_sets.
Proof.
  apply (X3_destroy_releases_payloads 1%positive two_sets
           [mkSegment _Range_ (Some 2%positive)] [IRange (mkRange 0 4)]).
  split; [reflexivity|]. split; [now repeat constructor|]. apply NoDup_singleton.
Defined.

Lemma X4_copy_then_destroy_witness :
  (let* this := HybridISet_copy_ctor 1%positive in destroy this) two_sets
  = Some (tt, two_sets).
Proof.
  apply (X4_copy_then_destroy 1%positive two_sets
           [mkSegment _Range_ (Some 2%positive)] [IRange (mkRange 0 4)]).
  split; [reflexivity|]. split; [now repeat constructor|]. apply NoDup_singleton.
Defined.

Lemma X5_swap_exchanges_witness :
  exists w',
    swap 1%positive 3%positive two_sets = Some (tt, w') /\
    heap w' !! 1%positive
      = Some (OHybrid (mkHybrid 2 [mkSegment _Unstructured_ (Some 4%positive)])) /\
    heap w' !! 3%positive
      = Some (OHybrid (mkHybrid 4 [mkSegment _Range_ (Some 2%positive)])) /\
    (forall q, q <> 1%positive -> q <> 3%positive -> heap w' !! q = heap two_sets !! q) /\
    cout w' = cout two_sets /\
    swap 1%positive 3%positive w' = Some (tt, two_sets).
Proof.
  apply (X5_swap_exchanges 1%positive 3%positive
           (mkHybrid 4 [mkSegment _Range_ (Some 2%positive)])
           (mkHybrid 2 [mkSegment _Unstructured_ (Some 4%positive)]) two_sets);
    reflexivity.
Defined.

Lemma X6_null_payload_witness :
  HybridISet_copy_ctor 1%positive unknown_world = None /\
  (5%positive <> 1%positive ->
   operator_assign 5%positive 1%positive unknown_world = None) /\
  HybridISet_dtor 1%positive unknown_world =
    (for_segments dtor_segment [mkSegment _Range_ (Some 2%positive);
                                mkSegment _Unknown_ (Some 9%positive)] >>
     for_segments dtor_segment []) unknown_world /\
  print_segment (mkSegment _Range_ None) unknown_world =
    Some ([Str "_Range_ is null"; Endl], unknown_world).
Proof.
  apply (X6_null_payload 5%positive 1%positive
           (mkHybrid 4 [mkSegment _Range_ (Some 2%positive);
                        mkSegment _Unknown_ (Some 9%positive);
                        mkSegment _Range_ None])
           [mkSegment _Range_ (Some 2%positive); mkSegment _Unknown_ (Some 9%positive)]
           [] (mkSegment _Range_ None) unknown_world).
  - reflexivity.
  - reflexivity.
  - now left.
  - reflexivity.
Defined.

Lemma X7_print_lists_segments_witness :
  print 3%positive two_sets =
  Some ([Str "HYBRID INDEX SET : "; Num 2; Str " length..."; Endl;
         Num (Z.of_nat (length [IList (mkUnstructured [7; 9] 2)]));
         Str " segments..."; Endl]
        ++ map iseg_item [IList (mkUnstructured [7; 9] 2)], two_sets).
Proof.
  apply (X7_print_lists_segments 3%positive two_sets 2 [IList (mkUnstructured [7; 9] 2)]).
  eexists. split; [reflexivity|]. split; [reflexivity|]. now repeat constructor.
Defined.

Lemma X8_builder_returns_valid_witness :
  exists hindex w' segs isegs,
    buildHybridISet 4 32 (seqZ 0 40 ++ [7; 5] ++ seqZ 64 8)
      (Z.of_nat (length (seqZ 0 40 ++ [7; 5] ++ seqZ 64 8))) empty_world
      = Some (hindex, w') /\
    heap empty_world !! hindex = None /\
    valid (heap w') hindex segs isegs /\
    total_length isegs = Z.of_nat (length (seqZ 0 40 ++ [7; 5] ++ seqZ 64 8)) /\
    isegs_indices isegs = seqZ 0 40 ++ [7; 5] ++ seqZ 64 8.
Proof.
  apply (X8_builder_returns_valid 4 32 ltac:(lia)
           (seqZ 0 40 ++ [7; 5] ++ seqZ 64 8) empty_world).
  lia.
Defined.

Lemma X9_short_input_one_list_witness :
  exists hindex w',
    buildHybridISet 4 32 [3; 1; 2] (Z.of_nat (length [3; 1; 2])) empty_world
      = Some (hindex, w') /\
    represents (heap w') hindex (Z.of_nat (length [3; 1; 2]))
               [IList (mkUnstructured [3; 1; 2] (Z.of_nat (length [3; 1; 2])))] /\
    cout w' = cout empty_world.
Proof.
  apply (X9_short_input_one_list 4 32 [3; 1; 2] empty_world). simpl. lia.
Defined.

Lemma X10_no_adjacent_one_list_witness :
  exists hindex w',
    buildHybridISet 4 2 [5; 3; 9; 1] (Z.of_nat (length [5; 3; 9; 1])) empty_world
      = Some (hindex, w') /\
    represents (heap w') hindex (Z.of_nat (length [5; 3; 9; 1]))
               [IList (mkUnstructured [5; 3; 9; 1] (Z.of_nat (length [5; 3; 9; 1])))] /\
    cout w' = cout empty_world.
Proof.
  apply (X10_no_adjacent_one_list 4 2 ltac:(lia) [5; 3; 9; 1] empty_world).
  - lia.
  - intros i v v' Hv Hv'.
    destruct i as [|[|[|[|i]]]]; simpl in Hv, Hv';
      try discriminate; injection Hv as <-; injection Hv' as <-; lia.
Defined.

Lemma X11_aligned_run_one_range_witness :
  exists hindex w',
    buildHybridISet 4 32 (seqZ 64 40) 40 empty_world = Some (hindex, w') /\
    represents (heap w') hindex 40 [IRange (mkRange 64 (64 + 40))] /\
    stats_pass 4 (seqZ 64 40) 40 = Some 3 /\
    cout w' = cout empty_world.
Proof.
  apply (X11_aligned_run_one_range 4 32 ltac:(lia) 64 40 empty_world).
  - reflexivity.
  - lia.
  - vm_compute. reflexivity.
Defined.

Lemma X12_estimate_is_cost_witness :
  exists docount w' len isegs,
    stats_pass 4 [0; 1; 2; 3; 9] (Z.of_nat (length [0; 1; 2; 3; 9])) = Some docount /\
    build_pass 4 1%positive [0; 1; 2; 3; 9] (Z.of_nat (length [0; 1; 2; 3; 9])) empty_set
      = Some (tt, w') /\
    represents (heap w') 1%positive len isegs /\
    docount = cost isegs + 1.
Proof.
  apply (X12_estimate_is_cost 4 1%positive [0; 1; 2; 3; 9] empty_set).
  - discriminate.
  - eexists. split; [reflexivity|]. split; [reflexivity|]. constructor.
Defined.

Lemma X14_location_belongs_to_value_witness :
  exists res l,
    OmpReduce.get 1%positive (<[1%positive := OmpReduce.mkReducer None 3 13 0]> ∅)
    = Some (res, <[1%positive := OmpReduce.mkReducer None 3 13 0]> ∅) /\
    OmpReduce.getLoc 1%positive (<[1%positive := OmpReduce.mkReducer None 3 13 0]> ∅)
    = Some (l, <[1%positive := OmpReduce.mkReducer None 3 13 0]> ∅) /\
    (res, l) ∈ (10, -1) :: update_pairs loc_region.
Proof.
  apply (OmpReduceRegion.X14_location_belongs_to_value RMinLoc 10 (-1) 0 loc_region
           1%positive (<[1%positive := OmpReduce.mkReducer None 10 (-1) 0]> ∅)).
  - now left.
  - reflexivity.
  - reflexivity.
  - vm_compute. reflexivity.
Defined.

Lemma X16_pool_sum_witness :
  exists st',
    (OmpReduceOrdered.parallel_region RSum pool_updates >> OmpReduceOrdered.get RSum 4)
      (OmpReduceOrdered.ctor RSum 4 0 1%positive 2%positive 100 (-1))
    = Some (100 + sumZ (update_values pool_updates), st').
Proof.
  apply (OmpReduceOrderedRegion.X16_pool_sum 4 0 1%positive 2%positive 100 (-1)
           pool_updates).
  - discriminate.
  - reflexivity.
Defined.

Lemma X17_pool_extremum_witness :
  exists res st',
    (OmpReduceOrdered.parallel_region RMax pool_updates >> OmpReduceOrdered.get RMax 4)
      (OmpReduceOrdered.ctor RMax 4 0 1%positive 2%positive 0 (-1))
    = Some (res, st') /\
    res ∈ 0 :: update_values pool_updates /\
    (forall v, v ∈ 0 :: update_values pool_updates -> better RMax res v).
Proof.
  apply (OmpReduceOrderedRegion.X17_pool_extremum RMax 4 0 1%positive 2%positive 0 (-1)
           pool_updates).
  - discriminate.
  - discriminate.
  - reflexivity.
Defined.

Lemma X18_pool_location_witness :
  exists res l st',
    (OmpReduceOrdered.parallel_region RMinLoc pool_updates >>
     let* v := OmpReduceOrdered.get RMinLoc 4 in
     let* i := OmpReduceOrdered.getLoc RMinLoc 4 in
     ret (v, i))
      (OmpReduceOrdered.ctor RMinLoc 4 0 1%positive 2%positive 100 (-1))
    = Some ((res, l), st') /\
    (res, l) ∈ (100, -1) :: update_locs pool_updates.
Proof.
  apply (OmpReduceOrderedRegion.X18_pool_location RMinLoc 4 0 1%positive 2%positive
           100 (-1) pool_updates).
  - reflexivity.
  - discriminate.
  - reflexivity.
Defined.

(** What these regions return. *)
Example loc_region_example :
  (let* _ := OmpReduce.exec RMinLoc loc_region in
   let* v := OmpReduce.get 1%positive in
   let* l := OmpReduce.getLoc 1%positive in
   ret (v, l)) (<[1%positive := OmpReduce.mkReducer None 10 (-1) 0]> ∅)
  = Some ((3, 13), <[1%positive := OmpReduce.mkReducer None 3 13 0]> ∅).
Proof. vm_compute. reflexivity. Qed.

Example pool_region_example :
  fst <$> (OmpReduceOrdered.parallel_region RMinLoc pool_updates >>
           let* v := OmpReduceOrdered.get RMinLoc 4 in
           let* i := OmpReduceOrdered.getLoc RMinLoc 4 in
           ret (v, i))
            (OmpReduceOrdered.ctor RMinLoc 4 0 1%positive 2%positive 100 (-1))
  = Some (1, 12).
Proof. vm_compute. reflexivity. Qed.

Lemma C8_unknown_segment_is_reported_witness :
  (exists w',
     HybridISet_dtor 1%positive unknown_between = Some (tt, w') /\
     cout w' = cout unknown_between
               ++ [Str "\t HybridISet dtor: case not implemented!!\n"] /\
     Forall (fun p => heap w' !! p = None)
            (seg_ptrs ([mkSegment _Range_ (Some 2%positive)]
                       ++ [mkSegment _Unstructured_ (Some 4%positive)])) /\
     (forall q, q ∉ seg_ptrs ([mkSegment _Range_ (Some 2%positive)]
                              ++ [mkSegment _Unstructured_ (Some 4%positive)]) ->
                heap w' !! q = heap unknown_between !! q))
  /\
  (exists w' new_pre new_post,
     copy 5%positive 1%positive unknown_between = Some (tt, w') /\
     cout w' = cout unknown_between
               ++ [Str "\t HybridISet copySegments: case not implemented!!\n"] /\
     heap w' !! 5%positive =
       Some (OHybrid (mkHybrid (0 + total_length ([IRange (mkRange 0 4)]
                                                  ++ [IList (mkUnstructured [7; 9] 2)]))
                               ([] ++ new_pre ++ new_post))) /\
     Forall2 (seg_is (heap w')) new_pre [IRange (mkRange 0 4)] /\
     Forall2 (seg_is (heap w')) new_post [IList (mkUnstructured [7; 9] 2)] /\
     kept_except 5%positive (heap unknown_between) (heap w'))
  /\
  print 1%positive unknown_between =
  Some ([Str "HYBRID INDEX SET : "; Num 6; Str " length..."; Endl;
         Num (Z.of_nat (length ([mkSegment _Range_ (Some 2%positive)]
                                ++ mkSegment _Unknown_ (Some 9%positive)
                                   :: [mkSegment _Unstructured_ (Some 4%positive)])));
         Str " segments..."; Endl]
        ++ map iseg_item [IRange (mkRange 0 4)]
        ++ [Str "HybridISet print: case not implemented!!\n"]
        ++ map iseg_item [IList (mkUnstructured [7; 9] 2)], unknown_between).
Proof.
  apply (C8_unknown_segment_is_reported 5%positive 1%positive 6 0
           [mkSegment _Range_ (Some 2%positive)]
           [mkSegment _Unstructured_ (Some 4%positive)] []
           (mkSegment _Unknown_ (Some 9%positive))
           [IRange (mkRange 0 4)] [IList (mkUnstructured [7; 9] 2)] unknown_between).
  - discriminate.
  - discriminate.
  - reflexivity.
  - reflexivity.
  - now repeat constructor.
  - now repeat constructor.
  - simpl. apply NoDup_cons. split; [|apply NoDup_singleton].
    intros H. apply list_elem_of_singleton in H. discriminate.
Defined.

(** The three operations on that index set. *)
Example unknown_between_example :
  snd <$> HybridISet_dtor 1%positive unknown_between
  = Some (mkWorld (<[1%positive := OHybrid (mkHybrid 6
                        [mkSegment _Range_ (Some 2%positive);
                         mkSegment _Unknown_ (Some 9%positive);
                         mkSegment _Unstructured_ (Some 4%positive)])]>
                     (<[5%positive := OHybrid (mkHybrid 0 [])]> ∅))
                  [Str "\t HybridISet dtor: case not implemented!!\n"])
  /\
  (copy 5%positive 1%positive >> enumerate 5%positive) unknown_between
  = (addISet_Range 5%positive 2%positive >>
     print_cout [Str "\t HybridISet copySegments: case not implemented!!\n"] >>
     addISet_Unstructured 5%positive 4%positive >>
     ret [0; 1; 2; 3; 7; 9]) unknown_between.
Proof. split; vm_compute; reflexivity. Qed.

Lemma C4_sum_folded_once_witness :
  exists h2,
    OmpReduce.exec RSum region (<[1%positive := OmpReduce.mkReducer None 10 0 0]> ∅)
    = Some (tt, h2) /\
    (forall p, p <> 1%positive -> h2 !! p = None) /\
    OmpReduce.get 1%positive h2 = Some (10 + sumZ (OmpReduce.updates region), h2).
Proof.
  apply (OmpReduceRegion.C4_sum_folded_once 10 region 1%positive
           (<[1%positive := OmpReduce.mkReducer None 10 0 0]> ∅)).
  - reflexivity.
  - vm_compute. reflexivity.
Defined.

Lemma X13_region_extremum_witness :
  exists h2 res,
    OmpReduce.exec RMin region (<[1%positive := OmpReduce.mkReducer None 10 0 0]> ∅)
    = Some (tt, h2) /\
    (forall p, p <> 1%positive -> h2 !! p = None) /\
    OmpReduce.get 1%positive h2 = Some (res, h2) /\
    res ∈ 10 :: OmpReduce.updates region /\
    (forall v, v ∈ 10 :: OmpReduce.updates region -> better RMin res v).
Proof.
  apply (OmpReduceRegion.X13_region_extremum RMin 10 0 0 region 1%positive
           (<[1%positive := OmpReduce.mkReducer None 10 0 0]> ∅)).
  - discriminate.
  - reflexivity.
  - vm_compute. reflexivity.
Defined.

Lemma X15_sum_counts_initializer_witness :
  exists h2,
    OmpReduce.exec RSum region (<[1%positive := OmpReduce.mkReducer None 10 0 2]> ∅)
    = Some (tt, h2) /\
    (forall p, p <> 1%positive -> h2 !! p = None) /\
    OmpReduce.get 1%positive h2
    = Some (10 + sumZ (OmpReduce.updates region) + 2 * OmpReduce.copies region, h2).
Proof.
  apply (OmpReduceRegion.X15_sum_counts_initializer 10 2 region 1%positive
           (<[1%positive := OmpReduce.mkReducer None 10 0 2]> ∅)).
  - reflexivity.
  - vm_compute. reflexivity.
Defined.

(** What the region of the sum reducer leaves, with the default
    initializer and with the initializer 2. *)
Example region_sum_example :
  (OmpReduce.exec RSum region >> OmpReduce.get 1%positive)
    (<[1%positive := OmpReduce.mkReducer None 10 0 0]> ∅)
  = Some (19, <[1%positive := OmpReduce.mkReducer None 19 0 0]> ∅)
  /\
  (OmpReduce.exec RSum region >> OmpReduce.get 1%positive)
    (<[1%positive := OmpReduce.mkReducer None 10 0 2]> ∅)
  = Some (25, <[1%positive := OmpReduce.mkReducer None 25 0 2]> ∅).
Proof. split; vm_compute; reflexivity. Qed.
